(** * Hyperliquid OpenAPI updater: a shallow embedding of [update.ts]

    The repository holds one batch script in two revisions: [src/update.ts]
    (schema names built directly from the method name) and
    [src/unnamed/part_000] (schema names resolved from the SDK's
    documentation nodes by [extractFunctionSchema]).  The functions
    [jsonSchemasToOpenAPIs], [updateSummary] and [updateGitBookOpenAPIs]
    have the same text in both revisions.

    Strings.  A JavaScript string is a sequence of 16-bit code units.  The
    strings of the model are the ones whose code units are all below 256:
    such a string is the Rocq [string] with the same code units, one
    [ascii] for one code unit, its number the number of the code unit (the
    characters U+0000 to U+00FF; a Rocq string is not a UTF-8 encoding).
    On these strings positions, lengths, the order of [sort], the white
    space of [trimEnd] and the line terminators of the regular expression
    are the ones of JavaScript.  [toUpperCase] is the one of JavaScript
    but for two code units, U+00B5 and U+00FF, whose upper-case forms lie
    above 255 ([JS.upper_unit]).

    Objects.  A JavaScript object used as a dictionary is an association
    list in property order ([Object.keys] order) with distinct keys; a
    lookup is a lookup among the own properties.  Where the script reads a
    property under a name that comes from its input, the names that every
    object inherits ([JS.inherited]) are told apart. *)

From Stdlib Require Import Ascii String ZArith Lia.
From stdpp Require Import base option list strings pretty gmap sets sorting.

#[local] Set Warnings "-register-all,-clear-no-such-hyp".

Local Open Scope stdpp_scope.

(** ** JavaScript string primitives *)

Module JS.

(** [s.slice(n)] for [0 <= n]. *)
Fixpoint slice_from (n : nat) (s : string) : string :=
  match n, s with
  | O, _ => s
  | S _, EmptyString => EmptyString
  | S n', String _ r => slice_from n' r
  end.

(** [s.slice(0, n)] for [0 <= n]. *)
Fixpoint slice_to (n : nat) (s : string) : string :=
  match n, s with
  | O, _ => EmptyString
  | S _, EmptyString => EmptyString
  | S n', String c r => String c (slice_to n' r)
  end.

(** [s.charAt(n)]: a string of length one, or the empty string. *)
Definition charAt (n : nat) (s : string) : string :=
  slice_to 1 (slice_from n s).

(** [c.toUpperCase()] for a string of one code unit [c] below 256: the
    letters a to z and U+00E0 to U+00FE (but the division sign U+00F7)
    move down by 32, the sharp s U+00DF becomes the two letters SS, every
    other code unit stays.  The micro sign U+00B5 and the y with diaeresis
    U+00FF have their upper-case forms (U+039C, U+0178) above 255; they
    stay here, and [upper_in_model] tells them apart. *)
Definition upper_unit (c : ascii) : string :=
  let n := N_of_ascii c in
  if ((97 <=? n) && (n <=? 122))%N then String (ascii_of_N (n - 32)) EmptyString
  else if (n =? 223)%N then "SS"
  else if ((224 <=? n) && (n <=? 254) && negb (n =? 247))%N
       then String (ascii_of_N (n - 32)) EmptyString
  else String c EmptyString.

(** The code units whose upper-case form is a string of the model. *)
Definition upper_in_model (c : ascii) : bool :=
  let n := N_of_ascii c in negb (n =? 181)%N && negb (n =? 255)%N.

(** The code units whose upper-case form is one code unit of the model. *)
Definition upper_is_unit (c : ascii) : bool :=
  upper_in_model c && negb (N_of_ascii c =? 223)%N.

(** [s.toUpperCase()]. *)
Fixpoint toUpperCase (s : string) : string :=
  match s with
  | EmptyString => EmptyString
  | String c r => upper_unit c +:+ toUpperCase r
  end.

(** [s.startsWith(p)]. *)
Fixpoint startsWith (p s : string) : bool :=
  match p, s with
  | EmptyString, _ => true
  | String _ _, EmptyString => false
  | String a p', String b s' => if Ascii.eqb a b then startsWith p' s' else false
  end.

(** [s.indexOf(p)]: the first position at which [p] occurs in [s]. *)
Fixpoint indexOf (p s : string) : option nat :=
  if startsWith p s then Some 0
  else match s with
       | EmptyString => None
       | String _ r => S <$> indexOf p r
       end.

(** [s.indexOf(p, from)]: positions below [from] are not looked at. *)
Fixpoint indexOf_from (p s : string) (from : nat) {struct from} : option nat :=
  match from with
  | O => indexOf p s
  | S from' =>
      match s with
      | EmptyString => if startsWith p s then Some 0 else None
      | String _ r => S <$> indexOf_from p r from'
      end
  end.

(** The white space and the line terminators that [trimEnd] removes, among
    the code units below 256: TAB, LF, VT, FF, CR, SP and the no-break
    space U+00A0.  (The others, U+FEFF, U+2028, U+2029 and the space
    separators from U+1680 on, are above 255.) *)
Definition is_white_space (c : ascii) : bool :=
  let n := N_of_ascii c in
  ((9 <=? n) && (n <=? 13) || (n =? 32) || (n =? 160))%N.

(** [s.trimEnd()]. *)
Fixpoint trimEnd (s : string) : string :=
  match s with
  | EmptyString => EmptyString
  | String c r =>
      match trimEnd r with
      | EmptyString => if is_white_space c then EmptyString else String c EmptyString
      | String _ _ as r' => String c r'
      end
  end.

(** [ls.join(sep)]. *)
Fixpoint join (sep : string) (ls : list string) : string :=
  match ls with
  | [] => EmptyString
  | [x] => x
  | x :: (_ :: _) as r => x +:+ sep +:+ join sep r
  end.

(** [Array.prototype.sort] is stable: an element goes behind the elements
    that sort before it and in front of the ones it ties with that came
    later.  [before y x] says that [y] sorts strictly before [x]. *)
Fixpoint insert_sorted {A} (before : A → A → bool) (x : A) (l : list A) : list A :=
  match l with
  | [] => [x]
  | y :: r => if before y x then y :: insert_sorted before x r else x :: l
  end.

Definition sort_by {A} (before : A → A → bool) (l : list A) : list A :=
  foldr (insert_sorted before) [] l.

(** [keys.sort()] without a comparator orders strings by code units. *)
Definition sort : list string → list string := sort_by String.ltb.

(** Whether the character [c] occurs in [p]. *)
Fixpoint has_char (c : ascii) (p : string) : bool :=
  match p with
  | EmptyString => false
  | String q r => Ascii.eqb c q || has_char c r
  end.

(** [s.includes(p)]. *)
Definition includes (p s : string) : bool :=
  match indexOf p s with
  | Some _ => true
  | None => false
  end.

(** [s.endsWith(p)]. *)
Fixpoint endsWith (p s : string) : bool :=
  if String.eqb s p then true
  else match s with
       | EmptyString => false
       | String _ r => endsWith p r
       end.

(** The property names that every object inherits from [Object.prototype]:
    under such a name [o[name]] is not [undefined], also when [o] has no
    own property of the name. *)
Definition inherited (name : string) : bool :=
  existsb (String.eqb name)
    [ "constructor"; "__defineGetter__"; "__defineSetter__"; "hasOwnProperty";
      "__lookupGetter__"; "__lookupSetter__"; "isPrototypeOf"; "propertyIsEnumerable";
      "toString"; "valueOf"; "__proto__"; "toLocaleString" ].

(** Line terminators, which the regular expression atom [.] refuses: LF
    and CR (U+2028 and U+2029 are above 255). *)
Definition is_line_terminator (c : ascii) : bool :=
  match c with
  | "010"%char | "013"%char => true
  | _ => false
  end.

End JS.

(** ** Response-name normalisation

    [responseNode.name.replace(/(.+)SuccessResponse$/, "$1Response")]
    (part_000, line 192).  The matcher below runs the pattern the way the
    regular-expression engine does: start positions from the left, [.+]
    greedy with backtracking, the literal, the end-of-input anchor. *)

(** The pattern tried at the beginning of [s]; the result is the text
    captured by the group. *)
Fixpoint match_stem_here (s : string) : option string :=
  match s with
  | EmptyString => None
  | String c r =>
      if JS.is_line_terminator c then None
      else match match_stem_here r with
           | Some g => Some (String c g)
           | None => if String.eqb r "SuccessResponse" then Some (String c EmptyString) else None
           end
  end.

(** [name.replace(/(.+)SuccessResponse$/, "$1Response")]. *)
Fixpoint normalizeResponseName (s : string) : string :=
  match match_stem_here s with
  | Some g => g +:+ "Response"
  | None =>
      match s with
      | EmptyString => EmptyString
      | String c r => String c (normalizeResponseName r)
      end
  end.

(** ** Values, objects and errors *)

Definition LF : string := String "010"%char EmptyString.

(** JSON values: the schemas handed over by the converters and the OpenAPI
    documents built from them.  Property order is the order of the list. *)
Inductive json : Type :=
| JNull
| JBool (b : bool)
| JNum (n : Z)
| JStr (s : string)
| JArr (items : list json)
| JObj (props : list (string * json)).

(** [o[k]] on a dictionary. *)
Fixpoint obj_get {A} (k : string) (o : list (string * A)) : option A :=
  match o with
  | [] => None
  | (k', v) :: r => if String.eqb k' k then Some v else obj_get k r
  end.

(** [o[k] = v]: an existing property keeps its place, a new one goes last. *)
Fixpoint obj_set {A} (k : string) (v : A) (o : list (string * A)) : list (string * A) :=
  match o with
  | [] => [(k, v)]
  | (k', v') :: r => if String.eqb k' k then (k', v) :: r else (k', v') :: obj_set k v r
  end.

(** [Object.keys(o)]. *)
Definition obj_keys {A} (o : list (string * A)) : list string := o.*1.

(** [j.k] where [j] is not [null]; [undefined] is [None]. *)
Definition member (k : string) (j : json) : option json :=
  match j with
  | JObj props => obj_get k props
  | _ => None
  end.

(** JavaScript truthiness, as [||] tests it. *)
Definition truthy (j : json) : bool :=
  match j with
  | JNull => false
  | JBool b => b
  | JNum n => negb (n =? 0)%Z
  | JStr s => negb (String.eqb s "")
  | JArr _ | JObj _ => true
  end.

(** [v || ""]. *)
Definition or_empty (v : option json) : json :=
  match v with
  | Some d => if truthy d then d else JStr ""
  | None => JStr ""
  end.

(** The throw sites of the script, one constructor each, and the errors
    of the collaborators (documentation parser, OpenAPI converter, HTTP
    client).  [Unfollowed] is no error of the script: it ends a run of the
    model at a step that the model does not follow, where the script goes
    on: a write to an object of the runtime that the whole program shares
    ([Object], [Object.prototype], a built-in method), after which no
    later step need be what its text says. *)
Inductive Error : Type :=
| FunctionNotFound (functionName filePath : string)
| RequestTypeNotFound (filePath : string)
| NotReturningPromise (functionName filePath : string)
| CannotExtractResponseType (filePath : string)
| ResponseTypeNotFound (filePath : string)
| SectionNotFound
| ListFailed (status : nat) (body : string)
| DeleteFailed (slug : string) (status : nat) (body : string)
| UploadFailed (isUpdate : bool) (slug : string) (status : nat) (body : string)
| TypeError (what : string)
| CollaboratorError (what : string)
| Unfollowed (what : string).

(** The text of the thrown [Error]. *)
Definition message (e : Error) : string :=
  match e with
  | FunctionNotFound fn path => "Function " +:+ fn +:+ " not found in " +:+ path
  | RequestTypeNotFound path => "Request type name not found in " +:+ path
  | NotReturningPromise fn path => "Function " +:+ fn +:+ " does not return Promise in " +:+ path
  | CannotExtractResponseType path => "Cannot extract response type from Promise in " +:+ path
  | ResponseTypeNotFound path => "Response type name not found in " +:+ path
  | SectionNotFound => "Section ## API not found in SUMMARY.md"
  | ListFailed status body =>
      "Failed to list GitBook specs (" +:+ pretty status +:+ "): " +:+ body
  | DeleteFailed slug status body =>
      "Delete failed for " +:+ slug +:+ " (" +:+ pretty status +:+ "): " +:+ body
  | UploadFailed isUpdate slug status body =>
      (if isUpdate then "Update" else "Upload") +:+ " failed for " +:+ slug
        +:+ " (" +:+ pretty status +:+ "): " +:+ body
  | TypeError what => what
  | CollaboratorError what => what
  | Unfollowed what => what
  end.

(** The error kinds of the specification (section 7), by throw site. *)
Inductive ErrorKind : Type :=
| NotFoundError
| InvalidReturnTypeError
| SectionNotFoundError
| RemoteAPIError
| OtherError
| NotAnError.

Definition kind_of (e : Error) : ErrorKind :=
  match e with
  | FunctionNotFound _ _ | RequestTypeNotFound _ | ResponseTypeNotFound _ => NotFoundError
  | NotReturningPromise _ _ | CannotExtractResponseType _ => InvalidReturnTypeError
  | SectionNotFound => SectionNotFoundError
  | ListFailed _ _ | DeleteFailed _ _ _ | UploadFailed _ _ _ _ => RemoteAPIError
  | TypeError _ | CollaboratorError _ => OtherError
  | Unfollowed _ => NotAnError
  end.

(** A computation that returns or throws. *)
Inductive Result (A : Type) : Type :=
| Ok (a : A)
| Throw (e : Error).
Arguments Ok {A} a.
Arguments Throw {A} e.

Definition bind {A B} (m : Result A) (k : A → Result B) : Result B :=
  match m with
  | Ok a => k a
  | Throw e => Throw e
  end.

Notation "'do' x <- m ; k" := (bind m (fun x => k))
  (at level 10, x name, m at level 100, k at level 200).

(** [for (const x of l) s = body(s, x)], stopping at the first throw. *)
Fixpoint for_each {S A} (body : S → A → Result S) (l : list A) (s : S) : Result S :=
  match l with
  | [] => Ok s
  | x :: r => do s' <- body s x; for_each body r s'
  end.

(** [function replaceFirstCharToUpperCase(str)], the same in both
    revisions. *)
Definition replaceFirstCharToUpperCase (str : string) : string :=
  JS.toUpperCase (JS.charAt 0 str) +:+ JS.slice_from 1 str.

(** One entry of [AllSchemas]: [{ request, response }]. *)
Module Schema.
Record pair : Type := { request : json; response : json }.
End Schema.

(** [AllSchemas] and [OpenAPISpecs]: endpoint, then method. *)
Abbreviation AllSchemas := (list (string * list (string * Schema.pair))).
Abbreviation OpenAPISpecs := (list (string * list (string * json))).

(** ** Schemas extraction: what both revisions share *)

(** The clients of the SDK, as [getAllMethodsFromClient] instantiates
    them. *)
Inductive Client : Type :=
| InfoClient
| ExchangeClient
| SubscriptionClient.

(** [function getAllMethodsFromClient(endpoint)].  [prototype] lists the own
    property names of the prototype of a client, each with whether
    [typeof client[name] === "function"]. *)
Definition getAllMethodsFromClient (prototype : Client → list (string * bool))
    (endpoint : string) : list string :=
  (* Create appropriate client instance to extract method names *)
  let client :=
    if String.eqb endpoint "info" then InfoClient
    else if String.eqb endpoint "exchange" then ExchangeClient
    else SubscriptionClient in
  (* Extract method names from client prototype, excluding constructor *)
  map fst
    (List.filter (fun '((name, isFunction) : string * bool) =>
                    negb (String.eqb name "constructor") && isFunction)
                 (prototype client)).

(** [delete o[k]]. *)
Fixpoint obj_delete {A} (k : string) (o : list (string * A)) : list (string * A) :=
  match o with
  | [] => []
  | (k', v) :: r => if String.eqb k' k then obj_delete k r else (k', v) :: obj_delete k r
  end.

(** The configuration handed to [toJsonSchema].  The hook [overrideSchema]
    changes the JSON Schema of its context in place and returns
    [undefined]; it is given as the function from the schema it finds to
    the schema it leaves.  The operator [in] throws on a value that is not
    an object. *)
Record ConversionConfig : Type :=
  { errorMode : string; typeMode : string; overrideSchema : json → Result json }.

Definition toJsonConfig : ConversionConfig :=
  {| errorMode := "ignore";
     typeMode := "output";
     overrideSchema := fun jsonSchema =>
       match jsonSchema with
       | JObj props =>
           match obj_get "default" props with
           | Some _ => Ok (JObj (obj_delete "default" props))
           | None => Ok jsonSchema
           end
       | JArr _ => Ok jsonSchema
       | _ => Throw (TypeError "Cannot use 'in' operator to search for 'default'")
       end |}.

(** ** Revision [src/unnamed/part_000] *)

Module Part000.

(** The documentation nodes of [@deno/doc], as far as the script reads
    them: the node's name and kind, the tags of its JSDoc, and for a
    function its declared return type. *)
Inductive TsTypeDef : Type :=
| TsTypeRef (typeName : string) (typeParams : option (list TsTypeDef))
| TsOtherType (kind : string).

Record JsDocTag : Type := { tag_kind : string; tag_doc : option string }.

Record FunctionDef : Type := { returnType : option TsTypeDef }.

(** A node of kind "function", or a node of another kind. *)
Inductive DocNode : Type :=
| DocFunction (name : string) (tags : option (list JsDocTag)) (functionDef : FunctionDef)
| DocOther (kind : string) (name : string) (tags : option (list JsDocTag)).

Definition node_name (node : DocNode) : string :=
  match node with
  | DocFunction name _ _ => name
  | DocOther _ name _ => name
  end.

(** [node.kind === "function"]. *)
Definition is_function (node : DocNode) : bool :=
  match node with
  | DocFunction _ _ _ => true
  | DocOther _ _ _ => false
  end.

(** [docNodes.find((node) => node.name === name)]. *)
Definition find_named (name : string) (docNodes : list DocNode) : option DocNode :=
  List.find (fun node => String.eqb (node_name node) name) docNodes.

Record FunctionSchema : Type :=
  { request : string; response : string; example : option string }.

(** [async function extractFunctionSchema(filePath, functionName, endpoint)].
    [doc] is the documentation parser: the nodes it returns for a URL, or
    its failure. *)
Definition extractFunctionSchema (doc : string → Result (list DocNode))
    (filePath functionName endpoint : string) : Result FunctionSchema :=
  let url := "https://raw.githubusercontent.com/nktkas/hyperliquid/main/src" +:+ filePath in
  do docNodes <- doc url;
  (* Find the function node *)
  match List.find (fun node => String.eqb (node_name node) functionName && is_function node)
                  docNodes with
  | Some (DocFunction _ tags functionDef) =>
      (* Extract @example from JSDoc *)
      let exampleTag :=
        match tags with
        | Some ts => List.find (fun tag => String.eqb (tag_kind tag) "example") ts
        | None => None
        end in
      let example := match exampleTag with Some tag => tag_doc tag | None => None end in
      (* Find schema *)
      let functionNameUpperCase := replaceFirstCharToUpperCase functionName in
      let endpointUpperCase := replaceFirstCharToUpperCase endpoint in
      (* Find request schema by name *)
      let requestNode := find_named (functionNameUpperCase +:+ "Request") docNodes in
      let requestNode :=
        match requestNode with
        | Some node => Some node
        | None => find_named (functionNameUpperCase +:+ endpointUpperCase +:+ "Request") docNodes
        end in
      match requestNode with
      | None => Throw (RequestTypeNotFound filePath)
      | Some requestNode =>
          (* Find response schema by name *)
          let responseNode := find_named (functionNameUpperCase +:+ "Response") docNodes in
          let responseNode :=
            match responseNode with
            | Some node => Some node
            | None =>
                find_named (functionNameUpperCase +:+ endpointUpperCase +:+ "Response") docNodes
            end in
          do responseNode <-
            match responseNode with
            | Some node => Ok (Some node)
            | None =>
                (* try extract from function return type *)
                match returnType functionDef with
                | Some (TsTypeRef typeName typeParams) =>
                    if String.eqb typeName "Promise" then
                      match typeParams with
                      | Some (TsTypeRef responseTypeName _ :: _) =>
                          if String.eqb responseTypeName ""
                          then Throw (ResponseTypeNotFound filePath)
                          else Ok (find_named responseTypeName docNodes)
                      | _ => Throw (CannotExtractResponseType filePath)
                      end
                    else Throw (NotReturningPromise functionName filePath)
                | _ => Throw (NotReturningPromise functionName filePath)
                end
            end;
          match responseNode with
          | None => Throw (ResponseTypeNotFound filePath)
          | Some responseNode =>
              (* Extract scheme names from nodes *)
              Ok {| request := node_name requestNode;
                    response := normalizeResponseName (node_name responseNode);
                    example := example |}
          end
      end
  | _ => Throw (FunctionNotFound functionName filePath)
  end.

(** The OpenAPI document of one method (the object literal [spec]). *)
Definition spec (endpoint method : string) (requestDescription responseDescription : json)
    (openapiRequest openapiResponse : json) : json :=
  JObj [
    ("openapi", JStr "3.1.1");
    ("info", JObj [
      ("title", JStr ("Hyperliquid API - " +:+ endpoint +:+ "/" +:+ method));
      ("version", JStr "1.0.0") ]);
    ("servers", JArr [
      JObj [ ("url", JStr "https://api.hyperliquid.xyz"); ("description", JStr "Mainnet") ];
      JObj [ ("url", JStr "https://api.hyperliquid-testnet.xyz");
             ("description", JStr "Testnet") ] ]);
    ("tags", JArr [
      JObj [ ("name", JStr method); ("x-page-title", JStr method);
             ("x-page-slug", JStr method) ] ]);
    ("paths", JObj [
      ("/" +:+ endpoint, JObj [
        ("post", JObj [
          ("tags", JArr [ JStr method ]);
          ("description", requestDescription);
          ("requestBody", JObj [
            ("content", JObj [ ("application/json", JObj [ ("schema", openapiRequest) ]) ]);
            ("required", JBool true) ]);
          ("responses", JObj (
            [ ("200", JObj [
                ("description", responseDescription);
                ("content", JObj [ ("application/json",
                                    JObj [ ("schema", openapiResponse) ]) ]) ]);
              ("422", JObj [
                ("description",
                 JStr "Failed to deserialize the JSON body into the target type");
                ("content", JObj [ ("text/plain",
                                    JObj [ ("schema", JObj [ ("type", JStr "string") ]) ]) ]) ])
            ] ++
            (if String.eqb endpoint "info"
             then [ ("500", JObj [
                      ("description", JStr "Internal Server Error");
                      ("content", JObj [ ("application/json",
                                JObj [ ("schema", JObj [ ("type", JStr "null") ]) ]) ]) ]) ]
             else []))) ]) ]) ]) ].

(** [async function jsonSchemasToOpenAPIs(schemas)]; [convert] is the
    JSON-Schema-to-OpenAPI converter. *)
Definition jsonSchemasToOpenAPIs (convert : json → Result json) (schemas : AllSchemas)
    : Result OpenAPISpecs :=
  let result0 : OpenAPISpecs := [ ("info", []); ("exchange", []) ] in
  for_each (fun result '(endpoint, methods) =>
    for_each (fun result '(method, schema) =>
      let request := Schema.request schema in
      let response := Schema.response schema in
      do openapiRequest <- convert request;
      do openapiResponse <- convert response;
      do requestDescription <-
        match request with
        | JNull => Throw (TypeError "Cannot read properties of null (reading 'description')")
        | _ => Ok (or_empty (member "description" request))
        end;
      let responseDescription := or_empty (member "description" response) in
      let spec := spec endpoint method requestDescription responseDescription
                       openapiRequest openapiResponse in
      (* result[endpoint][method] = spec *)
      match obj_get endpoint result with
      | Some specs => Ok (obj_set endpoint (obj_set method spec specs) result)
      | None =>
          if JS.inherited endpoint
          then Throw (Unfollowed "write to a member of Object.prototype")
          else Throw (TypeError "Cannot set properties of undefined")
      end) methods result) schemas result0.

(** [async function getAllSchemas()].  [hlInfo] and [hlExchange] are the
    exports of the two API modules of the SDK, [V] the type of its schemas
    and [toJsonSchema] the converter, handed what the lookup in the module
    gives. *)
Definition getAllSchemas {V : Type} (prototype : Client → list (string * bool))
    (doc : string → Result (list DocNode)) (hlInfo hlExchange : list (string * V))
    (toJsonSchema : ConversionConfig → option V → Result json) : Result AllSchemas :=
  (* Configurations *)
  let endpoints := [ "info"; "exchange" ] in
  let skippedMethods := [ "multiSig" ] in
  let results : AllSchemas := [ ("info", []); ("exchange", []) ] in
  (* Iterate over each endpoint *)
  for_each (fun results endpoint =>
    (* Extract methods for the SDK client *)
    let methods := getAllMethodsFromClient prototype endpoint in
    (* Iterate over each method *)
    for_each (fun results method =>
      (* Skip specified methods *)
      if existsb (String.eqb method) skippedMethods then Ok results
      else
        (* Extracting schema names from SDK source code *)
        let filePath := "/api/" +:+ endpoint +:+ "/" +:+ method +:+ ".ts" in
        do functionInfo <- extractFunctionSchema doc filePath method endpoint;
        (* Get schemas from imported SDK *)
        let api := if String.eqb endpoint "info" then hlInfo else hlExchange in
        (* Convert valibot schemas to JSON Schemas *)
        let RequestVSchemas := obj_get (request functionInfo) api in
        do RequestJSchema <- toJsonSchema toJsonConfig RequestVSchemas;
        let ResponseVSchemas := obj_get (response functionInfo) api in
        do ResponseJSchema <- toJsonSchema toJsonConfig ResponseVSchemas;
        match obj_get endpoint results with
        | Some schemas =>
            Ok (obj_set endpoint
                  (obj_set method {| Schema.request := RequestJSchema;
                                     Schema.response := ResponseJSchema |} schemas)
                  results)
        | None => Throw (TypeError "Cannot set properties of undefined")
        end) methods results) endpoints results.

End Part000.

(** ** Revision [src/update.ts] *)

Module UpdateTs.

(** [getAllSchemas] of this revision looks the two schemas of a method up
    under the names built from the method name alone. *)
Definition schemaNames (method : string) : string * string :=
  let upperMethod := replaceFirstCharToUpperCase method in
  (upperMethod +:+ "Request", upperMethod +:+ "Response").

(** The OpenAPI document of one method (the object literal [spec]). *)
Definition spec (endpoint method : string) (requestDescription responseDescription : json)
    (openapiRequest openapiResponse : json) : json :=
  JObj [
    ("openapi", JStr "3.1.1");
    ("info", JObj [
      ("title", JStr ("Hyperliquid API - " +:+ endpoint +:+ "/" +:+ method));
      ("version", JStr "1.0.0") ]);
    ("servers", JArr [
      JObj [ ("url", JStr "https://api.hyperliquid.xyz"); ("description", JStr "Mainnet") ];
      JObj [ ("url", JStr "https://api.hyperliquid-testnet.xyz");
             ("description", JStr "Testnet") ] ]);
    ("tags", JArr [
      JObj [ ("name", JStr method); ("x-page-title", JStr method);
             ("x-page-slug", JStr method) ] ]);
    ("paths", JObj [
      ("/" +:+ endpoint, JObj [
        ("post", JObj [
          ("tags", JArr [ JStr method ]);
          ("description", requestDescription);
          ("requestBody", JObj [
            ("content", JObj [ ("application/json", JObj [ ("schema", openapiRequest) ]) ]);
            ("required", JBool true) ]);
          ("responses", JObj (
            [ ("200", JObj [
                ("description", responseDescription);
                ("content", JObj [ ("application/json",
                                    JObj [ ("schema", openapiResponse) ]) ]) ]);
              ("422", JObj [
                ("description",
                 JStr "Failed to deserialize the JSON body into the target type");
                ("content", JObj [ ("text/plain",
                                    JObj [ ("schema", JObj [ ("type", JStr "string") ]) ]) ]) ])
            ] ++
            (if String.eqb endpoint "info"
             then [ ("500", JObj [
                      ("description", JStr "Internal Server Error");
                      ("content", JObj [ ("application/json",
                                JObj [ ("schema", JObj [ ("type", JStr "null") ]) ]) ]) ]) ]
             else []))) ]) ]) ]) ].

(** [async function jsonSchemasToOpenAPIs(schemas)]; [convert] is the
    JSON-Schema-to-OpenAPI converter. *)
Definition jsonSchemasToOpenAPIs (convert : json → Result json) (schemas : AllSchemas)
    : Result OpenAPISpecs :=
  let result0 : OpenAPISpecs := [ ("info", []); ("exchange", []) ] in
  for_each (fun result '(endpoint, methods) =>
    for_each (fun result '(method, schema) =>
      let request := Schema.request schema in
      let response := Schema.response schema in
      do openapiRequest <- convert request;
      do openapiResponse <- convert response;
      do requestDescription <-
        match request with
        | JNull => Throw (TypeError "Cannot read properties of null (reading 'description')")
        | _ => Ok (or_empty (member "description" request))
        end;
      let responseDescription := or_empty (member "description" response) in
      let spec := spec endpoint method requestDescription responseDescription
                       openapiRequest openapiResponse in
      (* result[endpoint][method] = spec *)
      match obj_get endpoint result with
      | Some specs => Ok (obj_set endpoint (obj_set method spec specs) result)
      | None =>
          if JS.inherited endpoint
          then Throw (Unfollowed "write to a member of Object.prototype")
          else Throw (TypeError "Cannot set properties of undefined")
      end) methods result) schemas result0.

(** [function getAllSchemas()] of this revision. *)
Definition getAllSchemas {V : Type} (prototype : Client → list (string * bool))
    (hlInfo hlExchange : list (string * V))
    (toJsonSchema : ConversionConfig → option V → Result json) : Result AllSchemas :=
  (* Configurations *)
  let endpoints := [ "info"; "exchange" ] in
  let skippedMethods := [ "multiSig" ] in
  (* Iterate over each endpoint *)
  let results : AllSchemas := [ ("info", []); ("exchange", []) ] in
  for_each (fun results endpoint =>
    (* Select appropriate API module *)
    let api := if String.eqb endpoint "info" then hlInfo else hlExchange in
    (* Extract methods for the SDK client *)
    let methods := getAllMethodsFromClient prototype endpoint in
    (* Iterate over each method *)
    for_each (fun results method =>
      (* Skip specified methods *)
      if existsb (String.eqb method) skippedMethods then Ok results
      else
        (* Convert valibot schemas to JSON Schemas *)
        let upperMethod := replaceFirstCharToUpperCase method in
        let RequestVSchemas := obj_get (upperMethod +:+ "Request") api in
        do RequestJSchema <- toJsonSchema toJsonConfig RequestVSchemas;
        let ResponseVSchemas := obj_get (upperMethod +:+ "Response") api in
        do ResponseJSchema <- toJsonSchema toJsonConfig ResponseVSchemas;
        match obj_get endpoint results with
        | Some schemas =>
            Ok (obj_set endpoint
                  (obj_set method {| Schema.request := RequestJSchema;
                                     Schema.response := ResponseJSchema |} schemas)
                  results)
        | None => Throw (TypeError "Cannot set properties of undefined")
        end) methods results) endpoints results.

End UpdateTs.

(** ** Table of contents: [updateSummary] (the same text in both revisions) *)

(** The lines pushed for one method. *)
Definition method_lines (section method : string) : list string :=
  [ "  - ```yaml";
    "    type: builtin:openapi";
    "    props:";
    "      models: false";
    "      downloadLink: false";
    "    dependencies:";
    "      spec:";
    "        ref:";
    "          kind: openapi";
    "          spec: hl-" +:+ section +:+ "-" +:+ method;
    "    ```" ].

(** The lines pushed by one turn of the loop over the sections. *)
Definition section_lines (openapiSpecs : OpenAPISpecs) (section : string) : list string :=
  let methods := JS.sort (obj_keys (default [] (obj_get section openapiSpecs))) in
  match methods with
  | [] => []
  | _ :: _ =>
      [ "- " +:+ JS.toUpperCase (JS.charAt 0 section) +:+ JS.slice_from 1 section ]
        ++ concat (method_lines section <$> methods)
        ++ [ "" ]
  end.

(** The array [lines] when the loops are over. *)
Definition summary_lines (openapiSpecs : OpenAPISpecs) : list string :=
  [ "## API"; "" ]
    ++ concat (section_lines openapiSpecs <$> JS.sort (obj_keys openapiSpecs))
    ++ [ "" ].

(** Find ## API section boundaries: [prefix], the text before the header,
    and [suffix], the text from the next top-level header on. *)
Definition sectionBoundaries (summary : string) : Result (string * string) :=
  let apiHeader := "## API" in
  match JS.indexOf apiHeader summary with
  | None => Throw SectionNotFound
  | Some start =>
      let nextHeaderIndex :=
        JS.indexOf_from (LF +:+ "## ") summary (start + String.length apiHeader) in
      let prefix := JS.slice_to start summary in
      let suffix :=
        match nextHeaderIndex with
        | None => ""
        | Some i => JS.slice_from i summary
        end in
      Ok (prefix, suffix)
  end.

(** [async function updateSummary(openapiSpecs)] as a function from the
    text read from SUMMARY.md to the text written back. *)
Definition updateSummary (openapiSpecs : OpenAPISpecs) (summary : string) : Result string :=
  bind (sectionBoundaries summary) (fun '(prefix, suffix) =>
    (* Build API section content *)
    let lines := summary_lines openapiSpecs in
    Ok (JS.trimEnd (prefix +:+ JS.join LF lines +:+ suffix) +:+ LF)).

(** ** Publisher: [updateGitBookOpenAPIs] (the same text in both revisions) *)

(** The HTTP requests of the script.  The headers (bearer token, content
    type) are the same on every request and are not recorded. *)
Inductive Request : Type :=
| GET_list (orgId : string) (limit : nat) (page : option string)
| DELETE (orgId slug : string)
| PUT (orgId slug : string) (body : string).

(** The body of a listing: the slugs of [items] and [next?.page]. *)
Record ListData : Type := { items : list string; next : option string }.

(** What [await fetch(...)] and the reading of the body come to: a
    response that is [ok], with its JSON body; a response with a status
    outside 2xx, with its text; or an exception of the runtime, when
    [fetch] rejects, when [json()] or [text()] does, or when the body of a
    listing has no [items] to spread. *)
Inductive Response : Type :=
| RespOk (data : ListData)
| RespError (status : nat) (body : string)
| RespBroken (what : string).

(** The ways in which a request fails: the service turns it down, with a
    status and a body; or the exchange breaks, with the exception [what]
    of the runtime, after the service carried the request out ([applied])
    or before. *)
Inductive Fault : Type :=
| Refused (status : nat) (body : string)
| Broken (applied : bool) (what : string).

(** The collection of one organisation on the documentation host, by slug,
    and the requests received so far. *)
Record World : Type := { remote : gmap string string; log : list Request }.

(** The cursor the service hands out for page [k]: a token the script only
    tests for emptiness and sends back; in the model, [k] letters. *)
Fixpoint cursor_of (k : nat) : string :=
  match k with
  | O => EmptyString
  | S k' => String "p"%char (cursor_of k')
  end.

(** Modelled from the spec: the remote documentation-hosting REST API
    (section 6), which is a service and not code of the repository.  A
    listing returns the slugs of the collection [limit] at a time and a
    cursor while more remain; DELETE removes the entry of the slug; PUT
    creates the entry or replaces its content. *)
Definition serve (r : Request) (store : gmap string string) : Response * gmap string string :=
  match r with
  | GET_list _ limit page =>
      let k := match page with Some c => String.length c | None => 0 end in
      let rest := drop (k * limit) (map_to_list store).*1 in
      (RespOk {| items := take limit rest;
                 next := if limit <? length rest then Some (cursor_of (S k)) else None |},
       store)
  | DELETE _ slug => (RespOk {| items := []; next := None |}, delete slug store)
  | PUT _ slug body => (RespOk {| items := []; next := None |}, <[slug := body]> store)
  end.

(** [await fetch(...)] and, where the script reads it, the body of the
    response.  [faults] decides, from the requests so far and the request
    at hand, whether the request fails and how; a request turned down
    changes nothing. *)
Definition fetch (faults : list Request → Request → option Fault)
    (r : Request) (w : World) : Response * World :=
  match faults (log w) r with
  | Some (Refused status body) =>
      (RespError status body, {| remote := remote w; log := log w ++ [r] |})
  | Some (Broken applied what) =>
      (RespBroken what,
       {| remote := if applied then (serve r (remote w)).2 else remote w;
          log := log w ++ [r] |})
  | None =>
      let '(res, store) := serve r (remote w) in
      (res, {| remote := store; log := log w ++ [r] |})
  end.

(** What a run comes to: it returns, it throws, or the model's fuel for the
    [do ... while] loop is spent. *)
Inductive Outcome (A : Type) : Type :=
| Returned (a : A) (w : World)
| Raised (e : Error) (w : World)
| OutOfFuel.
Arguments Returned {A} a w.
Arguments Raised {A} e w.
Arguments OutOfFuel {A}.

Definition and_then {A B} (m : Outcome A) (k : A → World → Outcome B) : Outcome B :=
  match m with
  | Returned a w => k a w
  | Raised e w => Raised e w
  | OutOfFuel => OutOfFuel
  end.

Record LocalSpec : Type := { slug : string; text : string }.

(** [url.searchParams.set("limit", "1000")]. *)
Definition page_size : nat := 1000.

(** The [do { ... } while (nextPage)] loop that fetches the listing. *)
Fixpoint listRemoteSpecs (faults : list Request → Request → option Fault)
    (orgId : string) (fuel : nat) (nextPage : option string) (allRemoteSpecs : list string)
    (w : World) : Outcome (list string) :=
  match fuel with
  | O => OutOfFuel
  | S fuel' =>
      (* if (nextPage) url.searchParams.set("page", nextPage) *)
      let page :=
        match nextPage with
        | Some c => if String.eqb c "" then None else Some c
        | None => None
        end in
      let '(listRes, w') := fetch faults (GET_list orgId page_size page) w in
      match listRes with
      | RespBroken what => Raised (CollaboratorError what) w'
      | RespError status body => Raised (ListFailed status body) w'
      | RespOk data =>
          let allRemoteSpecs := allRemoteSpecs ++ items data in
          match next data with
          | Some c =>
              if String.eqb c "" then Returned allRemoteSpecs w'
              else listRemoteSpecs faults orgId fuel' (Some c) allRemoteSpecs w'
          | None => Returned allRemoteSpecs w'
          end
      end
  end.

(** The loop [for (const slug of remoteSlugs)] that deletes obsolete specs. *)
Fixpoint deleteObsolete (faults : list Request → Request → option Fault)
    (orgId : string) (localSlugs : gset string) (remoteSlugs : list string) (w : World)
    : Outcome unit :=
  match remoteSlugs with
  | [] => Returned tt w
  | slug :: rest =>
      if bool_decide (slug ∈ localSlugs) then deleteObsolete faults orgId localSlugs rest w
      else
        let '(delRes, w') := fetch faults (DELETE orgId slug) w in
        match delRes with
        | RespBroken what => Raised (CollaboratorError what) w'
        | RespError status body => Raised (DeleteFailed slug status body) w'
        | RespOk _ => deleteObsolete faults orgId localSlugs rest w'
        end
  end.

(** The loop [for (const { slug, text } of specs)] that uploads the specs. *)
Fixpoint uploadSpecs (stringify : json → string)
    (faults : list Request → Request → option Fault)
    (orgId : string) (remoteSlugs : list string) (specs : list LocalSpec) (w : World)
    : Outcome unit :=
  match specs with
  | [] => Returned tt w
  | {| slug := slug; text := text |} :: rest =>
      let isUpdate := bool_decide (slug ∈ remoteSlugs) in
      let body := stringify (JObj [ ("source", JObj [ ("text", JStr text) ]) ]) in
      let '(res, w') := fetch faults (PUT orgId slug body) w in
      match res with
      | RespBroken what => Raised (CollaboratorError what) w'
      | RespError status body => Raised (UploadFailed isUpdate slug status body) w'
      | RespOk _ => uploadSpecs stringify faults orgId remoteSlugs rest w'
      end
  end.

(** Collect local specs with slugs. *)
Definition localSpecs (stringify : json → string) (localeCompare : string → string → Z)
    (openapiSpecs : OpenAPISpecs) : list LocalSpec :=
  JS.sort_by (fun a b => (localeCompare (slug a) (slug b) <? 0)%Z)
    (flat_map (fun '((section, methods) : string * list (string * json)) =>
                 map (fun '((name, spec) : string * json) =>
                        {| slug := "hl-" +:+ section +:+ "-" +:+ name;
                           text := stringify spec |})
                     methods)
              openapiSpecs).

(** [async function updateGitBookOpenAPIs(openapiSpecs, gitbookToken, orgId)].
    [stringify] is [JSON.stringify] and [localeCompare] the collation of the
    runtime. *)
Definition updateGitBookOpenAPIs (stringify : json → string)
    (localeCompare : string → string → Z)
    (faults : list Request → Request → option Fault) (fuel : nat)
    (openapiSpecs : OpenAPISpecs) (gitbookToken orgId : string) (w : World) : Outcome unit :=
  let specs := localSpecs stringify localeCompare openapiSpecs in
  match specs with
  | [] => Returned tt w
  | _ :: _ =>
      let localSlugs : gset string := list_to_set (slug <$> specs) in
      (* Fetch existing GitBook OpenAPI specs with pagination *)
      and_then (listRemoteSpecs faults orgId fuel None [] w) (fun allRemoteSpecs w =>
      let remoteSlugs := List.filter (JS.startsWith "hl-") allRemoteSpecs in
      (* Delete obsolete specs *)
      and_then (deleteObsolete faults orgId localSlugs remoteSlugs w) (fun _ w =>
      (* Upload/update specs *)
      uploadSpecs stringify faults orgId remoteSlugs specs w))
  end.

(** ** Main: the block under [if (import.meta.main)] *)

(** What the run works on: SUMMARY.md, when the file is there, and the
    documentation host. *)
Record System : Type := { summaryFile : option string; world : World }.

(** The errors of the main block: its own throw site and the errors of the
    phases. *)
Inductive MainError : Type :=
| ConfigurationMissing
| Aborted (e : Error).

(** What a run of the main block comes to: it completes, it fails, or the
    model stops following it (the fuel of the listing loop is spent, or a
    phase ends in [Unfollowed]). *)
Inductive MainOutcome : Type :=
| Completed (sys : System)
| Failed (e : MainError) (sys : System)
| MainOutOfFuel
| MainUnfollowed.

(** A phase of the main block has thrown [e]. *)
Definition thrown (e : Error) (sys : System) : MainOutcome :=
  match e with
  | Unfollowed _ => MainUnfollowed
  | _ => Failed (Aborted e) sys
  end.

(** The main block.  [getAllSchemas] is the call [getAllSchemas()] of the
    revision, the only place where the two main blocks differ;
    [GITBOOK_TOKEN] and [GITBOOK_ORG_ID] are what [Deno.env.get] returns. *)
Definition main (getAllSchemas : Result AllSchemas) (convert : json → Result json)
    (stringify : json → string) (localeCompare : string → string → Z)
    (faults : list Request → Request → option Fault) (fuel : nat)
    (GITBOOK_TOKEN GITBOOK_ORG_ID : option string) (sys : System) : MainOutcome :=
  match GITBOOK_TOKEN, GITBOOK_ORG_ID with
  | Some token, Some orgId =>
      if String.eqb token "" || String.eqb orgId "" then Failed ConfigurationMissing sys
      else
        match getAllSchemas with
        | Throw e => thrown e sys
        | Ok schemas =>
            match UpdateTs.jsonSchemasToOpenAPIs convert schemas with
            | Throw e => thrown e sys
            | Ok openapiSpecs =>
                (* await updateSummary(openapiSpecs) *)
                match summaryFile sys with
                | None => Failed (Aborted (CollaboratorError "NotFound: SUMMARY.md")) sys
                | Some summary =>
                    match updateSummary openapiSpecs summary with
                    | Throw e => thrown e sys
                    | Ok written =>
                        (* await updateGitBookOpenAPIs(openapiSpecs, ...) *)
                        match updateGitBookOpenAPIs stringify localeCompare faults fuel
                                openapiSpecs token orgId (world sys) with
                        | Returned _ w =>
                            Completed {| summaryFile := Some written; world := w |}
                        | Raised e w =>
                            thrown e {| summaryFile := Some written; world := w |}
                        | OutOfFuel => MainOutOfFuel
                        end
                    end
                end
            end
        end
  | _, _ => Failed ConfigurationMissing sys
  end.

(** ** Observations and sample inputs *)

(** The status codes under [paths./{endpoint}.post.responses] of an OpenAPI
    document, in property order. *)
Definition response_codes (endpoint : string) (doc : json) : option (list string) :=
  match member "paths" doc with
  | Some paths =>
      match member ("/" +:+ endpoint) paths with
      | Some path =>
          match member "post" path with
          | Some post =>
              match member "responses" post with
              | Some (JObj responses) => Some (obj_keys responses)
              | _ => None
              end
          | None => None
          end
      | None => None
      end
  | None => None
  end.

(** The operation [paths./{endpoint}.post] of an OpenAPI document. *)
Definition post_of (endpoint : string) (doc : json) : option json :=
  match member "paths" doc with
  | Some paths =>
      match member ("/" +:+ endpoint) paths with
      | Some path => member "post" path
      | None => None
      end
  | None => None
  end.

(** A name without a line terminator, as every identifier is. *)
Fixpoint single_line (s : string) : bool :=
  match s with
  | EmptyString => true
  | String c r => negb (JS.is_line_terminator c) && single_line r
  end.

(** The slugs that carry the reserved prefix. *)
Definition reserved (slugs : gset string) : gset string :=
  filter (fun s => Is_true (JS.startsWith "hl-" s)) slugs.

(** The local slug set of a document map. *)
Definition localSlugSet (openapiSpecs : OpenAPISpecs) : gset string :=
  list_to_set
    (flat_map (fun '((section, methods) : string * list (string * json)) =>
                 map (fun '((name, _) : string * json) => "hl-" +:+ section +:+ "-" +:+ name)
                     methods)
              openapiSpecs).

(** The slugs of the DELETE requests among [calls], in the order issued. *)
Definition deleted_slugs (calls : list Request) : list string :=
  flat_map (fun r => match r with DELETE _ slug => [slug] | _ => [] end) calls.

(** The world a run leaves, when it returns or throws. *)
Definition final_world {A} (o : Outcome A) : option World :=
  match o with
  | Returned _ w => Some w
  | Raised _ w => Some w
  | OutOfFuel => None
  end.

(** Whether the service, after the requests [l], serves each of [calls] in
    turn. *)
Fixpoint served (faults : list Request → Request → option Fault)
    (l calls : list Request) : bool :=
  match calls with
  | [] => true
  | r :: rest =>
      match faults l r with
      | None => served faults (l ++ [r]) rest
      | Some _ => false
      end
  end.

(** The status and the body that the error of a failed request carries. *)
Definition http_detail (e : Error) : option (nat * string) :=
  match e with
  | ListFailed status body | DeleteFailed _ status body | UploadFailed _ _ status body =>
      Some (status, body)
  | _ => None
  end.

(** Whether the error [e] is the one thrown for the request [r]. *)
Definition blames (e : Error) (r : Request) : bool :=
  match e, r with
  | ListFailed _ _, GET_list _ _ _ => true
  | DeleteFailed slug _ _, DELETE _ slug' => String.eqb slug slug'
  | UploadFailed _ slug _ _, PUT _ slug' _ => String.eqb slug slug'
  | _, _ => false
  end.

(** What a phase that starts in [w] does with the service: when it returns,
    every request it sent was served; when it throws, the last request it
    sent has failed and every request before it was served; for a request
    turned down the error carries the status and the body of the refusal
    and names the request, for an exchange that broke the error is the
    exception of the runtime. *)
Definition reported {A} (faults : list Request → Request → option Fault)
    (w : World) (o : Outcome A) : Prop :=
  match o with
  | Returned _ w' => ∃ calls, log w' = log w ++ calls ∧ served faults (log w) calls = true
  | Raised e w' =>
      ∃ calls r,
        log w' = log w ++ calls ++ [r]
        ∧ served faults (log w) calls = true
        ∧ match faults (log w ++ calls) r with
          | Some (Refused status body) =>
              http_detail e = Some (status, body) ∧ blames e r = true
          | Some (Broken _ what) => e = CollaboratorError what
          | None => False
          end
  | OutOfFuel => True
  end.

(** A phase that keeps the entries of the slugs in [P], whatever way it
    ends. *)
Definition keeps {A} (P : string → Prop) (w : World) (o : Outcome A) : Prop :=
  match final_world o with
  | Some w' => ∀ s, P s → remote w' !! s = remote w !! s
  | None => True
  end.

(** A listing request of the organisation, a thousand slugs a page. *)
Definition is_listing (orgId : string) (r : Request) : bool :=
  match r with
  | GET_list org limit _ => String.eqb org orgId && (limit =? 1000)
  | _ => false
  end.

(** The reserved slugs of a remote collection that the local slug set does
    not have, in the order of the listing. *)
Definition obsolete_slugs (openapiSpecs : OpenAPISpecs) (store : gmap string string)
    : list string :=
  List.filter (fun s => negb (bool_decide (s ∈ localSlugSet openapiSpecs)))
    (List.filter (JS.startsWith "hl-") (map_to_list store).*1).

(** The upload of one local spec. *)
Definition put_request (stringify : json → string) (orgId : string) (spec : LocalSpec)
    : Request :=
  PUT orgId (slug spec) (stringify (JObj [ ("source", JObj [ ("text", JStr (text spec)) ]) ])).

(** The collection after the obsolete entries went and the local specs
    were stored, one after the other. *)
Definition reconciled (stringify : json → string) (obsolete : list string)
    (specs : list LocalSpec) (store : gmap string string) : gmap string string :=
  foldl (fun st spec =>
           <[ slug spec := stringify (JObj [ ("source", JObj [ ("text", JStr (text spec)) ]) ]) ]>
             st)
        (foldl (fun st s => delete s st) store obsolete) specs.

(** The system a run of the main block leaves, when it ends. *)
Definition final_system (o : MainOutcome) : option System :=
  match o with
  | Completed sys => Some sys
  | Failed _ sys => Some sys
  | MainOutOfFuel | MainUnfollowed => None
  end.

(** A service that never turns a request down. *)
Definition no_faults : list Request → Request → option Fault :=
  fun _ _ => None.

(** A collation: code-unit order. *)
Definition code_unit_compare (a b : string) : Z :=
  match String.compare a b with
  | Lt => -1
  | Eq => 0
  | Gt => 1
  end.

(** A document map with two methods, and one with none. *)
Definition sample_specs : OpenAPISpecs :=
  [ ("info", [ ("meta", JObj [ ("openapi", JStr "3.1.1") ]);
               ("allMids", JObj [ ("openapi", JStr "3.1.1") ]) ]);
    ("exchange", []) ].

Definition empty_specs : OpenAPISpecs := [ ("info", []); ("exchange", []) ].

(** A remote collection with one entry to update, one orphan and one entry
    outside the reserved prefix. *)
Definition sample_world : World :=
  {| remote := <[ "hl-info-allMids" := "old" ]>
                 (<[ "hl-info-obsoleteOp" := "stale" ]>
                    (<[ "welcome" := "page" ]> ∅));
     log := [] |}.

(** No endpoint or method name holds a line break followed by the marker of
    a top-level header. *)
Definition plain_names (openapiSpecs : OpenAPISpecs) : bool :=
  forallb (fun '((section, methods) : string * list (string * json)) =>
             negb (JS.includes (LF +:+ "## ") section)
             && forallb (fun '((method, _) : string * json) =>
                           negb (JS.includes (LF +:+ "## ") method)) methods)
          openapiSpecs.

(** A table of contents with a title, the section and a section after it. *)
Definition sample_summary : string :=
  "# Table of contents" +:+ LF +:+ LF +:+ "## API" +:+ LF +:+ LF +:+ "- stale" +:+ LF
    +:+ LF +:+ "## Guides  " +:+ LF +:+ "* [Intro](intro.md)" +:+ LF +:+ "  " +:+ LF.



(** A table of contents whose section is followed by a header without a
    title. *)
Definition untitled_summary : string := "## API" +:+ LF +:+ "## ".

(** A document map with a method whose name runs over two lines. *)
Definition two_line_specs : OpenAPISpecs :=
  [ ("info", [ ("x" +:+ LF +:+ "## y", JNull) ]); ("exchange", []) ].

(** A schema map with one method in each category. *)
Definition sample_schemas : AllSchemas :=
  [ ("info", [ ("allMids",
               {| Schema.request := JObj [ ("type", JStr "object");
                                           ("description", JStr "Request mid prices") ];
                  Schema.response := JObj [ ("type", JStr "object") ] |}) ]);
    ("exchange", [ ("order",
                   {| Schema.request := JObj [ ("type", JStr "object") ];
                      Schema.response := JBool true |}) ]) ].


(** A symbol table whose function returns [Promise<CancelSuccessResponse,
    unknown>] and whose response type is declared under that name only. *)
Definition cancel_nodes : list Part000.DocNode :=
  [ Part000.DocOther "typeAlias" "CancelRequest" None;
    Part000.DocOther "typeAlias" "CancelSuccessResponse" None;
    Part000.DocFunction "cancel" None
      {| Part000.returnType :=
           Some (Part000.TsTypeRef "Promise"
                   (Some [ Part000.TsTypeRef "CancelSuccessResponse" None;
                           Part000.TsOtherType "keyword" ])) |} ].

(** A symbol table that declares the name [cancel] as a variable and no
    function. *)
Definition shadowed_nodes : list Part000.DocNode :=
  [ Part000.DocOther "variable" "cancel" None;
    Part000.DocOther "typeAlias" "CancelRequest" None;
    Part000.DocOther "typeAlias" "CancelResponse" None ].

(** A symbol table with the function [allMids] and both schemas under the
    names of the first pattern. *)
Definition allMids_nodes : list Part000.DocNode :=
  [ Part000.DocOther "typeAlias" "AllMidsRequest" None;
    Part000.DocOther "typeAlias" "AllMidsResponse" None;
    Part000.DocFunction "allMids" None
      {| Part000.returnType :=
           Some (Part000.TsTypeRef "Promise"
                   (Some [ Part000.TsTypeRef "AllMidsResponse" None ])) |} ].

(** Prototypes with one method for the category [info] and two for the
    category [exchange], one of them the skipped one. *)
Definition sample_prototype (client : Client) : list (string * bool) :=
  match client with
  | InfoClient => [ ("constructor", true); ("allMids", true) ]
  | ExchangeClient => [ ("constructor", true); ("cancel", true); ("multiSig", true) ]
  | SubscriptionClient => [ ("constructor", true) ]
  end.

(** A documentation parser that knows the files of the two methods. *)
Definition sample_doc (url : string) : Result (list Part000.DocNode) :=
  if String.eqb url
       "https://raw.githubusercontent.com/nktkas/hyperliquid/main/src/api/info/allMids.ts"
  then Ok allMids_nodes
  else if String.eqb url
       "https://raw.githubusercontent.com/nktkas/hyperliquid/main/src/api/exchange/cancel.ts"
  then Ok cancel_nodes
  else Throw (CollaboratorError "NotFound").

(** A parser that fails on every file. *)
Definition failing_doc (url : string) : Result (list Part000.DocNode) :=
  Throw (CollaboratorError "NotFound").

(** API modules whose schemas are JSON values already, and a converter that
    runs the hook of the configuration on the schema it is given. *)
Definition sample_hlInfo : list (string * json) :=
  [ ("AllMidsRequest", JObj [ ("type", JStr "object"); ("default", JNull) ]);
    ("AllMidsResponse", JObj [ ("type", JStr "object") ]) ].

Definition sample_hlExchange : list (string * json) :=
  [ ("CancelRequest", JObj [ ("type", JStr "object") ]);
    ("CancelResponse", JObj [ ("type", JStr "object") ]) ].

Definition sample_toJsonSchema (config : ConversionConfig) (schema : option json)
    : Result json :=
  match schema with
  | Some j => overrideSchema config j
  | None => Throw (CollaboratorError "toJsonSchema: no schema")
  end.

(** A schema map with a method under a category that is neither info nor
    exchange. *)
Definition stray_schemas : AllSchemas :=
  [ ("info", []);
    ("subscriptions", [ ("trades",
                        {| Schema.request := JObj [ ("type", JStr "object") ];
                           Schema.response := JObj [ ("type", JStr "array") ] |}) ]) ].

(** The document map [sample_specs] with its categories and its methods
    listed the other way round. *)
Definition permuted_specs : OpenAPISpecs :=
  [ ("exchange", []);
    ("info", [ ("allMids", JObj [ ("openapi", JStr "3.1.1") ]);
               ("meta", JObj [ ("openapi", JStr "3.1.1") ]) ]) ].

(** A service that turns every DELETE down. *)
Definition delete_refused : list Request → Request → option Fault :=
  fun _ r =>
    match r with
    | DELETE _ _ => Some (Refused 403 "Forbidden")
    | _ => None
    end.

(** A system with the sample table of contents and the sample remote
    collection. *)
Definition sample_system : System :=
  {| summaryFile := Some sample_summary; world := sample_world |}.

(** ** Predicates of the proofs *)

(** Every document stored under an endpoint was built by [spec] for that
    endpoint. *)
Definition built_by_spec (result : OpenAPISpecs) : Prop :=
  ∀ endpoint specs method doc,
    obj_get endpoint result = Some specs → obj_get method specs = Some doc →
    ∃ rd sd rq rs, doc = Part000.spec endpoint method rd sd rq rs.

(** The methods stored for a client are the functions of its prototype
    other than the constructor and the skipped method. *)
Definition holds_methods {B} (prototype : Client → list (string * bool)) (client : Client)
    (schemas : list (string * B)) : Prop :=
  ∀ method, In method (obj_keys schemas)
            ↔ In (method, true) (prototype client)
              ∧ method ≠ "constructor" ∧ method ≠ "multiSig".

(** A description as [||] leaves it: the empty string, or a value that
    counts as true. *)
Definition defaulted (d : json) : Prop := d = JStr "" ∨ truthy d = true.

(** Every document stored under an endpoint and a method was built by
    [spec] for them, with defaulted descriptions. *)
Definition described_by_spec (result : OpenAPISpecs) : Prop :=
  ∀ endpoint specs method doc,
    obj_get endpoint result = Some specs → obj_get method specs = Some doc →
    ∃ rd sd rq rs, doc = Part000.spec endpoint method rd sd rq rs
                   ∧ defaulted rd ∧ defaulted sd.

(** Every line followed by a line feed. *)
Definition unlines (ls : list string) : string :=
  foldr (fun l acc => l +:+ LF +:+ acc) "" ls.

(** A line that neither holds the marker of a top-level header (a line
    feed and [## ]) nor begins like one. *)
Definition good_line (l : string) : Prop :=
  JS.indexOf (String "010"%char "## ") l = None ∧ JS.startsWith "## " l = false.

(** A text in which the search for the marker finds nothing, whatever
    follows it, as long as that does not begin with [## ]. *)
Definition safe_text (t : string) : Prop :=
  ∀ X, JS.startsWith "## " X = false →
       JS.startsWith "## " (t +:+ X) = false
       ∧ JS.indexOf (String "010"%char "## ") (t +:+ X)
         = (fun j => String.length t + j) <$> JS.indexOf (String "010"%char "## ") X.

(** * Properties *)

#[local] Arguments String.append !_ _ / : simpl nomatch.
#[local] Arguments String.eqb : simpl never.

(** ** Strings *)

Section StringFacts.

Implicit Types s p u v : string.

Lemma str_app_nil_r s : s +:+ "" = s.
Proof. induction s as [|c s IH]; simpl; [done | by rewrite IH]. Qed.

Lemma str_app_assoc s u v : (s +:+ u) +:+ v = s +:+ u +:+ v.
Proof. induction s as [|c s IH]; simpl; [done | by rewrite IH]. Qed.

Lemma str_app_cons c s u : String c s +:+ u = String c (s +:+ u).
Proof. done. Qed.

Lemma str_length_app s u : String.length (s +:+ u) = String.length s + String.length u.
Proof. induction s as [|c s IH]; simpl; [done | by rewrite IH]. Qed.

Lemma str_app_eq_length s s' u u' :
  String.length s = String.length s' → s +:+ u = s' +:+ u' → s = s' ∧ u = u'.
Proof.
  revert s'; induction s as [|c s IH]; intros [|c' s']; simpl; try done.
  intros [= Hl] [= -> Heq]. destruct (IH _ Hl Heq) as [-> ->]. done.
Qed.

Lemma str_app_inv_tail s u v : s +:+ v = u +:+ v → s = u.
Proof.
  intros H. apply (str_app_eq_length s u v v); [|done].
  apply (f_equal String.length) in H. rewrite !str_length_app in H. lia.
Qed.

Lemma endsWith_intro p u : JS.endsWith p (u +:+ p) = true.
Proof.
  induction u as [|c u IH].
  - destruct p; [done|]. cbn [String.append JS.endsWith]. by rewrite String.eqb_refl.
  - rewrite str_app_cons. cbn [JS.endsWith]. rewrite IH. by destruct (String.eqb _ _).
Qed.

Lemma endsWith_elim p s : JS.endsWith p s = true → ∃ u, s = u +:+ p.
Proof.
  induction s as [|c s IH]; cbn [JS.endsWith].
  - destruct (String.eqb_spec "" p) as [<-|]; [by exists "" | done].
  - destruct (String.eqb_spec (String c s) p) as [<-|].
    + by exists "".
    + intros [u ->]%IH. by exists (String c u).
Qed.

End StringFacts.

(** ** Response-name normalisation *)

Section Normalisation.

Example normalize_order : normalizeResponseName "OrderSuccessResponse" = "OrderResponse".
Proof. reflexivity. Qed.

Example normalize_multiline :
  normalizeResponseName (String "010" "SuccessResponse") = String "010" "SuccessResponse".
Proof. reflexivity. Qed.

Lemma match_stem_here_Some s g :
  match_stem_here s = Some g → g ≠ "" ∧ s = g +:+ "SuccessResponse".
Proof.
  revert g; induction s as [|c s IH]; intros g; simpl; [done|].
  destruct (JS.is_line_terminator c); [done|].
  destruct (match_stem_here s) as [g'|].
  - intros [= <-]. destruct (IH g' eq_refl) as [_ ->]. done.
  - destruct (String.eqb_spec s "SuccessResponse") as [->|]; [|done].
    by intros [= <-].
Qed.

(** Either the name is left alone, or a non-empty stem stood before the
    suffix and is all that is kept. *)
Lemma normalizeResponseName_cases s :
  normalizeResponseName s = s ∨
  ∃ stem, stem ≠ "" ∧ s = stem +:+ "SuccessResponse"
          ∧ normalizeResponseName s = stem +:+ "Response".
Proof.
  induction s as [|c s IH]; [by left|].
  cbn [normalizeResponseName].
  destruct (match_stem_here (String c s)) as [g|] eqn:Hm.
  - right. exists g. by destruct (match_stem_here_Some _ _ Hm).
  - destruct IH as [->|(stem & _ & -> & ->)]; [by left|].
    right. by exists (String c stem).
Qed.

Lemma normalizeResponseName_fixed s :
  JS.endsWith "SuccessResponse" s = false → normalizeResponseName s = s.
Proof.
  intros H. destruct (normalizeResponseName_cases s) as [|(stem & _ & -> & _)]; [done|].
  by rewrite endsWith_intro in H.
Qed.

(** C3, as stated, fails: a name with the suffix doubled is rewritten
    twice. *)
Lemma normalizeResponseName_not_idempotent :
  ¬ ∀ s, normalizeResponseName (normalizeResponseName s) = normalizeResponseName s.
Proof. intros H. by specialize (H "ASuccessSuccessResponse"). Qed.

(** C3 (amended): on every name that does not end in
    [SuccessSuccessResponse], normalising the normalised name leaves it as
    it is. *)
Theorem normalizeResponseName_idempotent s :
  JS.endsWith "SuccessSuccessResponse" s = false →
  normalizeResponseName (normalizeResponseName s) = normalizeResponseName s.
Proof.
  intros Hs.
  destruct (normalizeResponseName_cases s) as [H|(stem & _ & -> & ->)];
    [by rewrite !H|].
  destruct (normalizeResponseName_cases (stem +:+ "Response"))
    as [|(stem' & _ & Heq & _)]; [done|].
  exfalso.
  change "SuccessResponse" with ("Success" +:+ "Response") in Heq.
  rewrite <-str_app_assoc in Heq. apply str_app_inv_tail in Heq as ->.
  rewrite str_app_assoc in Hs.
  change ("Success" +:+ "SuccessResponse") with "SuccessSuccessResponse" in Hs.
  by rewrite endsWith_intro in Hs.
Qed.

Lemma normalizeResponseName_idempotent_witness :
  normalizeResponseName (normalizeResponseName "PlaceOrderResponse") = "PlaceOrderResponse"
  ∧ normalizeResponseName (normalizeResponseName "OrderSuccessResponse") = "OrderResponse".
Proof.
  split.
  - exact (normalizeResponseName_idempotent "PlaceOrderResponse" eq_refl).
  - exact (normalizeResponseName_idempotent "OrderSuccessResponse" eq_refl).
Defined.

(** C10: the name [SuccessResponse] itself is returned unchanged, and a
    name is rewritten only when a non-empty stem stands before the
    suffix. *)
Theorem normalizeResponseName_needs_stem :
  normalizeResponseName "SuccessResponse" = "SuccessResponse"
  ∧ normalizeResponseName "SuccessResponse" ≠ "Response"
  ∧ ∀ s, normalizeResponseName s = s
         ∨ ∃ stem, stem ≠ "" ∧ s = stem +:+ "SuccessResponse"
                   ∧ normalizeResponseName s = stem +:+ "Response".
Proof. split; [done|]. split; [done|]. apply normalizeResponseName_cases. Qed.

End Normalisation.

(** ** Schema Resolver ([extractFunctionSchema], part_000) *)

Section Resolver.

Import Part000.

Variable doc : string → Result (list DocNode).
Variables filePath functionName endpoint : string.
Variable docNodes : list DocNode.

Hypothesis doc_nodes :
  doc ("https://raw.githubusercontent.com/nktkas/hyperliquid/main/src" +:+ filePath)
  = Ok docNodes.

Local Abbreviation Fn := (replaceFirstCharToUpperCase functionName).
Local Abbreviation Ep := (replaceFirstCharToUpperCase endpoint).
Local Abbreviation run := (extractFunctionSchema doc filePath functionName endpoint).

Lemma find_named_Some name node :
  find_named name docNodes = Some node → node_name node = name ∧ In node docNodes.
Proof.
  intros H. apply List.find_some in H as [Hin Heq].
  by apply String.eqb_eq in Heq.
Qed.

Ltac enter :=
  unfold extractFunctionSchema; rewrite doc_nodes; cbn [bind].

Local Abbreviation found_function name tags functionDef :=
  (List.find (fun node => String.eqb (node_name node) functionName && is_function node)
             docNodes = Some (DocFunction name tags functionDef)).



(** C5 (amended): when neither conventional response name is in the symbol
    table, a run that returns has found a return type [Promise] whose
    first type argument is a named type present in the table, and returns
    the resolved request name together with that type's name, a trailing
    [SuccessResponse] normalised; such a return type always makes the run
    return; any other return type makes it throw an invalid-return-type
    error, and a named type that is empty or missing a not-found error. *)
Theorem response_resolution name tags functionDef :
  found_function name tags functionDef →
  find_named (Fn +:+ "Request") docNodes ≠ None
    ∨ find_named (Fn +:+ Ep +:+ "Request") docNodes ≠ None →
  find_named (Fn +:+ "Response") docNodes = None →
  find_named (Fn +:+ Ep +:+ "Response") docNodes = None →
  (∀ r, run = Ok r →
     ∃ T params more,
       returnType functionDef = Some (TsTypeRef "Promise" (Some (TsTypeRef T params :: more)))
       ∧ T ≠ "" ∧ find_named T docNodes ≠ None
       ∧ response r = normalizeResponseName T
       ∧ (request r = Fn +:+ "Request" ∨ request r = Fn +:+ Ep +:+ "Request"))
  ∧ (∀ T params more,
       returnType functionDef = Some (TsTypeRef "Promise" (Some (TsTypeRef T params :: more))) →
       T ≠ "" → find_named T docNodes ≠ None →
       ∃ r, run = Ok r ∧ response r = normalizeResponseName T)
  ∧ ((∀ params, returnType functionDef ≠ Some (TsTypeRef "Promise" params)) →
       run = Throw (NotReturningPromise functionName filePath))
  ∧ (∀ params, returnType functionDef = Some (TsTypeRef "Promise" params) →
       (∀ T ps more, params ≠ Some (TsTypeRef T ps :: more)) →
       run = Throw (CannotExtractResponseType filePath))
  ∧ (∀ T ps more,
       returnType functionDef = Some (TsTypeRef "Promise" (Some (TsTypeRef T ps :: more))) →
       T = "" ∨ find_named T docNodes = None →
       run = Throw (ResponseTypeNotFound filePath))
  ∧ kind_of (NotReturningPromise functionName filePath) = InvalidReturnTypeError
  ∧ kind_of (CannotExtractResponseType filePath) = InvalidReturnTypeError
  ∧ kind_of (ResponseTypeNotFound filePath) = NotFoundError.
Proof.
  intros Hfn Hrq Hrs1 Hrs2.
  assert (∃ rq, match find_named (Fn +:+ "Request") docNodes with
                | Some node => Some node
                | None => find_named (Fn +:+ Ep +:+ "Request") docNodes
                end = Some rq
                ∧ (node_name rq = Fn +:+ "Request"
                   ∨ node_name rq = Fn +:+ Ep +:+ "Request")) as (rq & Erq & Hname).
  { destruct (find_named (Fn +:+ "Request") docNodes) as [n|] eqn:E1.
    - exists n. split; [done|]. left. by apply find_named_Some in E1 as [? _].
    - destruct (find_named (Fn +:+ Ep +:+ "Request") docNodes) as [n|] eqn:E2.
      + exists n. split; [done|]. right. by apply find_named_Some in E2 as [? _].
      + by destruct Hrq. }
  repeat split.
  - intros r. enter. rewrite Hfn, Erq, Hrs1, Hrs2.
    destruct (returnType functionDef) as [[typeName typeParams|k]|]; [|done..].
    destruct (String.eqb_spec typeName "Promise") as [->|]; [|done].
    destruct typeParams as [[|[T ps|k] more]|]; [done| |done..].
    destruct (String.eqb_spec T "") as [|HT]; [done|]. cbn [bind].
    destruct (find_named T docNodes) as [rs|] eqn:Ers; [|done].
    intros [= <-]. exists T, ps, more. cbn.
    destruct (find_named_Some _ _ Ers) as [-> _]. rewrite Ers. by repeat split.
  - intros T ps more Hret HT Hfound. enter. rewrite Hfn, Erq, Hrs1, Hrs2, Hret.
    cbn. destruct (String.eqb_spec T "") as [|_]; [done|]. cbn [bind].
    destruct (find_named T docNodes) as [rs|] eqn:Ers; [|done].
    eexists. split; [done|]. cbn. by apply find_named_Some in Ers as [-> _].
  - intros Hnot. enter. rewrite Hfn, Erq, Hrs1, Hrs2.
    destruct (returnType functionDef) as [[typeName typeParams|k]|]; [|done..].
    destruct (String.eqb_spec typeName "Promise") as [->|]; [|done].
    by destruct (Hnot typeParams).
  - intros params Hret Hnot. enter. rewrite Hfn, Erq, Hrs1, Hrs2, Hret. cbn.
    destruct params as [[|[T ps|k] more]|]; [done| |done..].
    by destruct (Hnot T ps more).
  - intros T ps more Hret HT. enter. rewrite Hfn, Erq, Hrs1, Hrs2, Hret. cbn.
    destruct (String.eqb_spec T "") as [|Hne]; [done|]. cbn [bind].
    destruct HT as [ | -> ]; done.
Qed.

(** When the symbol table has both names of the first pattern, the resolver
    of part_000 returns the names that update.ts builds from the method
    name, the response name normalised. *)
Lemma direct_names_agree name tags functionDef :
  found_function name tags functionDef →
  find_named (Fn +:+ "Request") docNodes ≠ None →
  find_named (Fn +:+ "Response") docNodes ≠ None →
  ∃ r, run = Ok r
       ∧ request r = (UpdateTs.schemaNames functionName).1
       ∧ response r = normalizeResponseName (UpdateTs.schemaNames functionName).2.
Proof.
  intros Hfn Hrq Hrs. enter. rewrite Hfn. unfold UpdateTs.schemaNames. cbn [fst snd].
  destruct (find_named (Fn +:+ "Request") docNodes) as [rq|] eqn:Erq; [|done].
  destruct (find_named (Fn +:+ "Response") docNodes) as [rs|] eqn:Ers; [|done].
  cbn [bind]. eexists. split; [done|]. cbn [request response].
  destruct (find_named_Some _ _ Erq) as [-> _].
  by destruct (find_named_Some _ _ Ers) as [-> _].
Qed.

End Resolver.


Lemma response_resolution_witness :
  ∃ r, Part000.extractFunctionSchema (fun _ => Ok cancel_nodes) "/api/exchange/cancel.ts"
         "cancel" "exchange" = Ok r
       ∧ Part000.request r = "CancelRequest" ∧ Part000.response r = "CancelResponse".
Proof.
  eexists. split; [reflexivity|].
  destruct (response_resolution (fun _ => Ok cancel_nodes) "/api/exchange/cancel.ts"
              "cancel" "exchange" cancel_nodes eq_refl "cancel" None
              {| Part000.returnType :=
                   Some (Part000.TsTypeRef "Promise"
                           (Some [ Part000.TsTypeRef "CancelSuccessResponse" None;
                                   Part000.TsOtherType "keyword" ])) |})
    as [H _].
  - reflexivity.
  - left. vm_compute. discriminate.
  - reflexivity.
  - reflexivity.
  - destruct (H _ eq_refl) as (T & ps & more & Hret & _ & _ & Hrs & _).
    injection Hret as <- _ _. split; [reflexivity | exact Hrs].
Defined.

(** C5, as stated, fails twice over: the return type need not have exactly
    one type argument, and the name returned is not the type's name when
    that ends in [SuccessResponse]. *)
Lemma response_resolution_not_exactly_one :
  (¬ ∀ doc filePath functionName endpoint docNodes name tags functionDef r,
       doc ("https://raw.githubusercontent.com/nktkas/hyperliquid/main/src" +:+ filePath)
         = Ok docNodes →
       List.find (fun node => String.eqb (Part000.node_name node) functionName
                              && Part000.is_function node) docNodes
         = Some (Part000.DocFunction name tags functionDef) →
       Part000.find_named
         (replaceFirstCharToUpperCase functionName +:+ "Response") docNodes = None →
       Part000.find_named
         (replaceFirstCharToUpperCase functionName +:+ replaceFirstCharToUpperCase endpoint
            +:+ "Response") docNodes = None →
       Part000.extractFunctionSchema doc filePath functionName endpoint = Ok r →
       ∃ T ps, Part000.returnType functionDef
               = Some (Part000.TsTypeRef "Promise" (Some [ Part000.TsTypeRef T ps ])))
  ∧ (¬ ∀ doc filePath functionName endpoint docNodes name tags functionDef r,
       doc ("https://raw.githubusercontent.com/nktkas/hyperliquid/main/src" +:+ filePath)
         = Ok docNodes →
       List.find (fun node => String.eqb (Part000.node_name node) functionName
                              && Part000.is_function node) docNodes
         = Some (Part000.DocFunction name tags functionDef) →
       Part000.find_named
         (replaceFirstCharToUpperCase functionName +:+ "Response") docNodes = None →
       Part000.find_named
         (replaceFirstCharToUpperCase functionName +:+ replaceFirstCharToUpperCase endpoint
            +:+ "Response") docNodes = None →
       Part000.extractFunctionSchema doc filePath functionName endpoint = Ok r →
       ∀ T ps more,
         Part000.returnType functionDef
           = Some (Part000.TsTypeRef "Promise" (Some (Part000.TsTypeRef T ps :: more))) →
         Part000.response r = T).
Proof.
  split.
  - intros H.
    destruct (H (fun _ => Ok cancel_nodes) "/api/exchange/cancel.ts" "cancel" "exchange"
                cancel_nodes _ _ _ _ eq_refl eq_refl eq_refl eq_refl eq_refl)
      as (T & ps & [=]).
  - intros H.
    by specialize (H (fun _ => Ok cancel_nodes) "/api/exchange/cancel.ts" "cancel" "exchange"
                     cancel_nodes _ _ _ _ eq_refl eq_refl eq_refl eq_refl eq_refl
                     _ _ _ eq_refl).
Qed.

(** ** OpenAPI Assembler ([jsonSchemasToOpenAPIs]) *)

Section Objects.

Context {A : Type}.
Implicit Types (o : list (string * A)) (k : string).

Lemma obj_get_set_eq k (v : A) o : obj_get k (obj_set k v o) = Some v.
Proof.
  induction o as [|[k' v'] o IH]; cbn.
  - by rewrite String.eqb_refl.
  - destruct (String.eqb_spec k' k) as [->|Hne]; cbn.
    + by rewrite String.eqb_refl.
    + by destruct (String.eqb_spec k' k).
Qed.

Lemma obj_get_set_ne k k' (v : A) o : k ≠ k' → obj_get k (obj_set k' v o) = obj_get k o.
Proof.
  intros Hne. induction o as [|[k0 v0] o IH]; cbn.
  - destruct (String.eqb_spec k' k); [congruence | done].
  - destruct (String.eqb_spec k0 k') as [->|]; cbn.
    + destruct (String.eqb_spec k' k); [congruence | done].
    + by destruct (String.eqb_spec k0 k).
Qed.

End Objects.

Lemma Ok_inj {A} (a b : A) : Ok a = Ok b → a = b.
Proof. congruence. Qed.

Lemma for_each_invariant {S A} (P : S → Prop) (body : S → A → Result S) l s s' :
  (∀ s x s', P s → body s x = Ok s' → P s') →
  P s → for_each body l s = Ok s' → P s'.
Proof.
  intros Hstep. revert s. induction l as [|x l IH]; intros s Hs; cbn.
  - by intros [= <-].
  - destruct (body s x) as [s1|e] eqn:E; cbn; [|done]. eauto.
Qed.

Section Assembler.

Variable convert : json → Result json.

Lemma built_by_spec_set result endpoint specs method rd sd rq rs :
  built_by_spec result → obj_get endpoint result = Some specs →
  built_by_spec
    (obj_set endpoint (obj_set method (Part000.spec endpoint method rd sd rq rs) specs) result).
Proof.
  intros Hinv Hspecs ep specs' m doc.
  destruct (decide (ep = endpoint)) as [->|Hne].
  - rewrite obj_get_set_eq. intros [= <-].
    destruct (decide (m = method)) as [->|Hm].
    + rewrite obj_get_set_eq. intros [= <-]. eauto.
    + rewrite obj_get_set_ne by done. eauto.
  - rewrite obj_get_set_ne by done. eauto.
Qed.

Lemma jsonSchemasToOpenAPIs_built_by_spec schemas result :
  Part000.jsonSchemasToOpenAPIs convert schemas = Ok result → built_by_spec result.
Proof.
  unfold Part000.jsonSchemasToOpenAPIs.
  apply for_each_invariant.
  - intros acc [endpoint methods] acc' Hacc. apply for_each_invariant; [|done].
    intros acc1 [method schema] acc2 Hacc1. unfold bind.
    destruct (convert (Schema.request schema)) as [rq|e]; [|discriminate].
    destruct (convert (Schema.response schema)) as [rs|e]; [|discriminate].
    destruct (match Schema.request schema with JNull => _ | _ => _ end) as [rd|e];
      [|discriminate].
    destruct (obj_get endpoint acc1) as [specs|] eqn:Hspecs;
      [|by destruct (JS.inherited endpoint)].
    intros [= <-]. by apply built_by_spec_set.
  - intros ep specs m doc. cbn [obj_get].
    destruct (String.eqb "info" ep); [by intros [= <-]|].
    destruct (String.eqb "exchange" ep); [by intros [= <-]|done].
Qed.

(** C6: in an assembled map every document of the "info" category has the
    responses 200, 422 and 500, and every document of the "exchange"
    category has the responses 200 and 422 and no 500. *)
Theorem responses_500_only_for_info schemas result :
  Part000.jsonSchemasToOpenAPIs convert schemas = Ok result →
  (∀ specs method doc,
     obj_get "info" result = Some specs → obj_get method specs = Some doc →
     response_codes "info" doc = Some [ "200"; "422"; "500" ])
  ∧ (∀ specs method doc,
       obj_get "exchange" result = Some specs → obj_get method specs = Some doc →
       response_codes "exchange" doc = Some [ "200"; "422" ]
       ∧ "500" ∉ [ "200"; "422" ]).
Proof.
  intros Hinv%jsonSchemasToOpenAPIs_built_by_spec. split.
  - intros specs method doc Hs Hd.
    by destruct (Hinv _ _ _ _ Hs Hd) as (rd & sd & rq & rs & ->).
  - intros specs method doc Hs Hd.
    destruct (Hinv _ _ _ _ Hs Hd) as (rd & sd & rq & rs & ->).
    split; [done|]. rewrite !elem_of_cons, elem_of_nil. by intros [|[|]].
Qed.

End Assembler.

Lemma responses_500_only_for_info_witness :
  ∃ result info_doc exchange_doc,
    Part000.jsonSchemasToOpenAPIs Ok sample_schemas = Ok result
    ∧ obj_get "info" result ≫= obj_get "allMids" = Some info_doc
    ∧ obj_get "exchange" result ≫= obj_get "order" = Some exchange_doc
    ∧ response_codes "info" info_doc = Some [ "200"; "422"; "500" ]
    ∧ response_codes "exchange" exchange_doc = Some [ "200"; "422" ].
Proof.
  do 3 eexists. split; [reflexivity|].
  split; [reflexivity|]. split; [reflexivity|].
  destruct (responses_500_only_for_info Ok sample_schemas _ eq_refl) as [Hinfo Hexchange].
  split.
  - exact (Hinfo _ "allMids" _ eq_refl eq_refl).
  - exact (proj1 (Hexchange _ "order" _ eq_refl eq_refl)).
Defined.

(** C9: the two revisions assemble the same map from every schema map. *)
Theorem jsonSchemasToOpenAPIs_revisions_agree convert schemas :
  UpdateTs.jsonSchemasToOpenAPIs convert schemas
  = Part000.jsonSchemasToOpenAPIs convert schemas.
Proof.
  unfold UpdateTs.jsonSchemasToOpenAPIs, Part000.jsonSchemasToOpenAPIs.
  assert (Hspec : UpdateTs.spec = Part000.spec) by reflexivity.
  by rewrite Hspec.
Qed.

(** ** Publisher ([updateGitBookOpenAPIs]) *)

#[local] Arguments page_size : simpl never.

Lemma insert_sorted_perm {A} (before : A → A → bool) x l :
  JS.insert_sorted before x l ≡ₚ x :: l.
Proof.
  induction l as [|y l IH]; cbn; [done|].
  destruct (before y x); [|done]. rewrite IH. apply Permutation_swap.
Qed.

Lemma sort_by_perm {A} (before : A → A → bool) (l : list A) : JS.sort_by before l ≡ₚ l.
Proof.
  induction l as [|x l IH]; cbn; [done|].
  rewrite insert_sorted_perm. by constructor.
Qed.

Lemma cursor_of_length k : String.length (cursor_of k) = k.
Proof. induction k as [|k IH]; cbn; [done | by rewrite IH]. Qed.

Lemma localSlugSet_startsWith openapiSpecs s :
  s ∈ localSlugSet openapiSpecs → JS.startsWith "hl-" s = true.
Proof.
  unfold localSlugSet. rewrite elem_of_list_to_set, list_elem_of_In, in_flat_map.
  intros ([section methods] & _ & Hin).
  apply in_map_iff in Hin as ([name spec] & <- & _). reflexivity.
Qed.

Section Publisher.

Variable stringify : json → string.
Variable localeCompare : string → string → Z.
Variable faults : list Request → Request → option Fault.
Variable orgId : string.

Implicit Types (w : World) (localSlugs : gset string).

Local Abbreviation keys w := ((map_to_list (remote w)).*1).
Local Abbreviation page_of nextPage :=
  (match nextPage with Some c => String.length c | None => 0 end).

Lemma localSpecs_slug_set openapiSpecs :
  list_to_set (slug <$> localSpecs stringify localeCompare openapiSpecs)
  =@{gset string} localSlugSet openapiSpecs.
Proof.
  unfold localSpecs, localSlugSet. rewrite sort_by_perm. f_equal.
  induction openapiSpecs as [|[section methods] r IH]; cbn [flat_map]; [done|].
  rewrite fmap_app, IH. f_equal.
  induction methods as [|[name spec] ms IHm]; [done|].
  cbn [map fmap list_fmap slug] in *. by rewrite IHm.
Qed.

Lemma localSpecs_nil openapiSpecs :
  flat_map snd openapiSpecs = [] → localSpecs stringify localeCompare openapiSpecs = [].
Proof.
  unfold localSpecs. intros H.
  assert (flat_map (fun '((section, methods) : string * list (string * json)) =>
                      map (fun '((name, spec) : string * json) =>
                             {| slug := "hl-" +:+ section +:+ "-" +:+ name;
                                text := stringify spec |}) methods) openapiSpecs = []) as ->;
    [|done].
  induction openapiSpecs as [|[section methods] r IH]; cbn in *; [done|].
  apply app_eq_nil in H as [-> Hr]. cbn. by apply IH.
Qed.

(** The listing loop collects the rest of the collection from the page of
    its cursor on, and changes nothing. *)
Lemma listRemoteSpecs_returned fuel nextPage acc w l w' :
  listRemoteSpecs faults orgId fuel nextPage acc w = Returned l w' →
  l = acc ++ drop (page_of nextPage * page_size) (keys w)
  ∧ remote w' = remote w
  ∧ ∃ calls, log w' = log w ++ calls ∧ deleted_slugs calls = [].
Proof.
  revert nextPage acc w. induction fuel as [|fuel IH]; intros nextPage acc w; [done|].
  cbn [listRemoteSpecs]. unfold fetch.
  match goal with |- context [GET_list orgId page_size ?p] => set (page := p) end.
  assert (Hk : page_of page = page_of nextPage).
  { subst page. destruct nextPage as [c|]; [|done].
    by destruct (String.eqb_spec c "") as [->|]. }
  destruct (faults (log w) (GET_list orgId page_size page)) as [[status body|applied what]|]; [done..|].
  cbn [serve items next]. rewrite Hk.
  set (rest := drop _ (keys w)).
  destruct (Nat.ltb_spec page_size (length rest)) as [Hlt|Hge].
  - change (String.eqb (cursor_of (S (page_of nextPage))) "") with false. cbn match.
    intros (-> & Hr & calls & Hlog & Hdel)%IH. cbn in Hr, Hlog.
    split; [|split; [done|]].
    + rewrite cursor_of_length, <-app_assoc. f_equal.
      rewrite Nat.mul_succ_l, <-drop_drop. fold rest. by rewrite take_drop.
    + exists (GET_list orgId page_size page :: calls).
      by rewrite Hlog, <-app_assoc.
  - intros [= <- <-]. cbn. rewrite take_ge by done.
    split; [done|]. split; [done|]. by eexists [_].
Qed.

Lemma listRemoteSpecs_fuel fuel nextPage acc w :
  0 < fuel → length (keys w) - page_of nextPage * page_size ≤ fuel * page_size →
  listRemoteSpecs faults orgId fuel nextPage acc w ≠ OutOfFuel.
Proof.
  revert nextPage acc w. induction fuel as [|fuel IH]; intros nextPage acc w; [lia|].
  intros _ Hfuel. cbn [listRemoteSpecs]. unfold fetch.
  match goal with |- context [GET_list orgId page_size ?p] => set (page := p) end.
  assert (Hk : page_of page = page_of nextPage).
  { subst page. destruct nextPage as [c|]; [|done].
    by destruct (String.eqb_spec c "") as [->|]. }
  destruct (faults (log w) (GET_list orgId page_size page)) as [[status body|applied what]|]; [done..|].
  cbn [serve items next]. rewrite Hk.
  set (rest := drop _ (keys w)).
  assert (length rest = length (keys w) - page_of nextPage * page_size) as Hrest
    by apply length_drop.
  destruct (Nat.ltb_spec page_size (length rest)) as [Hlt|Hge]; [|done].
  change (String.eqb (cursor_of (S (page_of nextPage))) "") with false. cbn match.
  apply IH; cbn [remote]; rewrite ?cursor_of_length; nia.
Qed.

Lemma listRemoteSpecs_no_faults fuel nextPage acc w e w' :
  (∀ l r, faults l r = None) →
  listRemoteSpecs faults orgId fuel nextPage acc w ≠ Raised e w'.
Proof.
  intros Hnone. revert nextPage acc w.
  induction fuel as [|fuel IH]; intros nextPage acc w; [done|].
  cbn [listRemoteSpecs]. unfold fetch. rewrite Hnone. cbn [serve items next].
  destruct (_ <? _); [|done].
  change (String.eqb (cursor_of (S ?k)) "") with false. cbn match. apply IH.
Qed.

Lemma keys_elem_of s w : s ∈ keys w ↔ s ∈ dom (remote w).
Proof.
  rewrite list_elem_of_fmap, elem_of_dom. split.
  - intros ([k v] & -> & H%elem_of_map_to_list). by exists v.
  - intros [v H]. exists (s, v). split; [done|]. by apply elem_of_map_to_list.
Qed.

Lemma deleteObsolete_returned localSlugs remoteSlugs w w' :
  deleteObsolete faults orgId localSlugs remoteSlugs w = Returned tt w' →
  dom (remote w') = dom (remote w) ∖ (list_to_set remoteSlugs ∖ localSlugs)
  ∧ ∃ calls, log w' = log w ++ calls
             ∧ deleted_slugs calls = filter (fun s => s ∉ localSlugs) remoteSlugs.
Proof.
  revert w. induction remoteSlugs as [|s rest IH]; intros w; cbn [deleteObsolete].
  - intros [= <-]. split; [set_solver|]. exists []. by rewrite app_nil_r.
  - case_bool_decide as Hs.
    + intros (-> & calls & -> & Hdel)%IH. split; [set_solver|].
      exists calls. split; [done|]. rewrite filter_cons_False; [done|]. by intros [].
    + unfold fetch.
      destruct (faults (log w) (DELETE orgId s)) as [[status body|applied what]|]; [done..|].
      cbn [serve]. intros (-> & calls & -> & Hdel)%IH. cbn [remote log].
      split.
      * rewrite dom_delete_L. set_solver.
      * exists (DELETE orgId s :: calls). rewrite <-app_assoc. split; [done|].
        rewrite filter_cons_True by done.
        change (deleted_slugs (DELETE orgId s :: calls)) with (s :: deleted_slugs calls).
        by rewrite Hdel.
Qed.

Lemma uploadSpecs_returned remoteSlugs specs w w' :
  uploadSpecs stringify faults orgId remoteSlugs specs w = Returned tt w' →
  dom (remote w') = dom (remote w) ∪ list_to_set (slug <$> specs)
  ∧ ∃ calls, log w' = log w ++ calls ∧ deleted_slugs calls = [].
Proof.
  revert w. induction specs as [|[slug text] rest IH]; intros w; cbn [uploadSpecs].
  - intros [= <-]. split; [set_solver|]. exists []. by rewrite app_nil_r.
  - unfold fetch.
    match goal with |- context [faults ?l ?r] =>
      destruct (faults l r) as [[status body|applied what]|]; [done..|] end.
    cbn [serve]. intros (-> & calls & -> & Hdel)%IH. cbn [remote log].
    split.
    + rewrite dom_insert_L. set_solver.
    + eexists (_ :: calls). rewrite <-app_assoc. split; [done|]. exact Hdel.
Qed.

Lemma deleteObsolete_no_faults localSlugs remoteSlugs w :
  (∀ l r, faults l r = None) →
  ∃ w', deleteObsolete faults orgId localSlugs remoteSlugs w = Returned tt w'.
Proof.
  intros Hnone. revert w.
  induction remoteSlugs as [|s rest IH]; intros w; cbn [deleteObsolete]; [by eexists|].
  case_bool_decide; [apply IH|]. unfold fetch. rewrite Hnone. cbn [serve]. apply IH.
Qed.

Lemma uploadSpecs_no_faults remoteSlugs specs w :
  (∀ l r, faults l r = None) →
  ∃ w', uploadSpecs stringify faults orgId remoteSlugs specs w = Returned tt w'.
Proof.
  intros Hnone. revert w.
  induction specs as [|[slug text] rest IH]; intros w; cbn [uploadSpecs]; [by eexists|].
  unfold fetch. rewrite Hnone. cbn [serve]. apply IH.
Qed.

Lemma deleteObsolete_fuel localSlugs remoteSlugs w :
  deleteObsolete faults orgId localSlugs remoteSlugs w ≠ OutOfFuel.
Proof.
  revert w. induction remoteSlugs as [|s rest IH]; intros w; cbn [deleteObsolete]; [done|].
  case_bool_decide; [apply IH|]. unfold fetch.
  destruct (faults _ _) as [[status body|applied what]|]; [done..|]. cbn [serve]. apply IH.
Qed.

Lemma uploadSpecs_fuel remoteSlugs specs w :
  uploadSpecs stringify faults orgId remoteSlugs specs w ≠ OutOfFuel.
Proof.
  revert w. induction specs as [|[slug text] rest IH]; intros w; cbn [uploadSpecs]; [done|].
  unfold fetch. destruct (faults _ _) as [[status body|applied what]|]; [done..|]. cbn [serve]. apply IH.
Qed.

Lemma localSpecs_not_nil openapiSpecs :
  flat_map snd openapiSpecs ≠ [] → localSpecs stringify localeCompare openapiSpecs ≠ [].
Proof.
  intros Hne Hnil. apply Hne. apply length_zero_iff_nil.
  apply (f_equal length) in Hnil. unfold localSpecs in Hnil.
  rewrite sort_by_perm in Hnil. cbn in Hnil. rewrite <-Hnil. clear.
  induction openapiSpecs as [|[section methods] r IH]; cbn [flat_map]; [done|].
  rewrite !length_app, IH. cbn. by rewrite length_map.
Qed.

(** C2: a document map without any (endpoint, method) entry makes the
    Publisher return at once: the world is the one it started from, no
    request has been issued. *)
Theorem publisher_empty_local_set fuel openapiSpecs gitbookToken w :
  flat_map snd openapiSpecs = [] →
  updateGitBookOpenAPIs stringify localeCompare faults fuel openapiSpecs gitbookToken orgId w
  = Returned tt w.
Proof.
  intros H. unfold updateGitBookOpenAPIs. by rewrite localSpecs_nil.
Qed.

(** C1 (amended): when the document map has at least one entry, a run that
    returns has issued DELETE requests for exactly the remote slugs with the
    reserved prefix that are not local, each once, and leaves a collection
    whose slugs with the reserved prefix are the local ones; with fuel above
    the size of the collection the run does return or throw, and it returns
    when the service turns no request down. *)
Theorem publisher_reconciles fuel openapiSpecs gitbookToken w :
  flat_map snd openapiSpecs ≠ [] →
  (∀ w',
     updateGitBookOpenAPIs stringify localeCompare faults fuel openapiSpecs gitbookToken
       orgId w = Returned tt w' →
     (∃ calls, log w' = log w ++ calls
               ∧ NoDup (deleted_slugs calls)
               ∧ list_to_set (deleted_slugs calls)
                 = reserved (dom (remote w)) ∖ localSlugSet openapiSpecs)
     ∧ reserved (dom (remote w')) = localSlugSet openapiSpecs)
  ∧ (size (remote w) < fuel →
     updateGitBookOpenAPIs stringify localeCompare faults fuel openapiSpecs gitbookToken
       orgId w ≠ OutOfFuel)
  ∧ (size (remote w) < fuel → (∀ l r, faults l r = None) →
     ∃ w', updateGitBookOpenAPIs stringify localeCompare faults fuel openapiSpecs
             gitbookToken orgId w = Returned tt w').
Proof.
  intros Hne%localSpecs_not_nil. unfold updateGitBookOpenAPIs.
  pose proof (localSpecs_slug_set openapiSpecs) as HL.
  pose proof (localSlugSet_startsWith openapiSpecs) as Hpre.
  destruct (localSpecs stringify localeCompare openapiSpecs) as [|spec0 specs0]; [done|].
  set (specs := spec0 :: specs0) in *. clearbody specs. clear Hne spec0 specs0.
  rewrite HL. set (L := localSlugSet openapiSpecs) in *. clearbody L.
  assert (Hfuel : size (remote w) < fuel →
            listRemoteSpecs faults orgId fuel None [] w ≠ OutOfFuel).
  { intros Hlt. apply listRemoteSpecs_fuel; [lia|].
    rewrite length_fmap, length_map_to_list.
    assert (0 < page_size) by (unfold page_size; lia). nia. }
  split; [|split].
  - intros w3.
    destruct (listRemoteSpecs faults orgId fuel None [] w) as [all w1| |] eqn:Hlist;
      cbn [and_then]; [|done..].
    apply listRemoteSpecs_returned in Hlist as (-> & Hr1 & calls1 & Hl1 & Hd1).
    cbn [app]. rewrite Nat.mul_0_l, drop_0.
    set (remoteSlugs := List.filter (JS.startsWith "hl-") (keys w)).
    destruct (deleteObsolete faults orgId L remoteSlugs w1) as [[] w2| |] eqn:Hdel;
      cbn [and_then]; [|done..].
    apply deleteObsolete_returned in Hdel as (Hr2 & calls2 & Hl2 & Hd2).
    intros (Hr3 & calls3 & Hl3 & Hd3)%uploadSpecs_returned.
    assert (Hremote : ∀ s, s ∈ remoteSlugs ↔ s ∈ reserved (dom (remote w))).
    { intros s. unfold remoteSlugs, reserved.
      rewrite list_elem_of_In, filter_In, <-list_elem_of_In, keys_elem_of, elem_of_filter.
      rewrite Is_true_true. tauto. }
    split.
    + exists (calls1 ++ calls2 ++ calls3). split; [|split].
      * by rewrite Hl3, Hl2, Hl1, <-!app_assoc.
      * unfold deleted_slugs in *. rewrite !flat_map_app, Hd1, Hd2, Hd3, app_nil_r.
        cbn [app]. apply NoDup_filter. unfold remoteSlugs.
        apply NoDup_ListNoDup, List.NoDup_filter, NoDup_ListNoDup, NoDup_fst_map_to_list.
      * unfold deleted_slugs in *. rewrite !flat_map_app, Hd1, Hd2, Hd3, app_nil_r.
        cbn [app]. apply set_eq. intros s.
        rewrite elem_of_list_to_set, list_elem_of_filter, Hremote. set_solver.
    + rewrite Hr3, Hr2, Hr1, HL. apply set_eq. intros s. unfold reserved at 1.
      rewrite elem_of_filter, elem_of_union, elem_of_difference, elem_of_difference.
      rewrite !elem_of_list_to_set, Hremote. unfold reserved. rewrite elem_of_filter.
      rewrite Is_true_true. specialize (Hpre s).
      destruct (decide (s ∈ L)); tauto.
  - intros Hlt.
    destruct (listRemoteSpecs faults orgId fuel None [] w) as [all w1| |] eqn:Hlist;
      cbn [and_then]; [|done|by destruct (Hfuel Hlt)].
    destruct (deleteObsolete faults orgId L _ w1) as [[] w2| |] eqn:Hdel;
      cbn [and_then]; [|done|by destruct (deleteObsolete_fuel _ _ _ Hdel)].
    apply uploadSpecs_fuel.
  - intros Hlt Hnone.
    destruct (listRemoteSpecs faults orgId fuel None [] w) as [all w1|e w1|] eqn:Hlist;
      cbn [and_then].
    + destruct (deleteObsolete_no_faults L (List.filter (JS.startsWith "hl-") all) w1 Hnone)
        as [w2 ->]. cbn [and_then]. by apply uploadSpecs_no_faults.
    + by destruct (listRemoteSpecs_no_faults _ _ _ _ _ _ Hnone Hlist).
    + by destruct (Hfuel Hlt).
Qed.

End Publisher.

Lemma publisher_empty_local_set_witness :
  updateGitBookOpenAPIs (fun _ => "{}") code_unit_compare no_faults 0 empty_specs
    "token" "org" sample_world
  = Returned tt sample_world.
Proof.
  exact (publisher_empty_local_set (fun _ => "{}") code_unit_compare no_faults "org" 0
           empty_specs "token" sample_world eq_refl).
Defined.

Lemma publisher_reconciles_witness :
  ∃ w', updateGitBookOpenAPIs (fun _ => "{}") code_unit_compare no_faults 4 sample_specs
          "token" "org" sample_world = Returned tt w'
        ∧ reserved (dom (remote w')) = localSlugSet sample_specs
        ∧ ∃ calls, log w' = log sample_world ++ calls
                   ∧ list_to_set (deleted_slugs calls)
                     = reserved (dom (remote sample_world)) ∖ localSlugSet sample_specs.
Proof.
  destruct (publisher_reconciles (fun _ => "{}") code_unit_compare no_faults "org" 4
              sample_specs "token" sample_world) as (Hret & _ & Hrun).
  - discriminate.
  - destruct Hrun as [w' Hw'].
    + vm_compute. lia.
    + reflexivity.
    + exists w'. split; [exact Hw'|].
      destruct (Hret w' Hw') as [(calls & Hlog & _ & Hdel) Hdom].
      split; [exact Hdom|]. exists calls. split; [exact Hlog | exact Hdel].
Defined.

(** C1, as stated for every local set, fails when the local set is empty:
    the run returns at once, the orphan stays and no DELETE is issued. *)
Lemma publisher_keeps_orphans_without_local_specs :
  ¬ ∀ stringify localeCompare faults fuel openapiSpecs gitbookToken orgId w w',
      updateGitBookOpenAPIs stringify localeCompare faults fuel openapiSpecs gitbookToken
        orgId w = Returned tt w' →
      (∃ calls, log w' = log w ++ calls
                ∧ list_to_set (deleted_slugs calls)
                  = reserved (dom (remote w)) ∖ localSlugSet openapiSpecs)
      ∧ reserved (dom (remote w')) = localSlugSet openapiSpecs.
Proof.
  intros H.
  destruct (H (fun _ => "{}") code_unit_compare no_faults 0 empty_specs "token" "org"
              sample_world sample_world eq_refl) as [_ Heq].
  assert ("hl-info-obsoleteOp" ∈ reserved (dom (remote sample_world))) as Hin.
  { apply elem_of_filter. split; [done|]. apply elem_of_dom. by eexists. }
  rewrite Heq in Hin. unfold localSlugSet in Hin.
  rewrite elem_of_list_to_set in Hin. cbn in Hin. by apply elem_of_nil in Hin.
Qed.

(** ** Searching and trimming text *)

Section Search.

Implicit Types (p s t u a b r : string) (c q : ascii).

Lemma indexOf_unfold p s :
  JS.indexOf p s
  = if JS.startsWith p s then Some 0
    else match s with
         | EmptyString => None
         | String _ r => S <$> JS.indexOf p r
         end.
Proof. by destruct s. Qed.

Lemma indexOf_cons p c r :
  JS.indexOf p (String c r)
  = if JS.startsWith p (String c r) then Some 0 else S <$> JS.indexOf p r.
Proof. done. Qed.

Lemma startsWith_app p r : JS.startsWith p (p +:+ r) = true.
Proof.
  induction p as [|q p IH]; [done|].
  rewrite str_app_cons. cbn [JS.startsWith]. by rewrite Ascii.eqb_refl.
Qed.

Lemma startsWith_elim p s : JS.startsWith p s = true → ∃ r, s = p +:+ r.
Proof.
  revert s. induction p as [|q p IH]; intros s; [by exists s|].
  destruct s as [|c s]; cbn [JS.startsWith]; [done|].
  destruct (Ascii.eqb_spec q c) as [->|]; [|done].
  intros [r ->]%IH. by exists r.
Qed.

Lemma startsWith_app_mono p t u :
  JS.startsWith p t = true → JS.startsWith p (t +:+ u) = true.
Proof.
  intros [r ->]%startsWith_elim. rewrite str_app_assoc. apply startsWith_app.
Qed.

(** Only the first [length p] characters matter. *)
Lemma startsWith_app_long p t u :
  String.length p ≤ String.length t → JS.startsWith p (t +:+ u) = JS.startsWith p t.
Proof.
  revert t. induction p as [|q p IH]; intros [|c t]; cbn [String.length]; try done; [lia|].
  intros Hl. rewrite str_app_cons. cbn [JS.startsWith].
  destruct (Ascii.eqb q c); [apply IH; lia | done].
Qed.

(** A character that does not occur in the pattern cannot complete a
    match that has not failed yet. *)
Lemma startsWith_extend p t c u :
  JS.has_char c p = false → JS.startsWith p t = false →
  JS.startsWith p (t +:+ String c u) = false.
Proof.
  revert t. induction p as [|q p IH]; intros t; cbn [JS.has_char JS.startsWith]; [done|].
  intros [Hq Hp]%orb_false_elim. destruct t as [|x t].
  - intros _. cbn [String.append]. by rewrite Ascii.eqb_sym, Hq.
  - rewrite str_app_cons. destruct (Ascii.eqb q x); [by apply IH | done].
Qed.

Lemma startsWith_extend_cons q p x t c u :
  JS.has_char c p = false → JS.startsWith (String q p) (String x t) = false →
  JS.startsWith (String q p) (String x t +:+ String c u) = false.
Proof.
  intros Hp. rewrite str_app_cons. cbn [JS.startsWith].
  destruct (Ascii.eqb q x); [by apply startsWith_extend | done].
Qed.

Lemma slice_to_from n s : JS.slice_to n s +:+ JS.slice_from n s = s.
Proof.
  revert s. induction n as [|n IH]; intros [|c s]; cbn; try done. by rewrite IH.
Qed.

Lemma slice_from_app a b j :
  JS.slice_from (String.length a + j) (a +:+ b) = JS.slice_from j b.
Proof. induction a as [|c a IH]; [done|]. by rewrite str_app_cons. Qed.

Lemma slice_from_0 s : JS.slice_from 0 s = s.
Proof. by destruct s. Qed.

Lemma indexOf_Some p s i :
  JS.indexOf p s = Some i →
  String.length (JS.slice_to i s) = i ∧ JS.startsWith p (JS.slice_from i s) = true.
Proof.
  revert i. induction s as [|c s IH]; intros i; rewrite indexOf_unfold.
  - destruct (JS.startsWith p "") eqn:E; [|done]. by intros [= <-].
  - destruct (JS.startsWith p (String c s)) eqn:E; [by intros [= <-]|].
    destruct (JS.indexOf p s) as [j|]; [|done]. cbn. intros [= <-]. cbn.
    destruct (IH j eq_refl) as [Hl Hs]. by rewrite Hl.
Qed.

Lemma indexOf_from_app p a b :
  JS.indexOf_from p (a +:+ b) (String.length a)
  = (fun j => String.length a + j) <$> JS.indexOf p b.
Proof.
  induction a as [|c a IH].
  - cbn [String.append String.length JS.indexOf_from]. by destruct (JS.indexOf p b).
  - rewrite str_app_cons. cbn [String.length JS.indexOf_from]. rewrite IH.
    by destruct (JS.indexOf p b).
Qed.

(** The first occurrence stays where it is when the text behind it is
    replaced. *)
Lemma indexOf_first_stable p a r r' :
  JS.indexOf p (a +:+ p +:+ r) = Some (String.length a) →
  JS.indexOf p (a +:+ p +:+ r') = Some (String.length a).
Proof.
  induction a as [|c a IH].
  - intros _. cbn [String.append]. by rewrite indexOf_unfold, startsWith_app.
  - assert (E : ∀ u, JS.startsWith p (String c a +:+ p +:+ u)
                     = JS.startsWith p (String c a +:+ p)).
    { intros u. rewrite <-str_app_assoc. apply startsWith_app_long.
      rewrite str_length_app. lia. }
    rewrite !(indexOf_unfold p (String c a +:+ _)), !E.
    destruct (JS.startsWith p (String c a +:+ p)); [done|].
    rewrite !str_app_cons. cbn [String.length].
    destruct (JS.indexOf p (a +:+ p +:+ r)) as [j|] eqn:Ej; [|done].
    intros [= ->]. by rewrite IH.
Qed.

Lemma indexOf_app_None_l p t u : JS.indexOf p (t +:+ u) = None → JS.indexOf p t = None.
Proof.
  induction t as [|c t IH]; intros H.
  - rewrite indexOf_unfold. destruct (JS.startsWith p "") eqn:E; [|done].
    rewrite indexOf_unfold, (startsWith_app_mono _ _ u E) in H. done.
  - rewrite indexOf_cons. destruct (JS.startsWith p (String c t)) eqn:E.
    + rewrite indexOf_unfold, (startsWith_app_mono _ _ u E) in H. done.
    + rewrite str_app_cons, indexOf_cons in H.
      destruct (JS.startsWith p (String c (t +:+ u))); [done|].
      destruct (JS.indexOf p (t +:+ u)); [done|]. by rewrite IH.
Qed.

(** A text without the first character of the pattern is skipped. *)
Lemma indexOf_skip q p a r :
  JS.has_char q a = false →
  JS.indexOf (String q p) (a +:+ r)
  = (fun j => String.length a + j) <$> JS.indexOf (String q p) r.
Proof.
  induction a as [|c a IH]; cbn [JS.has_char].
  - intros _. cbn [String.append String.length]. by destruct (JS.indexOf _ r).
  - intros [Hq Ha]%orb_false_elim. rewrite str_app_cons, indexOf_cons.
    cbn [JS.startsWith]. rewrite Hq, IH by done.
    by destruct (JS.indexOf _ r).
Qed.

(** A text without the pattern, followed by a character that is not in the
    tail of the pattern: the search goes on at that character. *)
Lemma indexOf_app_None q p a c u :
  JS.has_char c p = false → JS.indexOf (String q p) a = None →
  JS.indexOf (String q p) (a +:+ String c u)
  = (fun j => String.length a + j) <$> JS.indexOf (String q p) (String c u).
Proof.
  intros Hc. induction a as [|x a IH].
  - intros _. cbn [String.append String.length]. by destruct (JS.indexOf _ _).
  - rewrite (indexOf_cons _ x a).
    destruct (JS.startsWith (String q p) (String x a)) eqn:E; [done|].
    destruct (JS.indexOf (String q p) a) eqn:Ea; [done|]. intros _.
    rewrite (indexOf_unfold _ (String x a +:+ _)), startsWith_extend_cons by done.
    rewrite str_app_cons, IH by done. cbn [String.length].
    by destruct (JS.indexOf _ (String c u)).
Qed.

Lemma trimEnd_cons c r :
  JS.trimEnd (String c r)
  = match JS.trimEnd r with
    | EmptyString => if JS.is_white_space c then EmptyString else String c EmptyString
    | String _ _ as r' => String c r'
    end.
Proof. done. Qed.

Lemma trimEnd_app_nonblank a b :
  JS.trimEnd b ≠ "" → JS.trimEnd (a +:+ b) = a +:+ JS.trimEnd b.
Proof.
  intros Hb. induction a as [|c a IH]; [done|].
  rewrite !str_app_cons. cbn [JS.trimEnd]. rewrite IH.
  destruct (a +:+ JS.trimEnd b) eqn:E; [|done].
  destruct a; [|done]. by destruct Hb.
Qed.

Lemma trimEnd_app_blank a b : JS.trimEnd b = "" → JS.trimEnd (a +:+ b) = JS.trimEnd a.
Proof.
  intros Hb. induction a as [|c a IH]; [done|].
  rewrite str_app_cons. cbn [JS.trimEnd]. by rewrite IH.
Qed.

Lemma trimEnd_idemp s : JS.trimEnd (JS.trimEnd s) = JS.trimEnd s.
Proof.
  induction s as [|c s IH]; [done|]. cbn [JS.trimEnd].
  destruct (JS.trimEnd s) as [|x t] eqn:E.
  - destruct (JS.is_white_space c) eqn:Hc; [done|]. cbn [JS.trimEnd]. by rewrite Hc.
  - by rewrite trimEnd_cons, IH.
Qed.

(** What [trimEnd] cuts off is blank. *)
Lemma trimEnd_split s : ∃ ws, s = JS.trimEnd s +:+ ws ∧ JS.trimEnd ws = "".
Proof.
  induction s as [|c s (ws & E & Hws)]; [by exists ""|]. cbn [JS.trimEnd].
  destruct (JS.trimEnd s) as [|x t] eqn:Et.
  - cbn [String.append] in E. subst ws. destruct (JS.is_white_space c) eqn:Hc.
    + exists (String c s). split; [done|]. cbn [JS.trimEnd]. by rewrite Hws, Hc.
    + exists s. by split.
  - exists ws. split; [|done]. rewrite str_app_cons. by f_equal.
Qed.

Lemma trimEnd_app_l_nonblank a b : JS.trimEnd a ≠ "" → JS.trimEnd (a +:+ b) ≠ "".
Proof.
  induction a as [|c a IH]; [done|]. rewrite str_app_cons. cbn [JS.trimEnd].
  destruct (JS.trimEnd a) as [|x t] eqn:Ea.
  - destruct (JS.is_white_space c) eqn:Hc; [done|]. intros _.
    by destruct (JS.trimEnd (a +:+ b)).
  - intros _. destruct (JS.trimEnd (a +:+ b)) eqn:Eab; [|done].
    by destruct IH.
Qed.



End Search.

(** ** Table-of-Contents Updater ([updateSummary]) *)

Section Summary.

Local Abbreviation header := "## API".
Local Abbreviation marker := (String "010"%char "## ").

Implicit Types (l t X : string) (ls : list string) (openapiSpecs : OpenAPISpecs).

Lemma join_cons sep l l' ls :
  JS.join sep (l :: l' :: ls) = l +:+ sep +:+ JS.join sep (l' :: ls).
Proof. done. Qed.

Lemma join_snoc ls : JS.join LF (ls ++ [""]) = unlines ls.
Proof.
  induction ls as [|l ls IH]; [done|].
  change ((l :: ls) ++ [""]) with (l :: (ls ++ [""])).
  destruct (ls ++ [""]) as [|l' ls'] eqn:E; [by destruct ls|].
  rewrite join_cons, IH. done.
Qed.

Lemma safe_text_nil : safe_text "".
Proof. intros X HX. cbn [String.append String.length]. by destruct (JS.indexOf _ X). Qed.

Lemma safe_text_app t t' : safe_text t → safe_text t' → safe_text (t +:+ t').
Proof.
  intros Ht Ht' X HX. rewrite str_app_assoc.
  destruct (Ht' X HX) as [Hs' Hi']. destruct (Ht _ Hs') as [Hs Hi].
  split; [done|]. rewrite Hi, Hi', str_length_app.
  destruct (JS.indexOf _ X); cbn; [f_equal; lia | done].
Qed.

Lemma safe_text_line l : good_line l → safe_text (l +:+ LF).
Proof.
  intros [Hi Hs] X HX. rewrite str_app_assoc. change (LF +:+ X) with (String "010"%char X).
  split; [by apply startsWith_extend|].
  rewrite indexOf_app_None by done. rewrite indexOf_cons.
  change (JS.startsWith marker (String "010"%char X)) with (JS.startsWith "## " X).
  rewrite HX, str_length_app.
  destruct (JS.indexOf _ X); cbn; [f_equal; lia | done].
Qed.

Lemma safe_text_unlines ls : Forall good_line ls → safe_text (unlines ls).
Proof.
  induction 1 as [|l ls Hl _ IH]; [apply safe_text_nil|].
  cbn [unlines foldr]. fold (unlines ls). rewrite <-str_app_assoc.
  by apply safe_text_app; [apply safe_text_line|].
Qed.

Lemma upper_unit_cases c :
  (∃ c', JS.upper_unit c = String c' "" ∧ Ascii.eqb "010" c' = Ascii.eqb "010" c)
  ∨ (JS.upper_unit c = "SS" ∧ Ascii.eqb "010" c = false).
Proof.
  destruct c as [[] [] [] [] [] [] [] []];
    first [ by right; split; vm_compute
          | left; eexists; split; vm_compute; reflexivity ].
Qed.

Lemma includes_false p s : JS.includes p s = false → JS.indexOf p s = None.
Proof. unfold JS.includes. by destruct (JS.indexOf p s). Qed.

Lemma capitalized_no_marker section :
  JS.indexOf marker section = None →
  JS.indexOf marker (JS.toUpperCase (JS.charAt 0 section) +:+ JS.slice_from 1 section) = None.
Proof.
  destruct section as [|c s]; [done|].
  change (JS.toUpperCase (JS.charAt 0 (String c s)) +:+ JS.slice_from 1 (String c s))
    with ((JS.upper_unit c +:+ "") +:+ s).
  rewrite str_app_nil_r.
  destruct (upper_unit_cases c) as [(c' & -> & Hc')|[-> Hc]].
  - change (String c' "" +:+ s) with (String c' s).
    rewrite !indexOf_cons. cbn [JS.startsWith]. by rewrite Hc'.
  - change ("SS" +:+ s) with (String "S" (String "S" s)).
    rewrite !indexOf_cons. cbn [JS.startsWith]. rewrite Hc.
    change (Ascii.eqb "010" "S") with false. cbn match.
    by destruct (JS.indexOf marker s).
Qed.

Lemma method_lines_good section method :
  JS.indexOf marker section = None → JS.indexOf marker method = None →
  Forall good_line (method_lines section method).
Proof.
  intros Hs Hm. unfold method_lines.
  repeat (constructor; [first [by (split; vm_compute; reflexivity) | idtac]|]).
  - rewrite (indexOf_skip _ _ "          spec: hl-") by (vm_compute; reflexivity).
    change ("-" +:+ method) with (String "-"%char method).
    rewrite indexOf_app_None, indexOf_cons by (assumption || (vm_compute; reflexivity)).
    change (JS.startsWith marker (String "-"%char method)) with false. cbn match.
    by rewrite Hm.
  - reflexivity.
  - constructor.
Qed.

Lemma obj_get_In {A} k (v : A) (o : list (string * A)) : obj_get k o = Some v → In (k, v) o.
Proof.
  induction o as [|[k' v'] o IH]; [done|]. cbn [obj_get].
  destruct (String.eqb_spec k' k) as [->|]; [intros [= ->]; by left | right; auto].
Qed.

Lemma plain_names_section openapiSpecs section methods :
  plain_names openapiSpecs = true → In (section, methods) openapiSpecs →
  JS.indexOf marker section = None
  ∧ ∀ method doc, In (method, doc) methods → JS.indexOf marker method = None.
Proof.
  unfold plain_names. rewrite forallb_forall. intros H Hin.
  apply H in Hin. apply andb_prop in Hin as [Hs Hm].
  apply negb_true_iff, includes_false in Hs. split; [done|].
  intros method doc Hin. rewrite forallb_forall in Hm.
  apply Hm in Hin. by apply negb_true_iff, includes_false in Hin.
Qed.

Lemma section_lines_good openapiSpecs section :
  plain_names openapiSpecs = true → In section (obj_keys openapiSpecs) →
  Forall good_line (section_lines openapiSpecs section).
Proof.
  intros Hplain Hin. unfold section_lines.
  set (methods := JS.sort _).
  assert (Hsec : JS.indexOf marker section = None).
  { apply in_map_iff in Hin as ([k ms] & <- & Hin).
    by destruct (plain_names_section _ _ _ Hplain Hin). }
  assert (Hmethods : Forall (fun m => JS.indexOf marker m = None) methods).
  { unfold methods, JS.sort. rewrite sort_by_perm.
    destruct (obj_get section openapiSpecs) as [ms|] eqn:Hget; [|by constructor].
    apply obj_get_In in Hget.
    destruct (plain_names_section _ _ _ Hplain Hget) as [_ Hm].
    apply Forall_forall. intros m [[m' doc] [-> Hmd%list_elem_of_In]]%list_elem_of_fmap.
    by apply (Hm m' doc). }
  destruct methods as [|m ms]; [constructor|].
  apply Forall_app. split; [|apply Forall_app; split].
  - constructor; [|constructor]. split; [|reflexivity].
    rewrite (indexOf_skip _ _ "- ") by (vm_compute; reflexivity).
    by rewrite capitalized_no_marker.
  - apply Forall_concat, Forall_fmap.
    eapply Forall_impl; [exact Hmethods|]. intros m' Hm'. by apply method_lines_good.
  - constructor; [by split | constructor].
Qed.

(** The generated block: the header, an empty line and the lines of the
    sections. *)
Lemma block_unlines openapiSpecs :
  JS.join LF (summary_lines openapiSpecs)
  = header +:+ LF +:+ LF
      +:+ unlines (concat (section_lines openapiSpecs <$> JS.sort (obj_keys openapiSpecs))).
Proof.
  unfold summary_lines.
  match goal with |- context [concat ?b] => generalize (concat b); intros body end.
  change ([ "## API"; "" ] ++ body ++ [ "" ]) with (("## API" :: "" :: body) ++ [ "" ]).
  by rewrite join_snoc.
Qed.

Lemma block_safe openapiSpecs :
  plain_names openapiSpecs = true →
  safe_text (LF +:+ LF
             +:+ unlines (concat (section_lines openapiSpecs
                                    <$> JS.sort (obj_keys openapiSpecs)))).
Proof.
  intros Hplain.
  apply (safe_text_app (LF)); [by apply (safe_text_line "")|].
  apply (safe_text_app (LF)); [by apply (safe_text_line "")|].
  apply safe_text_unlines, Forall_concat, Forall_fmap, Forall_forall.
  intros section Hin. apply section_lines_good; [done|].
  apply list_elem_of_In. revert Hin. unfold JS.sort. by rewrite sort_by_perm.
Qed.

Lemma slice_to_app a b : JS.slice_to (String.length a) (a +:+ b) = a.
Proof. induction a as [|c a IH]; [by destruct b|]. by rewrite str_app_cons; cbn; rewrite IH. Qed.

(** The boundaries, read off a text split at its first header. *)
Lemma sectionBoundaries_intro prefix rest :
  JS.indexOf header (prefix +:+ header +:+ rest) = Some (String.length prefix) →
  sectionBoundaries (prefix +:+ header +:+ rest)
  = Ok (prefix, match JS.indexOf marker rest with
                | Some j => JS.slice_from j rest
                | None => ""
                end).
Proof.
  intros H. unfold sectionBoundaries. rewrite H, slice_to_app.
  change (LF +:+ "## ") with marker.
  replace (String.length prefix + String.length header)
    with (String.length (prefix +:+ header)) by apply str_length_app.
  rewrite <-!str_app_assoc, indexOf_from_app.
  destruct (JS.indexOf marker rest) as [j|]; [|done].
  cbn. by rewrite slice_from_app.
Qed.

Lemma sectionBoundaries_Ok summary prefix suffix :
  sectionBoundaries summary = Ok (prefix, suffix) →
  ∃ rest, summary = prefix +:+ header +:+ rest
          ∧ JS.indexOf header summary = Some (String.length prefix)
          ∧ suffix = match JS.indexOf marker rest with
                     | Some j => JS.slice_from j rest
                     | None => ""
                     end.
Proof.
  intros H. pose proof H as H'. unfold sectionBoundaries in H'.
  destruct (JS.indexOf header summary) as [start|] eqn:Hs; [|done].
  injection H' as <- _.
  destruct (indexOf_Some _ _ _ Hs) as [Hl [rest Hrest]%startsWith_elim].
  exists rest.
  assert (E : summary = JS.slice_to start summary +:+ header +:+ rest).
  { by rewrite <-Hrest, slice_to_from. }
  split; [done|]. split; [by rewrite Hl|].
  rewrite E, sectionBoundaries_intro in H.
  - by injection H as _ <-.
  - by rewrite <-E, Hl.
Qed.

Lemma trimEnd_app_kept a b :
  JS.trimEnd a = a → JS.trimEnd (a +:+ b) = a +:+ JS.trimEnd b.
Proof.
  intros Ha. destruct (JS.trimEnd b) as [|c t] eqn:Eb.
  - by rewrite trimEnd_app_blank, Ha, str_app_nil_r.
  - rewrite trimEnd_app_nonblank; [by rewrite Eb | by rewrite Eb].
Qed.

Lemma marked_nonblank X : JS.startsWith marker X = true → JS.trimEnd X ≠ "".
Proof. intros [x ->]%startsWith_elim. by apply trimEnd_app_l_nonblank. Qed.

Lemma block_nonblank openapiSpecs t :
  JS.trimEnd (JS.join LF (summary_lines openapiSpecs) +:+ t) ≠ "".
Proof.
  rewrite block_unlines, str_app_assoc. by apply trimEnd_app_l_nonblank.
Qed.

Lemma suffix_cases rest :
  match JS.indexOf marker rest with
  | Some j => JS.slice_from j rest
  | None => ""
  end = ""
  ∧ JS.indexOf marker rest = None
  ∨ ∃ j, JS.indexOf marker rest = Some j
         ∧ JS.startsWith marker (JS.slice_from j rest) = true.
Proof.
  destruct (JS.indexOf marker rest) as [j|] eqn:E; [right | by left].
  exists j. split; [done|]. by destruct (indexOf_Some _ _ _ E).
Qed.

Lemma updateSummary_shape openapiSpecs summary out :
  updateSummary openapiSpecs summary = Ok out →
  ∃ before old after,
    sectionBoundaries summary = Ok (before, after)
    ∧ summary = before +:+ old +:+ after
    ∧ JS.indexOf "## API" summary = Some (String.length before)
    ∧ JS.startsWith "## API" old = true
    ∧ (after = "" ∨ JS.startsWith (LF +:+ "## ") after = true)
    ∧ out = before
              +:+ (if String.eqb after ""
                   then JS.trimEnd (JS.join LF (summary_lines openapiSpecs))
                   else JS.join LF (summary_lines openapiSpecs) +:+ JS.trimEnd after)
              +:+ LF.
Proof.
  unfold updateSummary.
  destruct (sectionBoundaries summary) as [[before after]|e] eqn:Hb; [|done].
  cbn [bind]. intros <-%Ok_inj.
  destruct (sectionBoundaries_Ok _ _ _ Hb) as (rest & Hsum & Hidx & Hafter).
  destruct (suffix_cases rest) as [[Hnil Hnone]|(j & Hj & Hstart)].
  - rewrite Hnil in Hafter. subst after.
    exists before, (header +:+ rest), "". rewrite !str_app_nil_r.
    split; [done|]. split; [done|]. split; [done|].
    split; [apply startsWith_app|]. split; [by left|].
    change (String.eqb "" "") with true. cbn match.
    rewrite trimEnd_app_nonblank, str_app_assoc; [done|].
    rewrite <-(str_app_nil_r (JS.join _ _)). apply block_nonblank.
  - rewrite Hj in Hafter. subst after.
    exists before, (header +:+ JS.slice_to j rest), (JS.slice_from j rest).
    split; [done|]. split; [by rewrite str_app_assoc, slice_to_from|]. split; [done|].
    split; [apply startsWith_app|]. split; [by right|].
    pose proof (marked_nonblank _ Hstart) as Hnb.
    destruct (String.eqb_spec (JS.slice_from j rest) "") as [E|_].
    { rewrite E in Hnb. by destruct Hnb. }
    rewrite trimEnd_app_nonblank by apply block_nonblank.
    rewrite trimEnd_app_nonblank by done. by rewrite !str_app_assoc.
Qed.

Lemma updateSummary_twice openapiSpecs summary prefix suffix out :
  plain_names openapiSpecs = true →
  sectionBoundaries summary = Ok (prefix, suffix) →
  suffix = "" ∨ JS.trimEnd (JS.slice_from 4 suffix) ≠ "" →
  updateSummary openapiSpecs summary = Ok out →
  updateSummary openapiSpecs out = Ok out.
Proof.
  intros Hplain Hb Hvisible. unfold updateSummary at 1. rewrite Hb. cbn [bind].
  intros <-%Ok_inj.
  destruct (sectionBoundaries_Ok _ _ _ Hb) as (rest & Hsum & Hidx & Hsuffix).
  rewrite Hsum in Hidx.
  pose proof (block_unlines openapiSpecs) as Hblock.
  pose proof (block_safe openapiSpecs Hplain) as Hsafe.
  set (block := JS.join LF (summary_lines openapiSpecs)) in *.
  set (body := LF +:+ LF +:+ unlines _) in *.
  assert (Hsecond : ∀ rest',
            JS.trimEnd (prefix +:+ block +:+ suffix) +:+ LF
              = prefix +:+ header +:+ rest' →
            match JS.indexOf marker rest' with
            | Some j => JS.slice_from j rest'
            | None => ""
            end = JS.trimEnd suffix +:+ (if String.eqb suffix "" then "" else LF) →
            JS.trimEnd (prefix +:+ block +:+ JS.trimEnd suffix
                          +:+ (if String.eqb suffix "" then "" else LF))
              = JS.trimEnd (prefix +:+ block +:+ suffix) →
            updateSummary openapiSpecs (JS.trimEnd (prefix +:+ block +:+ suffix) +:+ LF)
              = Ok (JS.trimEnd (prefix +:+ block +:+ suffix) +:+ LF)).
  { intros rest' Hout Hsuf Htrim. unfold updateSummary.
    rewrite Hout, sectionBoundaries_intro by exact (indexOf_first_stable _ _ _ _ Hidx).
    cbn [bind]. fold block. by rewrite Hsuf, Htrim, Hout. }
  destruct (suffix_cases rest) as [[Hnil Hnone]|(j & Hj & Hstart)].
  - rewrite Hnil in Hsuffix. subst suffix.
    change (String.eqb "" "") with true in Hsecond. cbn match in Hsecond.
    assert (Hout : JS.trimEnd (prefix +:+ block +:+ "")
                   = prefix +:+ header +:+ JS.trimEnd body).
    { rewrite str_app_nil_r, trimEnd_app_nonblank.
      - by rewrite Hblock, (trimEnd_app_kept header).
      - rewrite <-(str_app_nil_r block). apply block_nonblank. }
    apply (Hsecond (JS.trimEnd body +:+ LF)).
    + by rewrite Hout, !str_app_assoc.
    + destruct (Hsafe "" eq_refl) as [_ Hi]. rewrite str_app_nil_r in Hi.
      destruct (trimEnd_split body) as (ws & Hws & _).
      rewrite Hws in Hi. apply indexOf_app_None_l in Hi.
      change LF with (String "010"%char "").
      by rewrite indexOf_app_None by done.
    + done.
  - rewrite Hj in Hsuffix. subst suffix.
    apply startsWith_elim in Hstart as [x Hx]. rewrite Hx in *.
    destruct Hvisible as [|Hvisible]; [done|].
    change (JS.slice_from 4 (marker +:+ x)) with x in Hvisible.
    change (String.eqb (marker +:+ x) "") with false in Hsecond. cbn match in Hsecond.
    assert (Htrim : JS.trimEnd (marker +:+ x) = marker +:+ JS.trimEnd x)
      by by apply trimEnd_app_nonblank.
    assert (Hnb : JS.trimEnd (marker +:+ x) ≠ "") by by rewrite Htrim.
    assert (Hout : JS.trimEnd (prefix +:+ block +:+ marker +:+ x)
                   = prefix +:+ block +:+ marker +:+ JS.trimEnd x).
    { rewrite trimEnd_app_nonblank by apply block_nonblank.
      by rewrite trimEnd_app_nonblank, Htrim. }
    apply (Hsecond (body +:+ marker +:+ JS.trimEnd x +:+ LF)).
    + by rewrite Hout, Hblock, !str_app_assoc.
    + destruct (Hsafe (marker +:+ JS.trimEnd x +:+ LF) eq_refl) as [_ Hi].
      rewrite Hi, (indexOf_unfold _ (marker +:+ _)), startsWith_app.
      cbn [fmap option_fmap option_map].
      by rewrite slice_from_app, slice_from_0, Htrim, str_app_assoc.
    + rewrite Hout, Htrim.
      rewrite trimEnd_app_nonblank.
      * f_equal. rewrite trimEnd_app_nonblank.
        -- f_equal. rewrite !str_app_assoc. rewrite (trimEnd_app_nonblank marker).
           ++ f_equal. rewrite trimEnd_app_blank by done. apply trimEnd_idemp.
           ++ rewrite trimEnd_app_blank by done. by rewrite trimEnd_idemp.
        -- rewrite !str_app_assoc. apply trimEnd_app_l_nonblank. vm_compute. discriminate.
      * apply block_nonblank.
Qed.




(** C7 (amended): when no endpoint or method name holds a line break
    followed by [## ], and the next top-level header of the document, if
    there is one, has some visible text after its marker, the Updater
    returns a document, and applied to that document it returns the same
    document. *)
Theorem updateSummary_idempotent openapiSpecs summary prefix suffix :
  plain_names openapiSpecs = true →
  sectionBoundaries summary = Ok (prefix, suffix) →
  suffix = "" ∨ JS.trimEnd (JS.slice_from 4 suffix) ≠ "" →
  ∃ out, updateSummary openapiSpecs summary = Ok out
         ∧ updateSummary openapiSpecs out = Ok out.
Proof.
  intros Hplain Hb Hvisible.
  assert (∃ out, updateSummary openapiSpecs summary = Ok out) as [out Hout].
  { unfold updateSummary. rewrite Hb. by eexists. }
  exists out. split; [done|]. by eapply updateSummary_twice.
Qed.

End Summary.



Lemma updateSummary_idempotent_witness :
  ∃ out, updateSummary sample_specs sample_summary = Ok out
         ∧ updateSummary sample_specs out = Ok out.
Proof.
  eapply (updateSummary_idempotent sample_specs sample_summary).
  - reflexivity.
  - reflexivity.
  - right. vm_compute. discriminate.
Defined.

(** C7, as stated for every map and every document, fails in two ways: a
    header without a title at the end of the document is trimmed into
    something that is no header, and a name that holds the marker of a
    header puts one into the generated block. *)
Lemma updateSummary_not_idempotent :
  (¬ ∀ openapiSpecs summary out,
       updateSummary openapiSpecs summary = Ok out →
       updateSummary openapiSpecs out = Ok out)
  ∧ bind (updateSummary empty_specs untitled_summary) (updateSummary empty_specs)
    ≠ updateSummary empty_specs untitled_summary
  ∧ bind (updateSummary two_line_specs ("## API" +:+ LF)) (updateSummary two_line_specs)
    ≠ updateSummary two_line_specs ("## API" +:+ LF).
Proof.
  split; [|split].
  - intros H. specialize (H empty_specs untitled_summary _ eq_refl).
    vm_compute in H. discriminate.
  - vm_compute. discriminate.
  - vm_compute. discriminate.
Qed.

(** * Further properties of the code *)

(** ** [replaceFirstCharToUpperCase] *)

Lemma upper_unit_twice c :
  JS.upper_is_unit c = true →
  ∃ c', JS.upper_unit c = String c' "" ∧ JS.upper_unit c' = String c' "".
Proof.
  destruct c as [[] [] [] [] [] [] [] []];
    first [ by intros H; vm_compute in H
          | intros _; eexists; split; vm_compute; reflexivity ].
Qed.

Lemma replaceFirstCharToUpperCase_cons c s :
  replaceFirstCharToUpperCase (String c s) = JS.upper_unit c +:+ s.
Proof.
  change (replaceFirstCharToUpperCase (String c s)) with ((JS.upper_unit c +:+ "") +:+ s).
  by rewrite str_app_nil_r.
Qed.

(** X1: the empty name stays empty.  On a name whose first code unit has
    an upper-case form of one code unit (every code unit below 256 but
    the sharp s U+00DF, the micro sign U+00B5 and the y with diaeresis
    U+00FF), capitalising keeps the length of the name and every code
    unit after the first, and capitalising twice is capitalising once.
    A leading sharp s becomes the two letters SS. *)
Theorem replaceFirstCharToUpperCase_first_only :
  replaceFirstCharToUpperCase "" = ""
  ∧ (∀ c s, JS.upper_is_unit c = true →
       String.length (replaceFirstCharToUpperCase (String c s)) = String.length (String c s)
       ∧ JS.slice_from 1 (replaceFirstCharToUpperCase (String c s)) = s
       ∧ replaceFirstCharToUpperCase (replaceFirstCharToUpperCase (String c s))
         = replaceFirstCharToUpperCase (String c s))
  ∧ ∀ s, replaceFirstCharToUpperCase (String "223" s) = "SS" +:+ s.
Proof.
  split; [done|]. split; [|intros s; by rewrite replaceFirstCharToUpperCase_cons].
  intros c s (c' & Hc & Hc')%upper_unit_twice.
  rewrite (replaceFirstCharToUpperCase_cons c), Hc.
  change (String c' "" +:+ s) with (String c' s).
  split; [done|]. split; [done|].
  by rewrite replaceFirstCharToUpperCase_cons, Hc'.
Qed.

Lemma replaceFirstCharToUpperCase_first_only_witness :
  String.length (replaceFirstCharToUpperCase "order") = String.length "order"
  ∧ JS.slice_from 1 (replaceFirstCharToUpperCase "order") = "rder"
  ∧ replaceFirstCharToUpperCase (replaceFirstCharToUpperCase "order")
    = replaceFirstCharToUpperCase "order".
Proof.
  apply (proj1 (proj2 replaceFirstCharToUpperCase_first_only) "o"%char "rder").
  reflexivity.
Defined.

(** ** Schema Resolver, further *)

Section ResolverMore.

Import Part000.

Variable doc : string → Result (list DocNode).
Variables filePath functionName endpoint : string.
Variable docNodes : list DocNode.

Hypothesis doc_nodes :
  doc ("https://raw.githubusercontent.com/nktkas/hyperliquid/main/src" +:+ filePath)
  = Ok docNodes.

Local Abbreviation Fn := (replaceFirstCharToUpperCase functionName).
Local Abbreviation Ep := (replaceFirstCharToUpperCase endpoint).
Local Abbreviation run := (extractFunctionSchema doc filePath functionName endpoint).
Local Abbreviation found_function name tags functionDef :=
  (List.find (fun node => String.eqb (node_name node) functionName && is_function node)
             docNodes = Some (DocFunction name tags functionDef)).

Ltac enter :=
  unfold extractFunctionSchema; rewrite doc_nodes; cbn [bind].

Lemma find_named_In name node :
  find_named name docNodes = Some node → node_name node = name ∧ In node docNodes.
Proof.
  intros H. apply List.find_some in H as [Hin Heq]. by apply String.eqb_eq in Heq.
Qed.

Lemma find_none_intro {A} (f : A → bool) (l : list A) :
  (∀ x, In x l → f x = false) → List.find f l = None.
Proof.
  induction l as [|x l IH]; [done|]. intros H. cbn [List.find].
  rewrite (H x) by by left. apply IH. intros y Hy. apply H. by right.
Qed.

(** X2: when the symbol table has no function of the name, nodes of other
    kinds with that name notwithstanding, the run throws the not-found
    error of the function, whatever schemas the table declares. *)
Theorem function_node_required :
  (∀ node, In node docNodes → node_name node = functionName → is_function node = false) →
  run = Throw (FunctionNotFound functionName filePath).
Proof.
  intros H. enter. rewrite find_none_intro; [done|].
  intros node Hin. destruct (String.eqb_spec (node_name node) functionName) as [E|]; [|done].
  by rewrite (H node Hin E).
Qed.

(** X3: the names a run returns come from the symbol table: the request is
    the name of a declared node, one of the two candidates, and the
    response is the normalised name of a declared node; and the table
    declares a function of the name. *)
Theorem resolved_names_are_declared r :
  run = Ok r →
  (∃ node, In node docNodes ∧ request r = node_name node
           ∧ (request r = Fn +:+ "Request" ∨ request r = Fn +:+ Ep +:+ "Request"))
  ∧ (∃ node, In node docNodes ∧ response r = normalizeResponseName (node_name node))
  ∧ ∃ node, In node docNodes ∧ node_name node = functionName ∧ is_function node = true.
Proof.
  enter.
  destruct (List.find _ docNodes) as [[name tags fd|kind name tags]|] eqn:Hfn; [|done..].
  apply List.find_some in Hfn as [Hfn_in [Hfn_name _]%andb_prop].
  apply String.eqb_eq in Hfn_name.
  set (rqn := match find_named (Fn +:+ "Request") docNodes with
              | Some node => Some node
              | None => find_named (Fn +:+ Ep +:+ "Request") docNodes
              end).
  assert (Hrq : ∀ rq, rqn = Some rq →
                In rq docNodes ∧ (node_name rq = Fn +:+ "Request"
                                  ∨ node_name rq = Fn +:+ Ep +:+ "Request")).
  { intros rq. unfold rqn.
    destruct (find_named (Fn +:+ "Request") docNodes) as [n|] eqn:E1.
    - intros [= <-]. destruct (find_named_In _ _ E1). auto.
    - intros E2. destruct (find_named_In _ _ E2). auto. }
  destruct rqn as [rq|]; [|done]. destruct (Hrq rq eq_refl) as [Hrq_in Hrq_name].
  set (rsn := match find_named (Fn +:+ "Response") docNodes with
              | Some node => Some node
              | None => find_named (Fn +:+ Ep +:+ "Response") docNodes
              end).
  assert (Hrs : ∀ rs, rsn = Some rs → In rs docNodes).
  { intros rs. unfold rsn.
    destruct (find_named (Fn +:+ "Response") docNodes) as [n|] eqn:E1.
    - intros [= <-]. by destruct (find_named_In _ _ E1).
    - intros E2. by destruct (find_named_In _ _ E2). }
  intros Hrun.
  assert (∃ rs, In rs docNodes ∧ r = {| request := node_name rq;
                                        response := normalizeResponseName (node_name rs);
                                        example := example r |}) as (rs & Hrs_in & ->).
  { destruct rsn as [rs|].
    - cbn [bind] in Hrun. apply Ok_inj in Hrun as <-. exists rs. split; [by apply Hrs|done].
    - destruct (returnType fd) as [[typeName typeParams|k]|]; [|done..].
      destruct (String.eqb typeName "Promise"); [|done].
      destruct typeParams as [[|[T ps|k] more]|]; [done| |done..].
      destruct (String.eqb T ""); [done|]. cbn [bind] in Hrun.
      destruct (find_named T docNodes) as [rs|] eqn:E; [|done].
      apply Ok_inj in Hrun as <-. exists rs. split; [|done].
      by destruct (find_named_In _ _ E). }
  cbn [request response]. split; [by exists rq|]. split; [by exists rs|].
  by exists (DocFunction name tags fd).
Qed.


End ResolverMore.

Lemma function_node_required_witness :
  Part000.extractFunctionSchema (fun _ => Ok shadowed_nodes) "/api/exchange/cancel.ts"
    "cancel" "exchange"
  = Throw (FunctionNotFound "cancel" "/api/exchange/cancel.ts").
Proof.
  apply (function_node_required (fun _ => Ok shadowed_nodes) "/api/exchange/cancel.ts"
           "cancel" "exchange" shadowed_nodes eq_refl).
  intros node [<-|[<-|[<-|[]]]] _; reflexivity.
Defined.

Lemma resolved_names_are_declared_witness :
  ∃ r, Part000.extractFunctionSchema (fun _ => Ok cancel_nodes) "/api/exchange/cancel.ts"
         "cancel" "exchange" = Ok r
       ∧ ∃ node, In node cancel_nodes
                 ∧ Part000.response r = normalizeResponseName (Part000.node_name node).
Proof.
  eexists. split; [reflexivity|].
  exact (proj1 (proj2 (resolved_names_are_declared (fun _ => Ok cancel_nodes)
                         "/api/exchange/cancel.ts" "cancel" "exchange" cancel_nodes
                         eq_refl _ eq_refl))).
Defined.


(** ** Maps of maps: the loops that fill them *)

Section Stores.

Context {A X : Type}.
Implicit Types (results : list (string * list (string * A))).

Lemma obj_keys_set_present {B} k (v : B) (o : list (string * B)) :
  obj_get k o ≠ None → obj_keys (obj_set k v o) = obj_keys o.
Proof.
  induction o as [|[k' v'] o IH]; [done|]. cbn [obj_get obj_set].
  destruct (String.eqb_spec k' k); [done|]. intros H.
  unfold obj_keys in *. rewrite !fmap_cons. f_equal. by apply IH.
Qed.

Lemma obj_keys_set_In {B} k (v : B) (o : list (string * B)) m :
  In m (obj_keys (obj_set k v o)) ↔ m = k ∨ In m (obj_keys o).
Proof.
  induction o as [|[k' v'] o IH]; cbn [obj_set].
  - unfold obj_keys. cbn. naive_solver.
  - destruct (String.eqb_spec k' k) as [->|Hne]; unfold obj_keys in *;
      rewrite !fmap_cons; cbn [In fst]; [naive_solver|].
    rewrite IH. naive_solver.
Qed.

Lemma obj_get_of_key {B} k (o : list (string * B)) :
  In k (obj_keys o) → ∃ v, obj_get k o = Some v.
Proof.
  induction o as [|[k' v'] o IH]; [done|]. unfold obj_keys in *. rewrite fmap_cons.
  cbn [In fst obj_get]. destruct (String.eqb_spec k' k); [by eexists|].
  intros [?|?]; [done|by apply IH].
Qed.

Lemma obj_get_key {B} k (v : B) (o : list (string * B)) :
  obj_get k o = Some v → In k (obj_keys o).
Proof.
  induction o as [|[k' v'] o IH]; [done|]. unfold obj_keys in *. rewrite fmap_cons.
  cbn [In fst obj_get]. destruct (String.eqb_spec k' k); [by left|]. right. by apply IH.
Qed.

(** A loop whose every step either leaves the map alone or stores one
    value under the endpoint [e]. *)
Lemma store_loop (e : string) (keyOf : X → option string)
    (body : list (string * list (string * A)) → X → Result (list (string * list (string * A)))) :
  (∀ results x results', body results x = Ok results' →
     match keyOf x with
     | None => results' = results
     | Some m => ∃ ms v, obj_get e results = Some ms
                         ∧ results' = obj_set e (obj_set m v ms) results
     end) →
  ∀ l results results' ms,
    obj_get e results = Some ms →
    for_each body l results = Ok results' →
    obj_keys results' = obj_keys results
    ∧ (∀ e', e' ≠ e → obj_get e' results' = obj_get e' results)
    ∧ ∃ ms', obj_get e results' = Some ms'
        ∧ ∀ m, In m (obj_keys ms') ↔ In m (obj_keys ms) ∨ ∃ x, In x l ∧ keyOf x = Some m.
Proof.
  intros Hbody. induction l as [|x l IH]; intros results results' ms Hms; cbn [for_each].
  - intros <-%Ok_inj. split; [done|]. split; [done|]. exists ms. split; [done|].
    intros m. split; [auto|]. intros [?|(? & [] & _)]. done.
  - destruct (body results x) as [r1|err] eqn:E; cbn [bind]; [|done].
    intros Hrest. specialize (Hbody _ _ _ E). destruct (keyOf x) as [m0|] eqn:Hkey.
    + destruct Hbody as (ms0 & v & Hms0 & ->). rewrite Hms in Hms0. injection Hms0 as <-.
      destruct (IH _ _ (obj_set m0 v ms) (obj_get_set_eq _ _ _) Hrest)
        as (Hkeys & Hother & ms' & Hms' & Hin).
      split; [|split].
      * rewrite Hkeys. apply obj_keys_set_present. by rewrite Hms.
      * intros e' Hne. rewrite Hother by done. by apply obj_get_set_ne.
      * exists ms'. split; [done|]. intros m. rewrite Hin, obj_keys_set_In. split.
        -- intros [[->|?]|(y & ? & ?)]; [right; exists x; split; [by left|done] | by left |].
           right. exists y. split; [by right|done].
        -- intros [?|(y & [<-|?] & Hy)]; [by left; right | |].
           ++ rewrite Hkey in Hy. injection Hy as ->. by left; left.
           ++ right. by exists y.
    + subst r1. destruct (IH _ _ ms Hms Hrest) as (Hkeys & Hother & ms' & Hms' & Hin).
      split; [done|]. split; [done|]. exists ms'. split; [done|].
      intros m. rewrite Hin. split.
      * intros [?|(y & ? & ?)]; [by left|]. right. exists y. split; [by right|done].
      * intros [?|(y & [<-|?] & Hy)]; [by left | congruence |]. right. by exists y.
Qed.

End Stores.

Lemma for_each_steps {S A} (P : S → Prop) (body : S → A → Result S) l s s' x :
  (∀ s x s', P s → body s x = Ok s' → P s') →
  P s → for_each body l s = Ok s' → In x l →
  ∃ s1 s2, P s1 ∧ body s1 x = Ok s2.
Proof.
  intros Hstep. revert s. induction l as [|y l IH]; intros s Hs; cbn [for_each]; [done|].
  destruct (body s y) as [s1|e] eqn:E; cbn [bind]; [|done].
  intros Hrest [<-|Hin]; [by exists s, s1|].
  apply (IH s1); [by eapply Hstep|done|done].
Qed.

Lemma for_each_throws {S A} (body : S → A → Result S) l s e :
  for_each body l s = Throw e → ∃ x s1, In x l ∧ body s1 x = Throw e.
Proof.
  revert s. induction l as [|y l IH]; intros s; cbn [for_each]; [done|].
  destruct (body s y) as [s1|e1] eqn:E; cbn [bind].
  - intros (x & s2 & Hx & Hb)%IH. exists x, s2. split; [by right|done].
  - intros [= <-]. exists y, s. split; [by left|done].
Qed.

Lemma for_each_returns {S A} (P : S → Prop) (body : S → A → Result S) l s :
  (∀ s x, In x l → P s → ∃ s', body s x = Ok s' ∧ P s') →
  P s → ∃ s', for_each body l s = Ok s' ∧ P s'.
Proof.
  revert s. induction l as [|y l IH]; intros s Hstep Hs; cbn [for_each]; [by exists s|].
  destruct (Hstep s y) as (s1 & -> & Hs1); [by left|done|]. cbn [bind].
  apply IH; [|done]. intros s2 x Hx. apply Hstep. by right.
Qed.

Lemma for_each_total {S A} (P : S → Prop) (body : S → A → Result S) l s :
  (∀ s x, In x l → P s → ∃ s', body s x = Ok s' ∧ P s') →
  P s → ∃ s', for_each body l s = Ok s'.
Proof.
  intros Hstep Hs. destruct (for_each_returns P body l s Hstep Hs) as (s' & ? & _).
  by exists s'.
Qed.

Lemma for_each_ext {S A} (f g : S → A → Result S) l s :
  (∀ s x, In x l → f s x = g s x) → for_each f l s = for_each g l s.
Proof.
  revert s. induction l as [|y l IH]; intros s H; cbn [for_each]; [done|].
  rewrite (H s y) by by left. destruct (g s y) as [s1|e]; cbn [bind]; [|done].
  apply IH. intros s2 x Hx. apply H. by right.
Qed.

(** ** [getAllMethodsFromClient] and [getAllSchemas] *)

Lemma getAllMethodsFromClient_In prototype endpoint method :
  In method (getAllMethodsFromClient prototype endpoint)
  ↔ In (method, true)
       (prototype (if String.eqb endpoint "info" then InfoClient
                   else if String.eqb endpoint "exchange" then ExchangeClient
                   else SubscriptionClient))
    ∧ method ≠ "constructor".
Proof.
  unfold getAllMethodsFromClient. cbv zeta. rewrite in_map_iff. split.
  - intros ([name isFunction] & <- & [Hin Hf]%filter_In). cbn [fst].
    apply andb_prop in Hf as [Hname ->]. split; [done|].
    apply negb_true_iff in Hname. by apply String.eqb_neq.
  - intros [Hin Hne]. exists (method, true). split; [done|]. apply filter_In. split; [done|].
    apply andb_true_intro. split; [|done]. apply negb_true_iff. by apply String.eqb_neq.
Qed.

Lemma skipped_false method :
  existsb (String.eqb method) [ "multiSig" ] = false ↔ method ≠ "multiSig".
Proof. cbn [existsb]. rewrite orb_false_r. apply String.eqb_neq. Qed.

Section SchemaMaps.

Import Part000.

Context {V : Type}.
Variable prototype : Client → list (string * bool).
Variable doc : string → Result (list DocNode).
Variables hlInfo hlExchange : list (string * V).
Variable toJsonSchema : ConversionConfig → option V → Result json.

Local Abbreviation stored method :=
  (if existsb (String.eqb method) [ "multiSig" ] then None else Some method%string).

Lemma endpoints_loop
    (body : string → AllSchemas → string → Result AllSchemas) (results : AllSchemas) :
  (∀ endpoint acc method acc', body endpoint acc method = Ok acc' →
     match stored method with
     | None => acc' = acc
     | Some m => ∃ ms v, obj_get endpoint acc = Some ms
                         ∧ acc' = obj_set endpoint (obj_set m v ms) acc
     end) →
  for_each (fun acc endpoint =>
              for_each (body endpoint) (getAllMethodsFromClient prototype endpoint) acc)
           [ "info"; "exchange" ] [ ("info", []); ("exchange", []) ] = Ok results →
  obj_keys results = [ "info"; "exchange" ]
  ∧ (∃ schemas, obj_get "info" results = Some schemas
                ∧ holds_methods prototype InfoClient schemas)
  ∧ (∃ schemas, obj_get "exchange" results = Some schemas
                ∧ holds_methods prototype ExchangeClient schemas).
Proof.
  intros Hbody. cbn [for_each].
  destruct (for_each (body "info") _ _) as [r1|e] eqn:E1; cbn [bind]; [|done].
  destruct (for_each (body "exchange") _ _) as [r2|e] eqn:E2; cbn [bind]; [|done].
  intros <-%Ok_inj.
  apply (store_loop "info" (fun method => stored method) _ (Hbody "info") _ _ _ [])
    in E1 as (K1 & O1 & ms1 & G1 & In1); [|done].
  assert (G2 : obj_get "exchange" r1 = Some []) by by rewrite O1.
  apply (store_loop "exchange" (fun method => stored method) _ (Hbody "exchange") _ _ _ [])
    in E2 as (K2 & O2 & ms2 & G2' & In2); [|done].
  split; [by rewrite K2, K1|].
  assert (Hm : ∀ endpoint method,
            (In method [] ∨ ∃ x, In x (getAllMethodsFromClient prototype endpoint)
                                 ∧ stored x = Some method)
            ↔ In (method, true)
                 (prototype (if String.eqb endpoint "info" then InfoClient
                             else if String.eqb endpoint "exchange" then ExchangeClient
                             else SubscriptionClient))
              ∧ method ≠ "constructor" ∧ method ≠ "multiSig").
  { intros endpoint method.
    pose proof (getAllMethodsFromClient_In prototype endpoint method) as Hg. split.
    - intros [[]|(x & Hx & Hs)].
      destruct (existsb (String.eqb x) [ "multiSig" ]) eqn:Hskip; [done|].
      injection Hs as <-. apply skipped_false in Hskip. apply Hg in Hx as [? ?]. done.
    - intros (Hin & Hc & Hne). right. exists method. split; [by apply Hg|].
      by rewrite (proj2 (skipped_false method) Hne). }
  split.
  - exists ms1. split; [by rewrite O2|]. intros method. rewrite In1. apply (Hm "info").
  - exists ms2. split; [done|]. intros method. rewrite In2. apply (Hm "exchange").
Qed.

(** X5: the schema map that the extraction of part_000 returns has the two
    categories, in the order info, exchange, and under each of them one
    entry for every function of the prototype of its client other than
    the constructor and multiSig, and no other entry. *)
Theorem getAllSchemas_methods results :
  getAllSchemas prototype doc hlInfo hlExchange toJsonSchema = Ok results →
  obj_keys results = [ "info"; "exchange" ]
  ∧ (∃ schemas, obj_get "info" results = Some schemas
                ∧ holds_methods prototype InfoClient schemas)
  ∧ (∃ schemas, obj_get "exchange" results = Some schemas
                ∧ holds_methods prototype ExchangeClient schemas).
Proof.
  unfold getAllSchemas. cbv zeta. intros H. eapply endpoints_loop; [|exact H].
  intros endpoint acc method acc'. cbv beta.
  destruct (existsb (String.eqb method) [ "multiSig" ]); [by intros <-%Ok_inj|].
  destruct (extractFunctionSchema _ _ _ _) as [functionInfo|e]; cbn [bind]; [|done].
  destruct (toJsonSchema _ (obj_get (request functionInfo) _)) as [rq|e]; cbn [bind]; [|done].
  destruct (toJsonSchema _ (obj_get (response functionInfo) _)) as [rs|e]; cbn [bind]; [|done].
  destruct (obj_get endpoint acc) as [schemas|]; [|done].
  intros <-%Ok_inj. by eexists _, _.
Qed.

(** X6: the extraction of part_000 returns no partial map: when the
    resolver throws for one method that is not skipped, of either
    category, the extraction throws. *)
Theorem getAllSchemas_no_partial_map endpoint method e :
  endpoint = "info" ∨ endpoint = "exchange" →
  In method (getAllMethodsFromClient prototype endpoint) →
  method ≠ "multiSig" →
  extractFunctionSchema doc ("/api/" +:+ endpoint +:+ "/" +:+ method +:+ ".ts")
    method endpoint = Throw e →
  ∃ e', getAllSchemas prototype doc hlInfo hlExchange toJsonSchema = Throw e'.
Proof.
  intros Hendpoint Hmethod Hskip Hthrow.
  destruct (getAllSchemas prototype doc hlInfo hlExchange toJsonSchema) as [results|e']
    eqn:Hrun; [|by eexists].
  exfalso. unfold getAllSchemas in Hrun. cbv zeta in Hrun.
  eapply (for_each_steps (fun _ => True) _ _ _ _ endpoint) in Hrun
    as (acc & acc' & _ & Hinner); [|done|done|].
  - cbv beta in Hinner.
    eapply (for_each_steps (fun _ => True) _ _ _ _ method) in Hinner
      as (acc1 & acc2 & _ & Hstep); [|done|done|done].
    cbv beta in Hstep. rewrite (proj2 (skipped_false method) Hskip), Hthrow in Hstep.
    done.
  - destruct Hendpoint as [->| ->]; [by left|by right; left].
Qed.

(** X7: the extraction of update.ts returns whenever the converter returns
    on the schemas it looks up, and its map has the same shape: the two
    categories, each with the functions of its client other than the
    constructor and multiSig. *)
Theorem UpdateTs_getAllSchemas_returns :
  (∀ endpoint method name,
     endpoint = "info" ∨ endpoint = "exchange" →
     In method (getAllMethodsFromClient prototype endpoint) →
     method ≠ "multiSig" →
     name = replaceFirstCharToUpperCase method +:+ "Request"
       ∨ name = replaceFirstCharToUpperCase method +:+ "Response" →
     ∃ j, toJsonSchema toJsonConfig
            (obj_get name (if String.eqb endpoint "info" then hlInfo else hlExchange))
          = Ok j) →
  ∃ results,
    UpdateTs.getAllSchemas prototype hlInfo hlExchange toJsonSchema = Ok results
    ∧ obj_keys results = [ "info"; "exchange" ]
    ∧ (∃ schemas, obj_get "info" results = Some schemas
                  ∧ holds_methods prototype InfoClient schemas)
    ∧ (∃ schemas, obj_get "exchange" results = Some schemas
                  ∧ holds_methods prototype ExchangeClient schemas).
Proof.
  intros Hconv.
  assert (∃ results, UpdateTs.getAllSchemas prototype hlInfo hlExchange toJsonSchema
                     = Ok results) as [results Hrun].
  { unfold UpdateTs.getAllSchemas. cbv zeta.
    apply (for_each_total (fun acc : AllSchemas => obj_keys acc = [ "info"; "exchange" ]));
      [|done].
    intros acc endpoint Hendpoint Hacc. cbv beta.
    apply for_each_returns; [|done].
    intros acc1 method Hmethod Hacc1.
    destruct (existsb (String.eqb method) [ "multiSig" ]) eqn:Hskip; [by eexists|].
    apply skipped_false in Hskip.
    assert (Hep : endpoint = "info" ∨ endpoint = "exchange").
    { destruct Hendpoint as [<-|[<-|[]]]; auto. }
    destruct (Hconv endpoint method _ Hep Hmethod Hskip (or_introl eq_refl)) as [rq ->].
    destruct (Hconv endpoint method _ Hep Hmethod Hskip (or_intror eq_refl)) as [rs ->].
    cbn [bind].
    destruct (obj_get_of_key endpoint acc1) as [schemas Hschemas].
    { rewrite Hacc1. destruct Hep as [->| ->]; [by left|by right; left]. }
    rewrite Hschemas. eexists. split; [done|].
    rewrite obj_keys_set_present; [done|by rewrite Hschemas]. }
  exists results. split; [done|].
  unfold UpdateTs.getAllSchemas in Hrun. cbv zeta in Hrun.
  eapply endpoints_loop; [|exact Hrun].
  intros endpoint acc method acc'. cbv beta.
  destruct (existsb (String.eqb method) [ "multiSig" ]); [by intros <-%Ok_inj|].
  destruct (toJsonSchema _ (obj_get (_ +:+ "Request") _)) as [rq|e]; cbn [bind]; [|done].
  destruct (toJsonSchema _ (obj_get (_ +:+ "Response") _)) as [rs|e]; cbn [bind]; [|done].
  destruct (obj_get endpoint acc) as [schemas|]; [|done].
  intros <-%Ok_inj. by eexists _, _.
Qed.

(** X8: when the resolver returns, for every method that is not skipped,
    the names made of the method name alone, the extraction of part_000 is
    the extraction of update.ts: the same map or the same error. *)
Theorem getAllSchemas_revisions_agree :
  (∀ endpoint method,
     endpoint = "info" ∨ endpoint = "exchange" →
     In method (getAllMethodsFromClient prototype endpoint) →
     method ≠ "multiSig" →
     ∃ r, extractFunctionSchema doc ("/api/" +:+ endpoint +:+ "/" +:+ method +:+ ".ts")
            method endpoint = Ok r
          ∧ request r = replaceFirstCharToUpperCase method +:+ "Request"
          ∧ response r = replaceFirstCharToUpperCase method +:+ "Response") →
  getAllSchemas prototype doc hlInfo hlExchange toJsonSchema
  = UpdateTs.getAllSchemas prototype hlInfo hlExchange toJsonSchema.
Proof.
  intros Hnames. unfold getAllSchemas, UpdateTs.getAllSchemas. cbv zeta.
  apply for_each_ext. intros acc endpoint Hendpoint.
  apply for_each_ext. intros acc1 method Hmethod.
  destruct (existsb (String.eqb method) [ "multiSig" ]) eqn:Hskip; [done|].
  apply skipped_false in Hskip.
  destruct (Hnames endpoint method) as (r & Hr & Hrq & Hrs); [|done|done|].
  - destruct Hendpoint as [<-|[<-|[]]]; auto.
  - rewrite Hr. cbn [bind]. by rewrite Hrq, Hrs.
Qed.

End SchemaMaps.

Lemma getAllSchemas_methods_witness :
  ∃ results schemas,
    Part000.getAllSchemas sample_prototype sample_doc sample_hlInfo sample_hlExchange
      sample_toJsonSchema = Ok results
    ∧ obj_get "exchange" results = Some schemas
    ∧ holds_methods sample_prototype ExchangeClient schemas.
Proof.
  destruct (getAllSchemas_methods sample_prototype sample_doc sample_hlInfo
              sample_hlExchange sample_toJsonSchema _ eq_refl)
    as (_ & _ & schemas & Hget & Hmethods).
  by eexists _, schemas.
Defined.

Lemma getAllSchemas_no_partial_map_witness :
  ∃ e, Part000.getAllSchemas sample_prototype failing_doc sample_hlInfo sample_hlExchange
         sample_toJsonSchema = Throw e.
Proof.
  apply (getAllSchemas_no_partial_map sample_prototype failing_doc sample_hlInfo
           sample_hlExchange sample_toJsonSchema "exchange" "cancel"
           (CollaboratorError "NotFound")).
  - by right.
  - vm_compute. by left.
  - discriminate.
  - reflexivity.
Defined.

Lemma sample_methods endpoint method :
  endpoint = "info" ∨ endpoint = "exchange" →
  In method (getAllMethodsFromClient sample_prototype endpoint) →
  method ≠ "multiSig" →
  (endpoint = "info" ∧ method = "allMids") ∨ (endpoint = "exchange" ∧ method = "cancel").
Proof.
  intros [->| ->] Hin Hne.
  - left. split; [done|]. vm_compute in Hin. by destruct Hin as [<-|[]].
  - right. split; [done|]. vm_compute in Hin. by destruct Hin as [<-|[<-|[]]].
Defined.

Lemma UpdateTs_getAllSchemas_returns_witness :
  ∃ results,
    UpdateTs.getAllSchemas sample_prototype sample_hlInfo sample_hlExchange
      sample_toJsonSchema = Ok results
    ∧ obj_keys results = [ "info"; "exchange" ].
Proof.
  destruct (UpdateTs_getAllSchemas_returns sample_prototype sample_hlInfo sample_hlExchange
              sample_toJsonSchema) as (results & Hrun & Hkeys & _).
  - intros endpoint method name Hendpoint Hmethod Hskip Hname.
    destruct (sample_methods endpoint method Hendpoint Hmethod Hskip) as [[-> ->]|[-> ->]];
      destruct Hname as [->| ->]; by eexists.
  - by exists results.
Defined.

Lemma getAllSchemas_revisions_agree_witness :
  Part000.getAllSchemas sample_prototype sample_doc sample_hlInfo sample_hlExchange
    sample_toJsonSchema
  = UpdateTs.getAllSchemas sample_prototype sample_hlInfo sample_hlExchange
      sample_toJsonSchema.
Proof.
  apply getAllSchemas_revisions_agree.
  intros endpoint method Hendpoint Hmethod Hskip.
  destruct (sample_methods endpoint method Hendpoint Hmethod Hskip) as [[-> ->]|[-> ->]];
    by eexists.
Defined.

(** ** The hook [overrideSchema] *)

Lemma obj_get_delete_eq {A} k (o : list (string * A)) : obj_get k (obj_delete k o) = None.
Proof.
  induction o as [|[k' v'] o IH]; [done|]. cbn [obj_delete].
  destruct (String.eqb_spec k' k) as [->|Hne]; [done|]. cbn [obj_get].
  by destruct (String.eqb_spec k' k).
Qed.

Lemma obj_get_delete_ne {A} k k' (o : list (string * A)) :
  k ≠ k' → obj_get k (obj_delete k' o) = obj_get k o.
Proof.
  intros Hne. induction o as [|[k0 v0] o IH]; [done|]. cbn [obj_delete obj_get].
  destruct (String.eqb_spec k0 k') as [->|]; cbn [obj_get].
  - by destruct (String.eqb_spec k' k); [congruence|].
  - by destruct (String.eqb_spec k0 k).
Qed.

Lemma obj_keys_delete {A} k (o : list (string * A)) :
  obj_keys (obj_delete k o) = List.filter (fun k' => negb (String.eqb k' k)) (obj_keys o).
Proof.
  unfold obj_keys. induction o as [|[k0 v0] o IH]; [done|]. cbn [obj_delete].
  rewrite fmap_cons. cbn [List.filter fst].
  destruct (String.eqb k0 k); cbn [negb]; [done|]. by rewrite fmap_cons, IH.
Qed.

Lemma obj_get_None_keys {A} k (o : list (string * A)) :
  obj_get k o = None →
  List.filter (fun k' => negb (String.eqb k' k)) (obj_keys o) = obj_keys o.
Proof.
  unfold obj_keys. induction o as [|[k0 v0] o IH]; [done|]. cbn [obj_get].
  rewrite fmap_cons. cbn [List.filter fst].
  destruct (String.eqb k0 k); cbn [negb]; [done|]. intros H. by rewrite IH.
Qed.

(** X9: on an object schema the hook of the conversion returns, and the
    schema it leaves has no property default and every other property of
    the schema it found, with the same value and in the same order. *)
Theorem overrideSchema_strips_default props :
  ∃ props', overrideSchema toJsonConfig (JObj props) = Ok (JObj props')
            ∧ obj_get "default" props' = None
            ∧ (∀ k, k ≠ "default" → obj_get k props' = obj_get k props)
            ∧ obj_keys props'
              = List.filter (fun k => negb (String.eqb k "default")) (obj_keys props).
Proof.
  cbn [overrideSchema toJsonConfig].
  destruct (obj_get "default" props) as [d|] eqn:Hd.
  - exists (obj_delete "default" props). split; [done|].
    split; [apply obj_get_delete_eq|].
    split; [intros k Hk; by apply obj_get_delete_ne | apply obj_keys_delete].
  - exists props. split; [done|]. split; [done|]. split; [done|].
    by rewrite obj_get_None_keys.
Qed.

(** ** Assembler, further *)

Section AssemblerMore.

Import Part000.

Variable convert : json → Result json.

(** The body of the inner loop of [jsonSchemasToOpenAPIs]. *)
Local Abbreviation step endpoint :=
  (fun (acc : OpenAPISpecs) '((method, schema) : string * Schema.pair) =>
   let request := Schema.request schema in
   let response := Schema.response schema in
   do openapiRequest <- convert request;
   do openapiResponse <- convert response;
   do requestDescription <-
     match request with
     | JNull => Throw (TypeError "Cannot read properties of null (reading 'description')")
     | _ => Ok (or_empty (member "description" request))
     end;
   let responseDescription := or_empty (member "description" response) in
   let spec := spec endpoint method requestDescription responseDescription
                    openapiRequest openapiResponse in
   match obj_get endpoint acc with
   | Some specs => Ok (obj_set endpoint (obj_set method spec specs) acc)
   | None =>
       if JS.inherited endpoint
       then Throw (Unfollowed "write to a member of Object.prototype")
       else Throw (TypeError "Cannot set properties of undefined")
   end).

Lemma assembler_step endpoint (acc : OpenAPISpecs) (x : string * Schema.pair) acc' :
  step endpoint acc x = Ok acc' →
  ∃ specs rd sd rq rs,
    obj_get endpoint acc = Some specs
    ∧ defaulted rd ∧ defaulted sd
    ∧ acc' = obj_set endpoint (obj_set x.1 (spec endpoint x.1 rd sd rq rs) specs) acc.
Proof.
  destruct x as [method schema]. cbv zeta. cbn [fst].
  destruct (convert (Schema.request schema)) as [rq|e]; cbn [bind]; [|done].
  destruct (convert (Schema.response schema)) as [rs|e]; cbn [bind]; [|done].
  assert (Hd : ∀ v, defaulted (or_empty v)).
  { intros [d|]; [|by left]. cbn [or_empty]. destruct (truthy d) eqn:E; [by right|by left]. }
  destruct (match Schema.request schema with JNull => _ | _ => _ end) as [rd|e] eqn:Hrd;
    cbn [bind]; [|done].
  assert (defaulted rd).
  { destruct (Schema.request schema); try (apply Ok_inj in Hrd as <-; apply Hd). done. }
  destruct (obj_get endpoint acc) as [specs|]; [|by destruct (JS.inherited endpoint)].
  intros <-%Ok_inj. eexists specs, rd, _, rq, rs. split; [done|]. split; [done|].
  split; [apply Hd|done].
Qed.

Lemma assembler_step_throws endpoint (acc : OpenAPISpecs) (x : string * Schema.pair) e :
  step endpoint acc x = Throw e →
  (∃ j, convert j = Throw e) ∨ (∃ what, e = TypeError what) ∨ JS.inherited endpoint = true.
Proof.
  destruct x as [method schema]. cbv zeta.
  destruct (convert (Schema.request schema)) as [rq|e1] eqn:Hrq; cbn [bind];
    [|intros [= <-]; left; by eexists].
  destruct (convert (Schema.response schema)) as [rs|e2] eqn:Hrs; cbn [bind];
    [|intros [= <-]; left; by eexists].
  destruct (match Schema.request schema with JNull => _ | _ => _ end) as [rd|e3] eqn:Hrd;
    cbn [bind].
  - destruct (obj_get endpoint acc) as [specs|]; [done|].
    destruct (JS.inherited endpoint); [by right; right|].
    intros [= <-]. right. left. by eexists.
  - intros [= <-]. right. left. destruct (Schema.request schema); try done.
    injection Hrd as <-. by eexists.
Qed.

Lemma assemble_loop (schemas : AllSchemas) :
  ∀ (acc result : OpenAPISpecs),
  for_each (fun result '(endpoint, methods) => for_each (step endpoint) methods result)
           schemas acc = Ok result →
  obj_keys result = obj_keys acc
  ∧ ∀ endpoint specs, obj_get endpoint result = Some specs →
      ∃ specs0, obj_get endpoint acc = Some specs0
        ∧ ∀ method, In method (obj_keys specs)
                    ↔ In method (obj_keys specs0)
                      ∨ ∃ methods, In (endpoint, methods) schemas
                                   ∧ In method (obj_keys methods).
Proof.
  induction schemas as [|[e methods] rest IH]; intros acc result; cbn [for_each].
  - intros <-%Ok_inj. split; [done|]. intros endpoint specs Hspecs. exists specs.
    split; [done|]. intros method. split; [auto|]. by intros [?|(? & [] & _)].
  - destruct (for_each _ methods acc) as [acc1|err] eqn:Hinner; cbn [bind]; [|done].
    intros Hrest. destruct (IH _ _ Hrest) as [Hkeys Hin]. clear IH Hrest.
    assert (Hstep : ∀ (r : OpenAPISpecs) (x : string * Schema.pair) r',
              step e r x = Ok r' →
              match Some x.1 with
              | None => r' = r
              | Some m => ∃ ms v, obj_get e r = Some ms
                                  ∧ r' = obj_set e (obj_set m v ms) r
              end).
    { intros r x r' (specs & rd & sd & rq & rs & ? & _ & _ & ->)%assembler_step.
      by eexists _, _. }
    destruct (obj_get e acc) as [ms|] eqn:Hms.
    + apply (store_loop e (fun x => Some x.1) _ Hstep _ _ _ ms Hms) in Hinner
        as (K1 & O1 & ms' & G1 & In1).
      split; [by rewrite Hkeys|]. intros endpoint specs Hspecs.
      destruct (Hin _ _ Hspecs) as (specs1 & Hspecs1 & Hiff).
      destruct (decide (endpoint = e)) as [->|Hne].
      * rewrite G1 in Hspecs1. injection Hspecs1 as <-. exists ms. split; [done|].
        intros method. rewrite Hiff, In1. split.
        -- intros [[?|(x & Hx & [= <-])]|(ms2 & ? & ?)]; [by left| |].
           ++ right. exists methods. split; [by left|]. unfold obj_keys.
              apply in_map_iff. by exists x.
           ++ right. exists ms2. split; [by right|done].
        -- intros [?|(ms2 & [[= <-]|?] & Hm)]; [by left; left| |].
           ++ left. right. unfold obj_keys in Hm. apply in_map_iff in Hm as (x & <- & ?).
              by exists x.
           ++ right. by exists ms2.
      * rewrite O1 in Hspecs1 by done. exists specs1. split; [done|].
        intros method. rewrite Hiff. split.
        -- intros [?|(ms2 & ? & ?)]; [by left|]. right. exists ms2. split; [by right|done].
        -- intros [?|(ms2 & [[= ? _]|?] & Hm)]; [by left|done|]. right. by exists ms2.
    + destruct methods as [|x methods].
      * apply Ok_inj in Hinner as <-. split; [done|]. intros endpoint specs Hspecs.
        destruct (Hin _ _ Hspecs) as (specs1 & Hspecs1 & Hiff). exists specs1.
        split; [done|]. intros method. rewrite Hiff. split.
        -- intros [?|(ms2 & ? & ?)]; [by left|]. right. exists ms2. split; [by right|done].
        -- intros [?|(ms2 & [[= <- <-]|?] & Hm)]; [by left|done|]. right. by exists ms2.
      * cbn [for_each] in Hinner.
        destruct (step e acc x) as [r1|err] eqn:Hfirst; cbn [bind] in Hinner; [|done].
        apply assembler_step in Hfirst as (specs & _ & _ & _ & _ & Hsome & _).
        by rewrite Hms in Hsome.
Qed.

(** X10: an assembled map has the two categories, in the order info,
    exchange, and under each category exactly the methods that the schema
    map lists under it. *)
Theorem jsonSchemasToOpenAPIs_methods schemas result :
  jsonSchemasToOpenAPIs convert schemas = Ok result →
  obj_keys result = [ "info"; "exchange" ]
  ∧ ∀ endpoint specs, obj_get endpoint result = Some specs →
      ∀ method, In method (obj_keys specs)
                ↔ ∃ methods, In (endpoint, methods) schemas ∧ In method (obj_keys methods).
Proof.
  unfold jsonSchemasToOpenAPIs. cbv zeta. intros [Hkeys Hin]%assemble_loop.
  split; [done|]. intros endpoint specs Hspecs method.
  destruct (Hin _ _ Hspecs) as (specs0 & Hspecs0 & ->).
  assert (specs0 = []) as ->.
  { cbn [obj_get] in Hspecs0.
    destruct (String.eqb "info" endpoint); [by injection Hspecs0|].
    destruct (String.eqb "exchange" endpoint); [by injection Hspecs0|done]. }
  split; [by intros [[]|?]|auto].
Qed.

Lemma assemble_keys_step (acc : OpenAPISpecs) (x : string * list (string * Schema.pair)) acc' :
  obj_keys acc = [ "info"; "exchange" ] →
  (let '(endpoint, methods) := x in for_each (step endpoint) methods acc) = Ok acc' →
  obj_keys acc' = [ "info"; "exchange" ].
Proof.
  destruct x as [endpoint methods]. intros Hacc.
  apply (for_each_invariant (fun r : OpenAPISpecs => obj_keys r = [ "info"; "exchange" ]));
    [|done].
  intros r x r' Hr (specs & rd & sd & rq & rs & Hspecs & _ & _ & ->)%assembler_step.
  rewrite obj_keys_set_present; [done|by rewrite Hspecs].
Qed.

(** X11: a schema map none of whose categories is a name that every
    object inherits, and that lists a method under a category other than
    info and exchange, is not assembled: the run throws, an error of the
    converter or a type error (the result has no object to store the
    document in). *)
Theorem jsonSchemasToOpenAPIs_unknown_category schemas endpoint methods :
  (∀ category listed, In (category, listed) schemas → JS.inherited category = false) →
  In (endpoint, methods) schemas → methods ≠ [] →
  endpoint ≠ "info" → endpoint ≠ "exchange" →
  ∃ e, jsonSchemasToOpenAPIs convert schemas = Throw e
       ∧ ((∃ j, convert j = Throw e) ∨ ∃ what, e = TypeError what).
Proof.
  intros Hown Hin Hmethods Hinfo Hexchange.
  destruct (jsonSchemasToOpenAPIs convert schemas) as [result|e] eqn:Hrun.
  - exfalso. unfold jsonSchemasToOpenAPIs in Hrun. cbv zeta in Hrun.
    apply (for_each_steps (fun acc : OpenAPISpecs => obj_keys acc = [ "info"; "exchange" ])
             _ _ _ _ (endpoint, methods)) in Hrun as (acc & acc' & Hacc & Hinner);
      [|apply assemble_keys_step|done|done].
    destruct methods as [|x methods]; [done|]. cbn [for_each] in Hinner.
    destruct (step endpoint acc x) as [r1|err] eqn:Hfirst; [|done].
    apply assembler_step in Hfirst as (specs & _ & _ & _ & _ & Hspecs & _).
    apply obj_get_key in Hspecs. rewrite Hacc in Hspecs.
    destruct Hspecs as [?|[?|[]]]; congruence.
  - exists e. split; [done|]. unfold jsonSchemasToOpenAPIs in Hrun. cbv zeta in Hrun.
    apply for_each_throws in Hrun as ([category listed] & acc & Hcat & Hinner).
    apply for_each_throws in Hinner as (x & acc1 & _ & Hstep).
    apply assembler_step_throws in Hstep as [?|[?|Hinh]]; [by left|by right|].
    by rewrite (Hown _ _ Hcat) in Hinh.
Qed.

Lemma described_by_spec_set result endpoint specs method rd sd rq rs :
  described_by_spec result → obj_get endpoint result = Some specs →
  defaulted rd → defaulted sd →
  described_by_spec
    (obj_set endpoint (obj_set method (spec endpoint method rd sd rq rs) specs) result).
Proof.
  intros Hinv Hspecs Hrd Hsd ep specs' m doc.
  destruct (decide (ep = endpoint)) as [->|Hne].
  - rewrite obj_get_set_eq. intros [= <-].
    destruct (decide (m = method)) as [->|Hm].
    + rewrite obj_get_set_eq. intros [= <-]. by eexists _, _, _, _.
    + rewrite obj_get_set_ne by done. eauto.
  - rewrite obj_get_set_ne by done. eauto.
Qed.

Lemma jsonSchemasToOpenAPIs_described schemas result :
  jsonSchemasToOpenAPIs convert schemas = Ok result → described_by_spec result.
Proof.
  unfold jsonSchemasToOpenAPIs. cbv zeta. apply for_each_invariant.
  - intros acc [endpoint methods] acc' Hacc. apply for_each_invariant; [|done].
    intros r x r' Hr (specs & rd & sd & rq & rs & Hspecs & Hrd & Hsd & ->)%assembler_step.
    by apply described_by_spec_set.
  - intros ep specs m doc. cbn [obj_get].
    destruct (String.eqb "info" ep); [by intros [= <-]|].
    destruct (String.eqb "exchange" ep); [by intros [= <-]|done].
Qed.

Lemma obj_get_head {A} k (v : A) r : obj_get k ((k, v) :: r) = Some v.
Proof. cbn [obj_get]. by rewrite String.eqb_refl. Qed.

Lemma obj_get_skip {A} k k' (v : A) r : k' ≠ k → obj_get k ((k', v) :: r) = obj_get k r.
Proof. intros Hne. cbn [obj_get]. by destruct (String.eqb_spec k' k). Qed.

Ltac lookup :=
  repeat first [ rewrite obj_get_head
               | rewrite obj_get_skip by discriminate
               | progress cbn [member mbind option_bind app] ].

(** X12: in an assembled map the document stored under a category and a
    method is the document of that category and method: its title names
    both, its only tag and the tag of its operation are the method, and
    its only path is the category. *)
Theorem documents_match_their_keys schemas result endpoint specs method doc :
  jsonSchemasToOpenAPIs convert schemas = Ok result →
  obj_get endpoint result = Some specs → obj_get method specs = Some doc →
  member "openapi" doc = Some (JStr "3.1.1")
  ∧ member "info" doc ≫= member "title"
    = Some (JStr ("Hyperliquid API - " +:+ endpoint +:+ "/" +:+ method))
  ∧ member "tags" doc
    = Some (JArr [ JObj [ ("name", JStr method); ("x-page-title", JStr method);
                          ("x-page-slug", JStr method) ] ])
  ∧ (∃ path, member "paths" doc = Some (JObj [ ("/" +:+ endpoint, path) ]))
  ∧ post_of endpoint doc ≫= member "tags" = Some (JArr [ JStr method ]).
Proof.
  intros Hinv%jsonSchemasToOpenAPIs_described Hs Hd.
  destruct (Hinv _ _ _ _ Hs Hd) as (rd & sd & rq & rs & -> & _).
  split; [done|]. split; [done|]. split; [done|]. split; [by eexists|].
  unfold post_of, spec. by lookup.
Qed.

(** X13: in an assembled map the description of every operation and the
    description of its response 200 are present, and each is the empty
    string or a value that counts as true: never null, false, zero or
    missing. *)
Theorem descriptions_defaulted schemas result endpoint specs method doc :
  jsonSchemasToOpenAPIs convert schemas = Ok result →
  obj_get endpoint result = Some specs → obj_get method specs = Some doc →
  ∃ rd sd,
    post_of endpoint doc ≫= member "description" = Some rd
    ∧ ((post_of endpoint doc ≫= member "responses") ≫= member "200")
        ≫= member "description" = Some sd
    ∧ defaulted rd ∧ defaulted sd.
Proof.
  intros Hinv%jsonSchemasToOpenAPIs_described Hs Hd.
  destruct (Hinv _ _ _ _ Hs Hd) as (rd & sd & rq & rs & -> & Hrd & Hsd).
  exists rd, sd. unfold post_of, spec. by lookup.
Qed.

Lemma assembled_keys schemas result :
  jsonSchemasToOpenAPIs convert schemas = Ok result →
  obj_keys result = [ "info"; "exchange" ].
Proof.
  unfold jsonSchemasToOpenAPIs. cbv zeta. by intros [Hkeys _]%assemble_loop.
Qed.

End AssemblerMore.

Lemma jsonSchemasToOpenAPIs_methods_witness :
  ∃ result specs,
    Part000.jsonSchemasToOpenAPIs Ok sample_schemas = Ok result
    ∧ obj_get "info" result = Some specs
    ∧ (In "allMids" (obj_keys specs)
       ↔ ∃ methods, In ("info", methods) sample_schemas ∧ In "allMids" (obj_keys methods)).
Proof.
  do 2 eexists. split; [reflexivity|]. split; [reflexivity|].
  exact (proj2 (jsonSchemasToOpenAPIs_methods Ok sample_schemas _ eq_refl)
               "info" _ eq_refl "allMids").
Defined.

Lemma jsonSchemasToOpenAPIs_unknown_category_witness :
  ∃ e what, Part000.jsonSchemasToOpenAPIs Ok stray_schemas = Throw e ∧ e = TypeError what.
Proof.
  destruct (jsonSchemasToOpenAPIs_unknown_category Ok stray_schemas "subscriptions"
              [ ("trades", {| Schema.request := JObj [ ("type", JStr "object") ];
                              Schema.response := JObj [ ("type", JStr "array") ] |}) ])
    as (e & Hrun & [[j Hj]|[what Hwhat]]).
  - intros category listed [[= <- <-]|[[= <- <-]|[]]]; reflexivity.
  - right. left. reflexivity.
  - discriminate.
  - discriminate.
  - discriminate.
  - discriminate Hj.
  - exists e, what. split; [exact Hrun | exact Hwhat].
Defined.

Lemma documents_match_their_keys_witness :
  ∃ result specs doc,
    Part000.jsonSchemasToOpenAPIs Ok sample_schemas = Ok result
    ∧ obj_get "exchange" result = Some specs ∧ obj_get "order" specs = Some doc
    ∧ member "info" doc ≫= member "title" = Some (JStr "Hyperliquid API - exchange/order").
Proof.
  do 3 eexists. split; [reflexivity|]. split; [reflexivity|]. split; [reflexivity|].
  exact (proj1 (proj2 (documents_match_their_keys Ok sample_schemas _ "exchange" _ "order" _
                         eq_refl eq_refl eq_refl))).
Defined.

Lemma descriptions_defaulted_witness :
  ∃ result specs doc rd sd,
    Part000.jsonSchemasToOpenAPIs Ok sample_schemas = Ok result
    ∧ obj_get "exchange" result = Some specs ∧ obj_get "order" specs = Some doc
    ∧ post_of "exchange" doc ≫= member "description" = Some rd
    ∧ defaulted rd ∧ defaulted sd.
Proof.
  destruct (descriptions_defaulted Ok sample_schemas _ "exchange" _ "order" _
              eq_refl eq_refl eq_refl) as (rd & sd & Hrd & _ & Hd & Hs).
  eexists _, _, _, rd, sd. split; [reflexivity|]. split; [reflexivity|].
  split; [reflexivity|]. split; [exact Hrd|]. split; [exact Hd|exact Hs].
Defined.

(** ** Table of contents, further *)

Section SummaryMore.

Local Abbreviation header := "## API".
Local Abbreviation marker := (String "010"%char "## ").

Implicit Types (openapiSpecs : OpenAPISpecs) (summary out : string).

Lemma updateSummary_text openapiSpecs summary out prefix suffix :
  sectionBoundaries summary = Ok (prefix, suffix) →
  updateSummary openapiSpecs summary = Ok out →
  ∃ tail, out = (prefix +:+ header +:+ tail) +:+ LF
          ∧ JS.trimEnd (prefix +:+ header +:+ tail) = prefix +:+ header +:+ tail.
Proof.
  intros Hb. unfold updateSummary. rewrite Hb. cbn [bind]. intros <-%Ok_inj.
  assert (∃ tail, JS.trimEnd (prefix +:+ JS.join LF (summary_lines openapiSpecs) +:+ suffix)
                  = prefix +:+ header +:+ tail) as [tail E].
  { rewrite (trimEnd_app_nonblank prefix) by apply block_nonblank.
    rewrite block_unlines, (str_app_assoc header).
    rewrite (trimEnd_app_kept header) by done. by eexists. }
  exists tail. split; [by rewrite E|]. rewrite <- E. apply trimEnd_idemp.
Qed.

(** X14: the text written back ends with one line feed, and nothing blank
    stands before that line feed: it is a text without trailing blanks,
    not empty, and a line feed. *)
Theorem updateSummary_output_form openapiSpecs summary out :
  updateSummary openapiSpecs summary = Ok out →
  ∃ t, out = t +:+ LF ∧ JS.trimEnd t = t ∧ t ≠ "".
Proof.
  intros Hrun.
  destruct (sectionBoundaries summary) as [[prefix suffix]|e] eqn:Hb;
    [|by unfold updateSummary in Hrun; rewrite Hb in Hrun].
  destruct (updateSummary_text _ _ _ _ _ Hb Hrun) as (tail & -> & Htrim).
  eexists. split; [done|]. split; [done|]. by destruct prefix.
Qed.

(** X15: the text written back has the section header where the text read
    had it, the text in front of it unchanged, so a later run, for
    whatever document map, finds the section and returns. *)
Theorem updateSummary_can_be_rerun openapiSpecs summary out prefix suffix :
  sectionBoundaries summary = Ok (prefix, suffix) →
  updateSummary openapiSpecs summary = Ok out →
  JS.indexOf "## API" out = Some (String.length prefix)
  ∧ ∀ openapiSpecs', ∃ suffix' out',
      sectionBoundaries out = Ok (prefix, suffix')
      ∧ updateSummary openapiSpecs' out = Ok out'.
Proof.
  intros Hb Hrun.
  destruct (updateSummary_text _ _ _ _ _ Hb Hrun) as (tail & -> & _).
  destruct (sectionBoundaries_Ok _ _ _ Hb) as (rest & -> & Hidx & _).
  rewrite !str_app_assoc.
  pose proof (indexOf_first_stable header prefix rest (tail +:+ LF) Hidx) as Hidx'.
  split; [done|]. intros openapiSpecs'.
  pose proof (sectionBoundaries_intro prefix (tail +:+ LF) Hidx') as Hb'.
  eexists _, _. split; [exact Hb'|]. unfold updateSummary. rewrite Hb'. done.
Qed.

End SummaryMore.

(** *** The references of the section *)

Lemma in_sort x l : In x (JS.sort l) ↔ In x l.
Proof. unfold JS.sort. rewrite <- !list_elem_of_In. by rewrite sort_by_perm. Qed.

Lemma method_lines_reference section method slug :
  In ("          spec: " +:+ slug) (method_lines section method)
  ↔ slug = "hl-" +:+ section +:+ "-" +:+ method.
Proof.
  unfold method_lines. cbn [In]. split.
  - intros H.
    repeat (destruct H as [H|H]; [simpl in H; try discriminate H|]); [|done].
    by simplify_eq.
  - intros ->. do 9 right. by left.
Qed.

Lemma section_lines_reference (openapiSpecs : OpenAPISpecs) section slug :
  In ("          spec: " +:+ slug) (section_lines openapiSpecs section)
  ↔ ∃ method, In method (obj_keys (default [] (obj_get section openapiSpecs)))
              ∧ slug = "hl-" +:+ section +:+ "-" +:+ method.
Proof.
  unfold section_lines. cbv zeta.
  set (methods := obj_keys (default [] (obj_get section openapiSpecs))).
  assert (Hc : In ("          spec: " +:+ slug) (concat (method_lines section <$> JS.sort methods))
               ↔ ∃ method, In method methods ∧ slug = "hl-" +:+ section +:+ "-" +:+ method).
  { rewrite in_concat. split.
    - intros (ls & Hls & Hin). apply list_elem_of_In, list_elem_of_fmap in Hls
        as (method & -> & Hm%list_elem_of_In).
      apply (proj1 (in_sort _ _)) in Hm. exists method. split; [done|]. by apply method_lines_reference.
    - intros (method & Hm & ->). exists (method_lines section method). split.
      + apply list_elem_of_In, list_elem_of_fmap. exists method. split; [done|].
        by apply list_elem_of_In, in_sort.
      + by apply method_lines_reference. }
  destruct (JS.sort methods) as [|m ms] eqn:Hsort.
  - split; [done|]. intros (method & Hm & _).
    apply (proj2 (in_sort _ _)) in Hm. by rewrite Hsort in Hm.
  - rewrite <- Hc. rewrite !in_app_iff. cbn [In]. split.
    + intros [[H|[]]|[?|[H|[]]]]; [simpl in H; discriminate H|done|simpl in H; discriminate H].
    + intros ?. right. by left.
Qed.

Lemma summary_lines_reference (openapiSpecs : OpenAPISpecs) slug :
  In ("          spec: " +:+ slug) (summary_lines openapiSpecs)
  ↔ ∃ section method,
      In section (obj_keys openapiSpecs)
      ∧ In method (obj_keys (default [] (obj_get section openapiSpecs)))
      ∧ slug = "hl-" +:+ section +:+ "-" +:+ method.
Proof.
  unfold summary_lines. rewrite !in_app_iff, in_concat. cbn [In]. split.
  - intros [[H|[H|[]]]|[(ls & Hls & Hin)|[H|[]]]]; try (simpl in H; discriminate H).
    apply list_elem_of_In, list_elem_of_fmap in Hls as (section & -> & Hs%list_elem_of_In).
    apply (proj1 (in_sort _ _)) in Hs. apply section_lines_reference in Hin as (method & ? & ?). by exists section, method.
  - intros (section & method & Hs & Hm & ->). right. left.
    exists (section_lines openapiSpecs section). split.
    + apply list_elem_of_In, list_elem_of_fmap. exists section. split; [done|].
      by apply list_elem_of_In, in_sort.
    + apply section_lines_reference. by exists method.
Qed.

Lemma obj_get_NoDup {A} k (v : A) (o : list (string * A)) :
  NoDup (obj_keys o) → In (k, v) o → obj_get k o = Some v.
Proof.
  unfold obj_keys. induction o as [|[k' v'] o IH]; [done|]. rewrite fmap_cons.
  intros [Hk' Hnd]%NoDup_cons [[= -> ->]|Hin]; cbn [obj_get fst] in *.
  - by rewrite String.eqb_refl.
  - destruct (String.eqb_spec k' k) as [->|]; [|by apply IH].
    destruct Hk'. apply list_elem_of_fmap. exists (k, v). split; [done|].
    by apply list_elem_of_In.
Qed.

Lemma summary_lines_local_slugs (openapiSpecs : OpenAPISpecs) slug :
  NoDup (obj_keys openapiSpecs) →
  In ("          spec: " +:+ slug) (summary_lines openapiSpecs)
  ↔ slug ∈ localSlugSet openapiSpecs.
Proof.
  intros Hnd. rewrite summary_lines_reference. unfold localSlugSet.
  rewrite elem_of_list_to_set, list_elem_of_In, in_flat_map. split.
  - intros (section & method & Hs & Hm & ->).
    destruct (obj_get section openapiSpecs) as [methods|] eqn:Hget; [|done].
    cbn [default] in Hm. exists (section, methods). split; [by apply obj_get_In|].
    unfold obj_keys in Hm.
    apply list_elem_of_In, list_elem_of_fmap in Hm as ([name spec] & -> & Hin%list_elem_of_In).
    apply in_map_iff. by exists (name, spec).
  - intros ([section methods] & Hin & Hslug).
    apply in_map_iff in Hslug as ([name spec] & <- & Hname).
    exists section, name. rewrite (obj_get_NoDup _ _ _ Hnd Hin). cbn [default].
    split; [|split; [|done]].
    + by apply (obj_get_key _ methods), obj_get_NoDup.
    + unfold obj_keys. apply list_elem_of_In, list_elem_of_fmap. exists (name, spec).
      split; [done|]. by apply list_elem_of_In.
Qed.

(** X16: in a document map without repeated category names, the specs that
    the lines of the section refer to are the local slugs, the ones the
    publisher uploads: every method is referred to, and nothing else is. *)
Theorem summary_refers_to_local_slugs (openapiSpecs : OpenAPISpecs) slug :
  NoDup (obj_keys openapiSpecs) →
  In ("          spec: " +:+ slug) (summary_lines openapiSpecs)
  ↔ slug ∈ localSlugSet openapiSpecs.
Proof. apply summary_lines_local_slugs. Qed.

Lemma summary_refers_to_local_slugs_witness :
  In "          spec: hl-info-allMids" (summary_lines sample_specs)
  ↔ "hl-info-allMids" ∈ localSlugSet sample_specs.
Proof.
  apply (summary_refers_to_local_slugs sample_specs "hl-info-allMids").
  unfold sample_specs, obj_keys. cbn [fmap list_fmap fst]. apply NoDup_cons. split.
  - rewrite list_elem_of_singleton. discriminate.
  - apply NoDup_singleton.
Defined.

(** *** The order of the listing *)

Lemma ltb_true_le a b : String.ltb a b = true → String.le a b.
Proof.
  unfold String.ltb, String.le, String.leb. by destruct (String.compare a b).
Qed.

Lemma ltb_false_le a b : String.ltb a b = false → String.le b a.
Proof.
  unfold String.ltb, String.le, String.leb. rewrite (String.compare_antisym a b).
  by destruct (String.compare b a).
Qed.

Lemma insert_sorted_sorted x l :
  StronglySorted String.le l → StronglySorted String.le (JS.insert_sorted String.ltb x l).
Proof.
  induction l as [|y r IH]; cbn [JS.insert_sorted].
  - intros _. by repeat constructor.
  - intros Hs. pose proof Hs as Hyr. apply StronglySorted_inv in Hs as [Hr Hy].
    destruct (String.ltb y x) eqn:Hlt.
    + constructor; [by apply IH|]. rewrite insert_sorted_perm. constructor; [|done].
      by apply ltb_true_le.
    + apply ltb_false_le in Hlt. constructor; [done|]. constructor; [done|].
      eapply Forall_impl; [exact Hy|]. intros z Hz. by etrans.
Qed.

Lemma sort_by_sorted {A} (before : A → A → bool) (l : list A) :
  (∀ a b, before a b = true → before b a = false) →
  (∀ a b c, before b a = false → before c b = false → before c a = false) →
  StronglySorted (fun a b => before b a = false) (JS.sort_by before l).
Proof.
  intros Hasym Htrans. unfold JS.sort_by.
  induction l as [|x l IH]; cbn [foldr]; [constructor|].
  revert IH. generalize (foldr (JS.insert_sorted before) [] l). clear l.
  intros l. induction l as [|y r IH]; cbn [JS.insert_sorted].
  - intros _. by repeat constructor.
  - intros Hs. pose proof Hs as Hyr. apply StronglySorted_inv in Hs as [Hr Hy].
    destruct (before y x) eqn:Hlt.
    + constructor; [by apply IH|]. rewrite insert_sorted_perm. constructor; [|done].
      by apply Hasym.
    + constructor; [done|]. constructor; [done|].
      eapply Forall_impl; [exact Hy|]. intros z Hz. by eapply Htrans.
Qed.

Lemma StronglySorted_weaken {A} (R S : A → A → Prop) (l : list A) :
  (∀ a b, R a b → S a b) → StronglySorted R l → StronglySorted S l.
Proof.
  intros HRS. induction 1 as [|x l Hl IH Hx]; constructor; [done|].
  eapply Forall_impl; [exact Hx|]. intros y. apply HRS.
Qed.

Lemma code_unit_compare_neg a b :
  (code_unit_compare a b <? 0)%Z = String.ltb a b.
Proof. unfold code_unit_compare, String.ltb. by destruct (String.compare a b). Qed.

Lemma code_unit_compare_asym a b :
  (code_unit_compare a b < 0)%Z → ¬ (code_unit_compare b a < 0)%Z.
Proof.
  unfold code_unit_compare. rewrite (String.compare_antisym a b).
  destruct (String.compare b a); cbn; lia.
Qed.

Lemma code_unit_compare_trans a b c :
  ¬ (code_unit_compare b a < 0)%Z → ¬ (code_unit_compare c b < 0)%Z →
  ¬ (code_unit_compare c a < 0)%Z.
Proof.
  rewrite <- !Z.ltb_lt, !code_unit_compare_neg, !not_true_iff_false.
  intros Hab%ltb_false_le Hbc%ltb_false_le.
  assert (String.le a c) as Hac by (by etrans).
  unfold String.ltb, String.le, String.leb in *. rewrite (String.compare_antisym c a).
  by destruct (String.compare a c).
Qed.

Lemma sort_sorted l : StronglySorted String.le (JS.sort l).
Proof.
  unfold JS.sort, JS.sort_by. induction l as [|x l IH]; cbn [foldr]; [constructor|].
  by apply insert_sorted_sorted.
Qed.

Lemma sort_perm_eq l l' : l ≡ₚ l' → JS.sort l = JS.sort l'.
Proof.
  intros Hp. apply (StronglySorted_unique String.le); [apply sort_sorted..|].
  unfold JS.sort. by rewrite !sort_by_perm.
Qed.

(** X17: the lines of the section do not depend on the order in which the
    document map lists its categories and, under a category, its methods:
    two maps with the same names up to order give the same lines and the
    same text written back. *)
Theorem updateSummary_order_independent (openapiSpecs openapiSpecs' : OpenAPISpecs) :
  obj_keys openapiSpecs ≡ₚ obj_keys openapiSpecs' →
  (∀ section, obj_keys (default [] (obj_get section openapiSpecs))
              ≡ₚ obj_keys (default [] (obj_get section openapiSpecs'))) →
  summary_lines openapiSpecs = summary_lines openapiSpecs'
  ∧ ∀ summary, updateSummary openapiSpecs summary = updateSummary openapiSpecs' summary.
Proof.
  intros Hkeys Hmethods.
  assert (Hlines : summary_lines openapiSpecs = summary_lines openapiSpecs').
  { unfold summary_lines. rewrite (sort_perm_eq _ _ Hkeys). do 3 f_equal.
    apply list_fmap_ext. intros _ section _. unfold section_lines.
    by rewrite (sort_perm_eq _ _ (Hmethods section)). }
  split; [done|]. intros summary. unfold updateSummary. by rewrite Hlines.
Qed.

Lemma updateSummary_output_form_witness :
  ∃ out t, updateSummary sample_specs sample_summary = Ok out
           ∧ out = t +:+ LF ∧ JS.trimEnd t = t.
Proof.
  assert (∃ out, updateSummary sample_specs sample_summary = Ok out) as [out Hrun].
  { eexists. reflexivity. }
  destruct (updateSummary_output_form sample_specs sample_summary out Hrun) as (t & Ht & Htrim & _).
  exists out, t. split; [exact Hrun|]. split; [exact Ht | exact Htrim].
Defined.

Lemma updateSummary_can_be_rerun_witness :
  ∃ out out', updateSummary sample_specs sample_summary = Ok out
              ∧ updateSummary empty_specs out = Ok out'.
Proof.
  assert (∃ out, updateSummary sample_specs sample_summary = Ok out) as [out Hrun].
  { eexists. reflexivity. }
  assert (∃ prefix suffix, sectionBoundaries sample_summary = Ok (prefix, suffix))
    as (prefix & suffix & Hb).
  { eexists _, _. reflexivity. }
  destruct (updateSummary_can_be_rerun sample_specs sample_summary out prefix suffix Hb Hrun)
    as [_ Hrerun].
  destruct (Hrerun empty_specs) as (suffix' & out' & _ & Hrun').
  exists out, out'. split; [exact Hrun | exact Hrun'].
Defined.

Lemma updateSummary_order_independent_witness :
  summary_lines sample_specs = summary_lines permuted_specs.
Proof.
  apply (updateSummary_order_independent sample_specs permuted_specs).
  - apply perm_swap.
  - intros section. unfold sample_specs, permuted_specs. cbn [obj_get].
    destruct (String.eqb_spec "info" section) as [<-|Hinfo].
    + change (String.eqb "exchange" "info") with false. apply perm_swap.
    + destruct (String.eqb_spec "exchange" section); reflexivity.
Defined.

(** ** Publisher, further *)

Section PublisherMore.

Variable stringify : json → string.
Variable localeCompare : string → string → Z.
Variable faults : list Request → Request → option Fault.
Variable orgId : string.

Implicit Types (w : World) (localSlugs : gset string).

Local Abbreviation keys w := ((map_to_list (remote w)).*1).
Local Abbreviation body_of spec :=
  (stringify (JObj [ ("source", JObj [ ("text", JStr (text spec)) ]) ])).
Local Abbreviation store_spec :=
  (fun (st : gmap string string) (spec : LocalSpec) => <[ slug spec := body_of spec ]> st).

(** *** What a run reports *)

Lemma served_app l calls calls' :
  served faults l (calls ++ calls')
  = served faults l calls && served faults (l ++ calls) calls'.
Proof.
  revert l. induction calls as [|r calls IH]; intros l; cbn [served app].
  - by rewrite app_nil_r.
  - destruct (faults l r); [done|]. by rewrite IH, <- app_assoc.
Qed.

Lemma reported_step {A} w w1 r (o : Outcome A) :
  faults (log w) r = None → log w1 = log w ++ [r] →
  reported faults w1 o → reported faults w o.
Proof.
  intros Hf Hlog. destruct o as [a w'|e w'|]; cbn [reported]; [| |done].
  - intros (calls & -> & Hs). exists (r :: calls).
    rewrite Hlog, <- app_assoc. split; [done|]. cbn [served]. rewrite Hf. by rewrite <- Hlog.
  - intros (calls & r' & -> & Hs & Hr').
    exists (r :: calls), r'. rewrite Hlog, <- !app_assoc.
    split; [done|]. split; [cbn [served]; rewrite Hf; by rewrite <- Hlog|].
    rewrite Hlog, <- app_assoc in Hr'. exact Hr'.
Qed.

Lemma reported_refused {A} w w1 r e status body :
  faults (log w) r = Some (Refused status body) → log w1 = log w ++ [r] →
  http_detail e = Some (status, body) → blames e r = true →
  reported (A:=A) faults w (Raised e w1).
Proof.
  intros Hf Hlog Hd Hb. exists [], r. cbn [app served].
  rewrite app_nil_r, Hf. by split.
Qed.

Lemma reported_broken {A} w w1 r applied what :
  faults (log w) r = Some (Broken applied what) → log w1 = log w ++ [r] →
  reported (A:=A) faults w (Raised (CollaboratorError what) w1).
Proof.
  intros Hf Hlog. exists [], r. cbn [app served]. rewrite app_nil_r, Hf. by split.
Qed.

Lemma reported_and_then {A B} w (m : Outcome A) (k : A → World → Outcome B) :
  reported faults w m → (∀ a w1, reported faults w1 (k a w1)) →
  reported faults w (and_then m k).
Proof.
  intros Hm Hk. destruct m as [a w1|e w1|]; cbn [and_then]; [|done..].
  destruct Hm as (calls & Hlog & Hs). specialize (Hk a w1).
  destruct (k a w1) as [b w2|e w2|]; cbn [reported] in *; [| |done].
  - destruct Hk as (calls' & -> & Hs'). exists (calls ++ calls').
    rewrite Hlog, <- app_assoc. split; [done|]. rewrite served_app, Hs. by rewrite <- Hlog.
  - destruct Hk as (calls' & r & -> & Hs' & Hr).
    exists (calls ++ calls'), r. rewrite Hlog, <- !app_assoc.
    split; [done|]. split; [rewrite served_app, Hs; by rewrite <- Hlog|].
    rewrite Hlog, <- app_assoc in Hr. exact Hr.
Qed.

Lemma listRemoteSpecs_reported fuel nextPage acc w :
  reported faults w (listRemoteSpecs faults orgId fuel nextPage acc w).
Proof.
  revert nextPage acc w. induction fuel as [|fuel IH]; intros nextPage acc w; [done|].
  cbn [listRemoteSpecs]. unfold fetch.
  match goal with |- context [GET_list orgId page_size ?p] => set (page := p) end.
  destruct (faults (log w) (GET_list orgId page_size page)) as [[status body|applied what]|]
    eqn:Hf.
  - by eapply reported_refused.
  - by eapply reported_broken.
  - cbn [serve items next].
    match goal with |- context [if ?b then Some _ else None] => destruct b end.
    + change (String.eqb (cursor_of (S _)) "") with false. cbn match.
      eapply reported_step; [exact Hf| |apply IH]. done.
    + exists [GET_list orgId page_size page]. cbn [log served]. by rewrite Hf.
Qed.

Lemma deleteObsolete_reported localSlugs remoteSlugs w :
  reported faults w (deleteObsolete faults orgId localSlugs remoteSlugs w).
Proof.
  revert w. induction remoteSlugs as [|s rest IH]; intros w; cbn [deleteObsolete].
  - exists []. by rewrite app_nil_r.
  - case_bool_decide; [apply IH|]. unfold fetch.
    destruct (faults (log w) (DELETE orgId s)) as [[status body|applied what]|] eqn:Hf.
    + eapply reported_refused; [exact Hf|done|done|]. cbn [blames]. apply String.eqb_refl.
    + by eapply reported_broken.
    + cbn [serve]. eapply reported_step; [exact Hf| |apply IH]. done.
Qed.

Lemma uploadSpecs_reported remoteSlugs specs w :
  reported faults w (uploadSpecs stringify faults orgId remoteSlugs specs w).
Proof.
  revert w. induction specs as [|[slug text] rest IH]; intros w; cbn [uploadSpecs].
  - exists []. by rewrite app_nil_r.
  - unfold fetch.
    match goal with |- context [faults ?l ?r] =>
      destruct (faults l r) as [[status body|applied what]|] eqn:Hf end.
    + eapply reported_refused; [exact Hf|done|done|]. cbn [blames]. apply String.eqb_refl.
    + by eapply reported_broken.
    + cbn [serve]. eapply reported_step; [exact Hf| |apply IH]. done.
Qed.

Lemma updateGitBookOpenAPIs_reported fuel openapiSpecs gitbookToken w :
  reported faults w
    (updateGitBookOpenAPIs stringify localeCompare faults fuel openapiSpecs gitbookToken
       orgId w).
Proof.
  unfold updateGitBookOpenAPIs. cbv zeta.
  destruct (localSpecs stringify localeCompare openapiSpecs) as [|spec specs].
  - exists []. by rewrite app_nil_r.
  - apply reported_and_then; [apply listRemoteSpecs_reported|]. intros allRemoteSpecs w1.
    apply reported_and_then; [apply deleteObsolete_reported|]. intros _ w2.
    apply uploadSpecs_reported.
Qed.

(** X18: when the publisher throws, the request it sent last has failed
    and every request before it was served; nothing is sent after the
    failure.  Either the service turned the request down: then the error
    is a remote API error that carries the status and the body of the
    refusal and names the slug of the request.  Or the exchange broke
    ([fetch] rejected, the body could not be read): then the error is the
    exception of the runtime, as it came. *)
Theorem publisher_stops_at_first_failure fuel openapiSpecs gitbookToken w e w' :
  updateGitBookOpenAPIs stringify localeCompare faults fuel openapiSpecs gitbookToken
    orgId w = Raised e w' →
  ∃ calls r,
    log w' = log w ++ calls ++ [r]
    ∧ served faults (log w) calls = true
    ∧ ((∃ status body,
          faults (log w ++ calls) r = Some (Refused status body)
          ∧ http_detail e = Some (status, body)
          ∧ blames e r = true
          ∧ kind_of e = RemoteAPIError)
       ∨ (∃ applied what,
            faults (log w ++ calls) r = Some (Broken applied what)
            ∧ e = CollaboratorError what)).
Proof.
  intros Hrun.
  pose proof (updateGitBookOpenAPIs_reported fuel openapiSpecs gitbookToken w) as H.
  rewrite Hrun in H. destruct H as (calls & r & Hlog & Hs & Hf).
  exists calls, r. split; [done|]. split; [done|].
  destruct (faults (log w ++ calls) r) as [[status body|applied what]|]; [| |done].
  - left. exists status, body. destruct Hf as [Hd Hb]. repeat (split; [done|]).
    by destruct e.
  - right. by exists applied, what.
Qed.

(** *** What a run leaves alone *)

Lemma keeps_and_then {A B} (P : string → Prop) w (m : Outcome A)
    (k : A → World → Outcome B) :
  keeps P w m → (∀ a w1, keeps P w1 (k a w1)) → keeps P w (and_then m k).
Proof.
  unfold keeps. intros Hm Hk. destruct m as [a w1|e w1|]; cbn [and_then final_world] in *;
    [|done..].
  specialize (Hk a w1). destruct (final_world (k a w1)) as [w2|]; [|done].
  intros s Hs. by rewrite Hk, Hm.
Qed.

Lemma listRemoteSpecs_keeps P fuel nextPage acc w :
  keeps P w (listRemoteSpecs faults orgId fuel nextPage acc w).
Proof.
  revert nextPage acc w. induction fuel as [|fuel IH]; intros nextPage acc w; [done|].
  cbn [listRemoteSpecs]. unfold fetch.
  match goal with |- context [GET_list orgId page_size ?p] => set (page := p) end.
  destruct (faults (log w) (GET_list orgId page_size page)) as [[status body|applied what]|];
    [done|by destruct applied|].
  cbn [serve items next].
  match goal with |- context [if ?b then Some _ else None] => destruct b end; [|done].
  change (String.eqb (cursor_of (S _)) "") with false. cbn match.
  match goal with |- keeps P w (listRemoteSpecs _ _ _ ?n ?a ?w1) =>
    specialize (IH n a w1) end.
  unfold keeps in *. by destruct (final_world _).
Qed.

Lemma deleteObsolete_keeps (P : string → Prop) localSlugs remoteSlugs w :
  (∀ s, P s → s ∉ remoteSlugs) →
  keeps P w (deleteObsolete faults orgId localSlugs remoteSlugs w).
Proof.
  revert w. induction remoteSlugs as [|s rest IH]; intros w HP; cbn [deleteObsolete]; [done|].
  assert (HP' : ∀ s', P s' → s' ∉ rest).
  { intros s' Hs' Hin. apply (HP s' Hs'). by right. }
  case_bool_decide; [by apply IH|]. unfold fetch.
  assert (Hs : ∀ s', P s' → delete s (remote w) !! s' = remote w !! s').
  { intros s' Hs'. apply lookup_delete_ne. intros ->. apply (HP s' Hs'). by left. }
  destruct (faults (log w) (DELETE orgId s)) as [[status body|applied what]|]; [done| |].
  { destruct applied; [|done]. intros s' Hs'. by apply Hs. }
  cbn [serve].
  match goal with |- keeps P w (deleteObsolete _ _ _ _ ?w1) =>
    specialize (IH w1 HP') end.
  unfold keeps in *. destruct (final_world _) as [w'|]; [|done].
  intros s' Hs'. rewrite IH by done. cbn [remote]. apply lookup_delete_ne.
  intros ->. apply (HP s' Hs'). by left.
Qed.

Lemma uploadSpecs_keeps (P : string → Prop) remoteSlugs specs w :
  (∀ s, P s → s ∉ slug <$> specs) →
  keeps P w (uploadSpecs stringify faults orgId remoteSlugs specs w).
Proof.
  revert w. induction specs as [|[slug0 text0] rest IH]; intros w HP; cbn [uploadSpecs];
    [done|].
  assert (HP' : ∀ s', P s' → s' ∉ slug <$> rest).
  { intros s' Hs' Hin. apply (HP s' Hs'). rewrite fmap_cons. by right. }
  assert (Hs : ∀ v s', P s' → <[slug0:=v]> (remote w) !! s' = remote w !! s').
  { intros v s' Hs'. apply lookup_insert_ne. intros <-. apply (HP _ Hs').
    rewrite fmap_cons. by left. }
  unfold fetch.
  match goal with |- context [faults ?l ?r] =>
    destruct (faults l r) as [[status body|applied what]|]; [done| |] end.
  { destruct applied; [|done]. intros s' Hs'. by apply Hs. }
  cbn [serve].
  match goal with |- keeps P w (uploadSpecs _ _ _ _ _ ?w1) =>
    specialize (IH w1 HP') end.
  unfold keeps in *. destruct (final_world _) as [w'|]; [|done].
  intros s' Hs'. rewrite IH by done. cbn [remote]. apply lookup_insert_ne.
  intros <-. apply (HP _ Hs'). rewrite fmap_cons. by left.
Qed.

(** X19: whatever way the publisher ends, returning or throwing half-way,
    the entries of the remote collection whose slug does not begin with
    the reserved prefix are what they were: none is removed, none is
    changed, none is added. *)
Theorem publisher_keeps_foreign_entries fuel openapiSpecs gitbookToken w w' :
  final_world
    (updateGitBookOpenAPIs stringify localeCompare faults fuel openapiSpecs gitbookToken
       orgId w) = Some w' →
  ∀ s, JS.startsWith "hl-" s = false → remote w' !! s = remote w !! s.
Proof.
  intros Hw'.
  enough (keeps (fun s => JS.startsWith "hl-" s = false) w
            (updateGitBookOpenAPIs stringify localeCompare faults fuel openapiSpecs
               gitbookToken orgId w)) as H.
  { unfold keeps in H. by rewrite Hw' in H. }
  clear Hw'. unfold updateGitBookOpenAPIs. cbv zeta.
  destruct (localSpecs stringify localeCompare openapiSpecs) as [|spec specs] eqn:Hspecs;
    [done|].
  apply keeps_and_then; [apply listRemoteSpecs_keeps|]. intros allRemoteSpecs w1.
  apply keeps_and_then.
  - apply deleteObsolete_keeps. intros s Hs [_ Hp]%list_elem_of_In%filter_In. congruence.
  - intros _ w2. apply uploadSpecs_keeps. intros s Hs Hin.
    assert (s ∈ localSlugSet openapiSpecs) as Hl.
    { rewrite <- (localSpecs_slug_set stringify localeCompare), Hspecs.
      by apply elem_of_list_to_set. }
    apply localSlugSet_startsWith in Hl. congruence.
Qed.

(** *** What a run that returns has done *)

Lemma listRemoteSpecs_pages fuel nextPage acc w l w' :
  listRemoteSpecs faults orgId fuel nextPage acc w = Returned l w' →
  ∃ page pages,
    log w' = log w ++ GET_list orgId page_size page :: pages
    ∧ (nextPage = None → page = None)
    ∧ forallb (is_listing orgId) pages = true.
Proof.
  revert nextPage acc w. induction fuel as [|fuel IH]; intros nextPage acc w; [done|].
  cbn [listRemoteSpecs]. unfold fetch.
  match goal with |- context [GET_list orgId page_size ?p] => set (page := p) end.
  assert (Hpage : nextPage = None → page = None) by by intros ->.
  destruct (faults (log w) (GET_list orgId page_size page)) as [[status body|applied what]|]; [done..|].
  cbn [serve items next].
  match goal with |- context [if ?b then Some _ else None] => destruct b end.
  - change (String.eqb (cursor_of (S _)) "") with false. cbn match.
    intros (page' & pages & Hlog & _ & Hall)%IH. cbn [log] in Hlog.
    exists page, (GET_list orgId page_size page' :: pages).
    rewrite Hlog, <- app_assoc. split; [done|]. split; [done|].
    cbn [forallb is_listing]. by rewrite String.eqb_refl, Hall.
  - intros [= <- <-]. by exists page, [].
Qed.

Lemma deleteObsolete_exact localSlugs remoteSlugs w w' :
  deleteObsolete faults orgId localSlugs remoteSlugs w = Returned tt w' →
  log w' = log w ++ (DELETE orgId
                       <$> List.filter (fun s => negb (bool_decide (s ∈ localSlugs)))
                                       remoteSlugs)
  ∧ remote w' = foldl (fun st s => delete s st) (remote w)
                  (List.filter (fun s => negb (bool_decide (s ∈ localSlugs))) remoteSlugs).
Proof.
  revert w. induction remoteSlugs as [|s rest IH]; intros w;
    cbn [deleteObsolete List.filter].
  - intros [= <-]. by rewrite app_nil_r.
  - destruct (bool_decide (s ∈ localSlugs)); cbn [negb]; [apply IH|].
    unfold fetch. destruct (faults (log w) (DELETE orgId s)) as [[status body|applied what]|]; [done..|].
    cbn [serve]. intros [-> ->]%IH. cbn [remote log foldl]. rewrite fmap_cons.
    by rewrite <- app_assoc.
Qed.

Lemma uploadSpecs_exact remoteSlugs specs w w' :
  uploadSpecs stringify faults orgId remoteSlugs specs w = Returned tt w' →
  log w' = log w ++ (put_request stringify orgId <$> specs)
  ∧ remote w' = foldl store_spec (remote w) specs.
Proof.
  revert w. induction specs as [|[slug0 text0] rest IH]; intros w; cbn [uploadSpecs].
  - intros [= <-]. by rewrite app_nil_r.
  - unfold fetch.
    match goal with |- context [faults ?l ?r] =>
      destruct (faults l r) as [[status body|applied what]|]; [done..|] end.
    cbn [serve]. intros [-> ->]%IH. cbn [remote log foldl]. rewrite fmap_cons.
    by rewrite <- app_assoc.
Qed.

Lemma publisher_returned fuel openapiSpecs gitbookToken w w' :
  flat_map snd openapiSpecs ≠ [] →
  updateGitBookOpenAPIs stringify localeCompare faults fuel openapiSpecs gitbookToken
    orgId w = Returned tt w' →
  ∃ pages,
    log w' = log w ++ (GET_list orgId 1000 None :: pages)
               ++ (DELETE orgId <$> obsolete_slugs openapiSpecs (remote w))
               ++ (put_request stringify orgId
                     <$> localSpecs stringify localeCompare openapiSpecs)
    ∧ forallb (is_listing orgId) pages = true
    ∧ remote w' = reconciled stringify (obsolete_slugs openapiSpecs (remote w))
                    (localSpecs stringify localeCompare openapiSpecs) (remote w).
Proof.
  intros Hne%(localSpecs_not_nil stringify localeCompare). unfold updateGitBookOpenAPIs.
  cbv zeta.
  destruct (localSpecs stringify localeCompare openapiSpecs) as [|spec specs] eqn:Hspecs;
    [done|]. clear Hne. rewrite <- Hspecs, localSpecs_slug_set.
  destruct (listRemoteSpecs faults orgId fuel None [] w) as [l w1|e w1|] eqn:Hlist;
    cbn [and_then]; [|done..].
  pose proof (listRemoteSpecs_returned _ _ _ _ _ _ _ _ Hlist) as (Hl & Hr1 & _).
  apply listRemoteSpecs_pages in Hlist as (page & pages & Hlog1 & Hpage & Hall).
  rewrite (Hpage eq_refl) in Hlog1. cbn [app] in Hl. rewrite drop_0 in Hl. subst l.
  destruct (deleteObsolete _ _ _ _ w1) as [[] w2|e w2|] eqn:Hdel; cbn [and_then]; [|done..].
  apply deleteObsolete_exact in Hdel as [Hlog2 Hr2].
  intros [Hlog3 Hr3]%uploadSpecs_exact.
  exists pages. unfold reconciled, obsolete_slugs. rewrite Hlog3, Hlog2, Hlog1, Hr3, Hr2, Hr1.
  by rewrite <- !app_assoc.
Qed.

Lemma localSpecs_sorted openapiSpecs :
  (∀ a b, (localeCompare a b < 0)%Z → ¬ (localeCompare b a < 0)%Z) →
  (∀ a b c, ¬ (localeCompare b a < 0)%Z → ¬ (localeCompare c b < 0)%Z →
            ¬ (localeCompare c a < 0)%Z) →
  StronglySorted (fun a b => ¬ (localeCompare (slug b) (slug a) < 0)%Z)
    (localSpecs stringify localeCompare openapiSpecs).
Proof.
  intros Hasym Htrans. unfold localSpecs.
  eapply StronglySorted_weaken; [|apply sort_by_sorted].
  - intros a b Hab. by apply Z.ltb_nlt.
  - intros a b Hab%Z.ltb_lt. apply Z.ltb_nlt. by apply Hasym.
  - intros a b c Hab%Z.ltb_nlt Hbc%Z.ltb_nlt. apply Z.ltb_nlt. by eapply Htrans.
Qed.

(** X20: a run of the publisher that returns, for a document map with a
    method and a collation that is an order (no two slugs each before the
    other; not being behind is transitive), has sent, in this order: the
    listing requests, a thousand slugs a page and the first without a
    cursor; one DELETE for each reserved remote slug that is no local
    slug, in the order of the listing; one PUT for each method of the
    document map, no other, and these in the order of the collation: no
    PUT has a slug that collates before the slug of an earlier one.  The
    collection it leaves is the collection it found with these entries
    removed and these stored. *)
Theorem publisher_requests fuel openapiSpecs gitbookToken w w' :
  (∀ a b, (localeCompare a b < 0)%Z → ¬ (localeCompare b a < 0)%Z) →
  (∀ a b c, ¬ (localeCompare b a < 0)%Z → ¬ (localeCompare c b < 0)%Z →
            ¬ (localeCompare c a < 0)%Z) →
  flat_map snd openapiSpecs ≠ [] →
  updateGitBookOpenAPIs stringify localeCompare faults fuel openapiSpecs gitbookToken
    orgId w = Returned tt w' →
  ∃ pages puts,
    log w' = log w ++ (GET_list orgId 1000 None :: pages)
               ++ (DELETE orgId <$> obsolete_slugs openapiSpecs (remote w))
               ++ (put_request stringify orgId <$> puts)
    ∧ forallb (is_listing orgId) pages = true
    ∧ puts = localSpecs stringify localeCompare openapiSpecs
    ∧ puts ≡ₚ flat_map (fun '((section, methods) : string * list (string * json)) =>
                          map (fun '((name, spec) : string * json) =>
                                 {| slug := "hl-" +:+ section +:+ "-" +:+ name;
                                    text := stringify spec |})
                              methods)
                       openapiSpecs
    ∧ StronglySorted (fun a b => ¬ (localeCompare (slug b) (slug a) < 0)%Z) puts
    ∧ remote w' = reconciled stringify (obsolete_slugs openapiSpecs (remote w)) puts
                    (remote w).
Proof.
  intros Hasym Htrans Hne Hrun.
  destruct (publisher_returned fuel openapiSpecs gitbookToken w w' Hne Hrun)
    as (pages & Hlog & Hpages & Hremote).
  exists pages, (localSpecs stringify localeCompare openapiSpecs).
  split; [exact Hlog|]. split; [exact Hpages|]. split; [done|].
  split; [apply sort_by_perm|]. split; [by apply localSpecs_sorted | exact Hremote].
Qed.

Lemma foldl_store_union specs (st : gmap string string) :
  foldl store_spec st specs = foldl store_spec ∅ specs ∪ st.
Proof.
  revert st. induction specs as [|spec rest IH]; intros st; cbn [foldl].
  - by rewrite (left_id_L ∅ (∪)).
  - rewrite IH, (IH (<[_ := _]> ∅)). rewrite insert_empty, insert_union_singleton_l.
    by rewrite (assoc_L (∪)).
Qed.

Lemma foldl_store_twice specs (st : gmap string string) :
  foldl store_spec (foldl store_spec st specs) specs = foldl store_spec st specs.
Proof.
  rewrite (foldl_store_union specs (foldl _ _ _)), (foldl_store_union specs st).
  by rewrite (assoc_L (∪)), (idemp_L (∪)).
Qed.

Lemma foldl_store_lookup_ne specs (st : gmap string string) k :
  k ∉ slug <$> specs → foldl store_spec st specs !! k = st !! k.
Proof.
  revert st. induction specs as [|spec rest IH]; intros st; cbn [foldl]; [done|].
  rewrite fmap_cons, not_elem_of_cons. intros [Hne Hrest].
  rewrite IH by done. by apply lookup_insert_ne.
Qed.

Lemma foldl_store_lookup specs (st : gmap string string) spec :
  NoDup (slug <$> specs) → In spec specs →
  foldl store_spec st specs !! slug spec = Some (body_of spec).
Proof.
  revert st. induction specs as [|spec0 rest IH]; intros st; [done|].
  rewrite fmap_cons. intros [Hfresh Hnd]%NoDup_cons [->|Hin]; cbn [foldl].
  - rewrite foldl_store_lookup_ne by done. apply lookup_insert_eq.
  - by apply IH.
Qed.

Lemma foldl_store_dom specs (st : gmap string string) :
  dom (foldl store_spec st specs) = dom st ∪ list_to_set (slug <$> specs).
Proof.
  clear localeCompare. revert st. induction specs as [|spec rest IH]; intros st; cbn [foldl].
  - set_solver.
  - rewrite IH, dom_insert_L, fmap_cons. set_solver.
Qed.

Lemma foldl_delete_dom (obsolete : list string) (st : gmap string string) :
  dom (foldl (fun st s => delete s st) st obsolete) = dom st ∖ list_to_set obsolete.
Proof.
  clear localeCompare. revert st. induction obsolete as [|s rest IH]; intros st; cbn [foldl].
  - set_solver.
  - rewrite IH, dom_delete_L. set_solver.
Qed.

Lemma local_spec_listed openapiSpecs section methods name doc :
  In (section, methods) openapiSpecs → In (name, doc) methods →
  In {| slug := "hl-" +:+ section +:+ "-" +:+ name; text := stringify doc |}
     (localSpecs stringify localeCompare openapiSpecs).
Proof.
  intros Hs Hm. unfold localSpecs. apply list_elem_of_In. rewrite sort_by_perm.
  apply list_elem_of_In, in_flat_map. exists (section, methods). split; [done|].
  apply in_map_iff. by exists (name, doc).
Qed.

(** X21: when no two local specs have the same slug, a run of the publisher
    that returns leaves, for every method of the document map, the entry
    of its slug with the serialised document as the text of its source. *)
Theorem publisher_stores_every_document fuel openapiSpecs gitbookToken w w' :
  NoDup (slug <$> localSpecs stringify localeCompare openapiSpecs) →
  updateGitBookOpenAPIs stringify localeCompare faults fuel openapiSpecs gitbookToken
    orgId w = Returned tt w' →
  ∀ section methods name doc,
    In (section, methods) openapiSpecs → In (name, doc) methods →
    remote w' !! ("hl-" +:+ section +:+ "-" +:+ name)
    = Some (stringify (JObj [ ("source", JObj [ ("text", JStr (stringify doc)) ]) ])).
Proof.
  intros Hnd Hrun section methods name doc Hs Hm.
  assert (Hne : flat_map snd openapiSpecs ≠ []).
  { intros Hnil. assert (In (name, doc) (flat_map snd openapiSpecs)) as Hin; [|by rewrite Hnil in Hin].
    apply in_flat_map. by exists (section, methods). }
  destruct (publisher_returned _ _ _ _ _ Hne Hrun) as (pages & _ & _ & ->).
  unfold reconciled.
  exact (foldl_store_lookup _ _ _ Hnd (local_spec_listed _ _ _ _ _ Hs Hm)).
Qed.

Lemma filter_none {A} (f : A → bool) (l : list A) :
  (∀ x, In x l → f x = false) → List.filter f l = [].
Proof.
  induction l as [|x l IH]; [done|]. intros H. cbn [List.filter].
  rewrite (H x) by by left. apply IH. intros y Hy. apply H. by right.
Qed.

(** X22: after a run of the publisher that returned, a second run for the
    same document map that returns has sent no DELETE, only the listing
    requests and the PUT of every local spec, and leaves the collection
    as the first run left it. *)
Theorem publisher_second_run fuel fuel' openapiSpecs gitbookToken w w1 w2 :
  flat_map snd openapiSpecs ≠ [] →
  updateGitBookOpenAPIs stringify localeCompare faults fuel openapiSpecs gitbookToken
    orgId w = Returned tt w1 →
  updateGitBookOpenAPIs stringify localeCompare faults fuel' openapiSpecs gitbookToken
    orgId w1 = Returned tt w2 →
  remote w2 = remote w1
  ∧ ∃ pages,
      log w2 = log w1 ++ (GET_list orgId 1000 None :: pages)
                 ++ (put_request stringify orgId
                       <$> localSpecs stringify localeCompare openapiSpecs)
      ∧ forallb (is_listing orgId) pages = true.
Proof.
  intros Hne Hrun1 Hrun2.
  destruct (publisher_returned _ _ _ _ _ Hne Hrun1) as (pages1 & _ & _ & Hr1).
  destruct (publisher_returned _ _ _ _ _ Hne Hrun2) as (pages2 & Hlog2 & Hall2 & Hr2).
  assert (Hnone : obsolete_slugs openapiSpecs (remote w1) = []).
  { unfold obsolete_slugs at 1. apply filter_none.
    intros s [Hkey%list_elem_of_In Hprefix]%filter_In.
    apply negb_false_iff, bool_decide_eq_true.
    apply keys_elem_of in Hkey. rewrite Hr1 in Hkey. unfold reconciled in Hkey.
    rewrite foldl_store_dom, foldl_delete_dom, localSpecs_slug_set in Hkey.
    apply elem_of_union in Hkey as [[Hdom Hobs]%elem_of_difference|]; [|done].
    destruct (decide (s ∈ localSlugSet openapiSpecs)) as [|Hnl]; [done|].
    destruct Hobs. apply elem_of_list_to_set, list_elem_of_In. unfold obsolete_slugs.
    apply filter_In. split.
    - apply filter_In. split; [|done]. by apply list_elem_of_In, keys_elem_of.
    - apply negb_true_iff. by apply bool_decide_eq_false. }
  rewrite Hnone in Hlog2, Hr2. split.
  - rewrite Hr2. unfold reconciled. cbn [foldl]. rewrite Hr1. unfold reconciled.
    apply foldl_store_twice.
  - exists pages2. by split.
Qed.

End PublisherMore.

Lemma publisher_stops_at_first_failure_witness :
  ∃ e w' calls r,
    updateGitBookOpenAPIs (fun _ => "{}") code_unit_compare delete_refused 4 sample_specs
      "token" "org" sample_world = Raised e w'
    ∧ log w' = log sample_world ++ calls ++ [r]
    ∧ served delete_refused (log sample_world) calls = true
    ∧ blames e r = true
    ∧ kind_of e = RemoteAPIError.
Proof.
  assert (∃ e w', updateGitBookOpenAPIs (fun _ => "{}") code_unit_compare delete_refused 4
                    sample_specs "token" "org" sample_world = Raised e w')
    as (e & w' & Hrun).
  { eexists _, _. vm_compute. reflexivity. }
  destruct (publisher_stops_at_first_failure (fun _ => "{}") code_unit_compare delete_refused
              "org" 4 sample_specs "token" sample_world e w' Hrun)
    as (calls & r & Hlog & Hserved & [(status & body & _ & _ & Hblames & Hkind)
                                     |(applied & what & Hbroken & _)]).
  - exists e, w', calls, r.
    split; [exact Hrun|]. split; [exact Hlog|]. split; [exact Hserved|].
    split; [exact Hblames | exact Hkind].
  - destruct r; discriminate Hbroken.
Defined.

Lemma publisher_keeps_foreign_entries_witness :
  ∃ w', final_world
          (updateGitBookOpenAPIs (fun _ => "{}") code_unit_compare delete_refused 4
             sample_specs "token" "org" sample_world) = Some w'
        ∧ remote w' !! "welcome" = remote sample_world !! "welcome".
Proof.
  assert (∃ w', final_world
                  (updateGitBookOpenAPIs (fun _ => "{}") code_unit_compare delete_refused 4
                     sample_specs "token" "org" sample_world) = Some w') as [w' Hw'].
  { eexists. vm_compute. reflexivity. }
  exists w'. split; [exact Hw'|].
  apply (publisher_keeps_foreign_entries (fun _ => "{}") code_unit_compare delete_refused
           "org" 4 sample_specs "token" sample_world w' Hw').
  reflexivity.
Defined.

Lemma publisher_requests_witness :
  ∃ w' pages puts,
    updateGitBookOpenAPIs (fun _ => "{}") code_unit_compare no_faults 4 sample_specs
      "token" "org" sample_world = Returned tt w'
    ∧ log w' = log sample_world ++ (GET_list "org" 1000 None :: pages)
                 ++ (DELETE "org" <$> obsolete_slugs sample_specs (remote sample_world))
                 ++ (put_request (fun _ => "{}") "org" <$> puts)
    ∧ StronglySorted (fun a b => ¬ (code_unit_compare (slug b) (slug a) < 0)%Z) puts.
Proof.
  assert (∃ w', updateGitBookOpenAPIs (fun _ => "{}") code_unit_compare no_faults 4
                  sample_specs "token" "org" sample_world = Returned tt w') as [w' Hrun].
  { eexists. vm_compute. reflexivity. }
  destruct (publisher_requests (fun _ => "{}") code_unit_compare no_faults "org" 4
              sample_specs "token" sample_world w')
    as (pages & puts & Hlog & _ & _ & _ & Hsorted & _).
  - exact code_unit_compare_asym.
  - exact code_unit_compare_trans.
  - discriminate.
  - exact Hrun.
  - exists w', pages, puts. split; [exact Hrun|]. split; [exact Hlog | exact Hsorted].
Defined.

Lemma publisher_stores_every_document_witness :
  ∃ w', updateGitBookOpenAPIs (fun _ => "{}") code_unit_compare no_faults 4 sample_specs
          "token" "org" sample_world = Returned tt w'
        ∧ remote w' !! "hl-info-allMids"
          = Some ((fun _ : json => "{}")
                    (JObj [ ("source", JObj [ ("text", JStr "{}") ]) ])).
Proof.
  assert (∃ w', updateGitBookOpenAPIs (fun _ => "{}") code_unit_compare no_faults 4
                  sample_specs "token" "org" sample_world = Returned tt w') as [w' Hrun].
  { eexists. vm_compute. reflexivity. }
  exists w'. split; [exact Hrun|].
  apply (publisher_stores_every_document (fun _ => "{}") code_unit_compare no_faults "org" 4
           sample_specs "token" sample_world w')
    with (section := "info") (name := "allMids") (doc := JObj [ ("openapi", JStr "3.1.1") ])
         (methods := [ ("meta", JObj [ ("openapi", JStr "3.1.1") ]);
                       ("allMids", JObj [ ("openapi", JStr "3.1.1") ]) ]).
  - apply (bool_decide_unpack _). vm_compute. exact I.
  - exact Hrun.
  - left. reflexivity.
  - right. left. reflexivity.
Defined.

Lemma publisher_second_run_witness :
  ∃ w1 w2,
    updateGitBookOpenAPIs (fun _ => "{}") code_unit_compare no_faults 4 sample_specs
      "token" "org" sample_world = Returned tt w1
    ∧ updateGitBookOpenAPIs (fun _ => "{}") code_unit_compare no_faults 4 sample_specs
        "token" "org" w1 = Returned tt w2
    ∧ remote w2 = remote w1.
Proof.
  pose (w1 := default sample_world
                (final_world
                   (updateGitBookOpenAPIs (fun _ => "{}") code_unit_compare no_faults 4
                      sample_specs "token" "org" sample_world))).
  assert (Hrun1 : updateGitBookOpenAPIs (fun _ => "{}") code_unit_compare no_faults 4
                    sample_specs "token" "org" sample_world = Returned tt w1).
  { vm_compute. reflexivity. }
  assert (∃ w2, updateGitBookOpenAPIs (fun _ => "{}") code_unit_compare no_faults 4
                  sample_specs "token" "org" w1 = Returned tt w2) as [w2 Hrun2].
  { eexists. vm_compute. reflexivity. }
  exists w1, w2. split; [exact Hrun1|]. split; [exact Hrun2|].
  refine (proj1 (publisher_second_run (fun _ => "{}") code_unit_compare no_faults "org" 4 4
                   sample_specs "token" sample_world w1 w2 _ Hrun1 Hrun2)).
  discriminate.
Defined.

(** ** The main block *)

Section Main.

Variable getAllSchemas : Result AllSchemas.
Variable convert : json → Result json.
Variable stringify : json → string.
Variable localeCompare : string → string → Z.
Variable faults : list Request → Request → option Fault.
Variable fuel : nat.
Variables GITBOOK_TOKEN GITBOOK_ORG_ID : option string.

Local Abbreviation run sys :=
  (main getAllSchemas convert stringify localeCompare faults fuel GITBOOK_TOKEN
     GITBOOK_ORG_ID sys).

Lemma thrown_final e sys sys' : final_system (thrown e sys) = Some sys' → sys' = sys.
Proof. destruct e; cbn [thrown final_system]; congruence. Qed.

(** X23: the main block touches nothing before every earlier phase has
    succeeded.  Whatever way it ends, either the system is what it was, no
    request sent and SUMMARY.md not written, or both variables were set
    and not empty, the schemas were extracted and assembled, SUMMARY.md
    was rewritten from them, and the documentation host is in the state
    the publisher left it in, returning or throwing. *)
Theorem main_effects_in_order sys sys' :
  final_system (run sys) = Some sys' →
  sys' = sys
  ∨ ∃ token orgId schemas openapiSpecs summary written,
      GITBOOK_TOKEN = Some token ∧ token ≠ ""
      ∧ GITBOOK_ORG_ID = Some orgId ∧ orgId ≠ ""
      ∧ getAllSchemas = Ok schemas
      ∧ UpdateTs.jsonSchemasToOpenAPIs convert schemas = Ok openapiSpecs
      ∧ summaryFile sys = Some summary
      ∧ updateSummary openapiSpecs summary = Ok written
      ∧ summaryFile sys' = Some written
      ∧ final_world (updateGitBookOpenAPIs stringify localeCompare faults fuel openapiSpecs
                       token orgId (world sys)) = Some (world sys').
Proof.
  unfold main.
  destruct GITBOOK_TOKEN as [token|]; [|by intros [= <-]; left].
  destruct GITBOOK_ORG_ID as [orgId|]; [|by intros [= <-]; left].
  destruct (String.eqb_spec token "") as [->|Htoken]; cbn [orb]; [by intros [= <-]; left|].
  destruct (String.eqb_spec orgId "") as [->|Horg]; [by intros [= <-]; left|].
  destruct getAllSchemas as [schemas|e]; [|by intros ->%thrown_final; left].
  destruct (UpdateTs.jsonSchemasToOpenAPIs convert schemas) as [openapiSpecs|e] eqn:Hspecs;
    [|by intros ->%thrown_final; left].
  destruct (summaryFile sys) as [summary|] eqn:Hfile; [|by intros [= <-]; left].
  destruct (updateSummary openapiSpecs summary) as [written|e] eqn:Hsum;
    [|by intros ->%thrown_final; left].
  destruct (updateGitBookOpenAPIs _ _ _ _ _ _ _ _) as [[] w|e w|] eqn:Hpub; [| |done].
  - intros [= <-]. right. exists token, orgId, schemas, openapiSpecs, summary, written.
    by rewrite Hpub.
  - intros ->%thrown_final. right.
    exists token, orgId, schemas, openapiSpecs, summary, written. by rewrite Hpub.
Qed.

End Main.

Lemma reconciled_reserved stringify localeCompare openapiSpecs (st : gmap string string) :
  reserved (dom (reconciled stringify (obsolete_slugs openapiSpecs st)
                   (localSpecs stringify localeCompare openapiSpecs) st))
  = localSlugSet openapiSpecs.
Proof.
  unfold reconciled. rewrite foldl_store_dom, foldl_delete_dom, localSpecs_slug_set.
  apply set_eq. intros s. unfold reserved.
  rewrite elem_of_filter, elem_of_union, elem_of_difference. split.
  - intros [Hp [[Hdom Hobs]|Hl]]; [|done].
    destruct (decide (s ∈ localSlugSet openapiSpecs)) as [|Hnl]; [done|].
    destruct Hobs. apply elem_of_list_to_set, list_elem_of_In. unfold obsolete_slugs.
    apply filter_In. split.
    + apply filter_In. split; [|by apply Is_true_true].
      apply list_elem_of_In, list_elem_of_fmap. apply elem_of_dom in Hdom as [v Hv].
      exists (s, v). split; [done|]. by apply elem_of_map_to_list.
    + apply negb_true_iff. by apply bool_decide_eq_false.
  - intros Hl. split; [|by right].
    apply Is_true_true. by apply (localSlugSet_startsWith openapiSpecs).
Qed.

(** X24: when the main block completes for a document map with a method,
    SUMMARY.md and the documentation host agree: the reserved slugs of the
    remote collection are the slugs that the lines of the section written
    to SUMMARY.md refer to. *)
Theorem main_completed_consistent getAllSchemas convert stringify localeCompare faults fuel
    GITBOOK_TOKEN GITBOOK_ORG_ID sys sys' :
  main getAllSchemas convert stringify localeCompare faults fuel GITBOOK_TOKEN
    GITBOOK_ORG_ID sys = Completed sys' →
  ∃ schemas openapiSpecs summary written,
    getAllSchemas = Ok schemas
    ∧ UpdateTs.jsonSchemasToOpenAPIs convert schemas = Ok openapiSpecs
    ∧ summaryFile sys = Some summary
    ∧ updateSummary openapiSpecs summary = Ok written
    ∧ summaryFile sys' = Some written
    ∧ (flat_map snd openapiSpecs ≠ [] →
       ∀ slug, slug ∈ reserved (dom (remote (world sys')))
               ↔ In ("          spec: " +:+ slug) (summary_lines openapiSpecs)).
Proof.
  unfold main.
  destruct GITBOOK_TOKEN as [token|]; [|done].
  destruct GITBOOK_ORG_ID as [orgId|]; [|done].
  destruct (String.eqb token "" || String.eqb orgId ""); [done|].
  destruct getAllSchemas as [schemas|e]; [|by destruct e].
  destruct (UpdateTs.jsonSchemasToOpenAPIs convert schemas) as [openapiSpecs|e] eqn:Hspecs;
    [|by destruct e].
  destruct (summaryFile sys) as [summary|] eqn:Hfile; [|done].
  destruct (updateSummary openapiSpecs summary) as [written|e] eqn:Hsum; [|by destruct e].
  destruct (updateGitBookOpenAPIs _ _ _ _ _ _ _ _) as [[] w|e w|] eqn:Hpub;
    [|by destruct e|done].
  intros [= <-]. exists schemas, openapiSpecs, summary, written.
  do 5 (split; [done|]). intros Hne slug. cbn [world].
  destruct (publisher_returned _ _ _ _ _ _ _ _ _ Hne Hpub) as (pages & _ & _ & ->).
  rewrite reconciled_reserved. symmetry. apply summary_lines_local_slugs.
  change (UpdateTs.jsonSchemasToOpenAPIs convert schemas)
    with (Part000.jsonSchemasToOpenAPIs convert schemas) in Hspecs.
  rewrite (assembled_keys _ _ _ Hspecs). apply NoDup_cons. split.
  - rewrite list_elem_of_singleton. discriminate.
  - apply NoDup_singleton.
Qed.

Lemma main_effects_in_order_witness :
  ∃ sys',
    final_system (main (Ok sample_schemas) Ok (fun _ => "{}") code_unit_compare
                    delete_refused 4 (Some "token") (Some "org") sample_system) = Some sys'
    ∧ (sys' = sample_system
       ∨ ∃ token orgId schemas openapiSpecs summary written,
           Some "token" = Some token ∧ token ≠ ""
           ∧ Some "org" = Some orgId ∧ orgId ≠ ""
           ∧ Ok sample_schemas = Ok schemas
           ∧ UpdateTs.jsonSchemasToOpenAPIs Ok schemas = Ok openapiSpecs
           ∧ summaryFile sample_system = Some summary
           ∧ updateSummary openapiSpecs summary = Ok written
           ∧ summaryFile sys' = Some written
           ∧ final_world (updateGitBookOpenAPIs (fun _ => "{}") code_unit_compare
                            delete_refused 4 openapiSpecs token orgId (world sample_system))
             = Some (world sys')).
Proof.
  assert (∃ sys', final_system (main (Ok sample_schemas) Ok (fun _ => "{}") code_unit_compare
                                  delete_refused 4 (Some "token") (Some "org") sample_system)
                  = Some sys') as [sys' Hrun].
  { eexists. vm_compute. reflexivity. }
  exists sys'. split; [exact Hrun|].
  exact (main_effects_in_order (Ok sample_schemas) Ok (fun _ => "{}") code_unit_compare
           delete_refused 4 (Some "token") (Some "org") sample_system sys' Hrun).
Defined.

Lemma main_completed_consistent_witness :
  ∃ sys' openapiSpecs,
    main (Ok sample_schemas) Ok (fun _ => "{}") code_unit_compare no_faults 4
      (Some "token") (Some "org") sample_system = Completed sys'
    ∧ UpdateTs.jsonSchemasToOpenAPIs Ok sample_schemas = Ok openapiSpecs
    ∧ ∀ slug, slug ∈ reserved (dom (remote (world sys')))
              ↔ In ("          spec: " +:+ slug) (summary_lines openapiSpecs).
Proof.
  assert (∃ sys', main (Ok sample_schemas) Ok (fun _ => "{}") code_unit_compare no_faults 4
                    (Some "token") (Some "org") sample_system = Completed sys')
    as [sys' Hrun].
  { eexists. vm_compute. reflexivity. }
  destruct (main_completed_consistent (Ok sample_schemas) Ok (fun _ => "{}")
              code_unit_compare no_faults 4 (Some "token") (Some "org") sample_system sys'
              Hrun)
    as (schemas & openapiSpecs & summary & written & Hs & Hspecs & _ & _ & _ & Hiff).
  apply Ok_inj in Hs as <-.
  exists sys', openapiSpecs. split; [exact Hrun|]. split; [exact Hspecs|].
  apply Hiff. vm_compute in Hspecs. apply Ok_inj in Hspecs as <-. discriminate.
Defined.

(** ** Normalisation, further *)

Lemma match_stem_here_intro stem :
  stem ≠ "" → single_line stem = true →
  match_stem_here (stem +:+ "SuccessResponse") = Some stem.
Proof.
  induction stem as [|c r IH]; [done|]. intros _ [Hc Hr]%andb_prop.
  apply negb_true_iff in Hc. rewrite str_app_cons. cbn [match_stem_here]. rewrite Hc.
  destruct r as [|c' r'].
  - by change (match_stem_here ("" +:+ "SuccessResponse")) with (@None string).
  - by rewrite IH.
Qed.

(** X25: a name made of a stem, not empty and without a line break, and
    the suffix SuccessResponse is normalised to the stem and Response; a
    name that does not end in SuccessResponse is left as it is. *)
Theorem normalizeResponseName_rewrites_suffix :
  (∀ stem, stem ≠ "" → single_line stem = true →
           normalizeResponseName (stem +:+ "SuccessResponse") = stem +:+ "Response")
  ∧ (∀ name, JS.endsWith "SuccessResponse" name = false →
             normalizeResponseName name = name).
Proof.
  split; [|apply normalizeResponseName_fixed].
  intros stem Hne Hline. pose proof (match_stem_here_intro stem Hne Hline) as Hm.
  destruct stem as [|c r]; [done|]. rewrite str_app_cons in *.
  cbn [normalizeResponseName]. by rewrite Hm.
Qed.

Lemma normalizeResponseName_rewrites_suffix_witness :
  normalizeResponseName ("Order" +:+ "SuccessResponse") = "Order" +:+ "Response".
Proof.
  apply (proj1 normalizeResponseName_rewrites_suffix "Order"); [discriminate|reflexivity].
Defined.

(** ** The listing loop *)

(** X26: when the listing loop returns, it has collected the slugs of the
    whole remote collection, each once and in the order of the collection,
    however many pages that took, and has left the collection as it
    was. *)
Theorem listing_collects_every_slug faults orgId fuel w l w' :
  listRemoteSpecs faults orgId fuel None [] w = Returned l w' →
  l = (map_to_list (remote w)).*1 ∧ NoDup l ∧ remote w' = remote w.
Proof.
  intros (-> & Hr & _)%listRemoteSpecs_returned. cbn [app]. rewrite drop_0.
  split; [done|]. split; [|done]. apply NoDup_fst_map_to_list.
Qed.

Lemma listing_collects_every_slug_witness :
  ∃ l w', listRemoteSpecs no_faults "org" 1 None [] sample_world = Returned l w'
          ∧ l = (map_to_list (remote sample_world)).*1.
Proof.
  assert (∃ l w', listRemoteSpecs no_faults "org" 1 None [] sample_world = Returned l w')
    as (l & w' & Hrun).
  { eexists _, _. vm_compute. reflexivity. }
  exists l, w'. split; [exact Hrun|].
  exact (proj1 (listing_collects_every_slug no_faults "org" 1 sample_world l w' Hrun)).
Defined.
